(** * raiden/channel.py: the off-chain payment channel state engine

    A shallow embedding of [LockedTransfers], [ChannelEndState],
    [ChannelExternalState] and [Channel] from [raiden/channel.py], followed by
    the properties of the channel specification that were checked against it.

    Python objects are mutable and exceptions leave whatever was mutated
    before they were raised in place, so every method is a function from the
    state it may touch to the state afterwards together with either the raised
    exception or the returned value. *)

From Stdlib Require Import ZArith Lia Permutation.
From stdpp Require Import base option list strings gmap fin_maps.

Local Open Scope string_scope.
Local Open Scope Z_scope.
Local Open Scope list_scope.

(** ** Values *)

(** Python 2 [str]: addresses, secrets, hashes and roots are byte strings. *)
Abbreviation bytes := string (only parsing).

(** Truth value of a byte string in a condition: empty is false. *)
Definition truthy (b : bytes) : bool :=
  match b with
  | EmptyString => false
  | String _ _ => true
  end.

(** Truth value of an optional argument whose default is [None]. *)
Definition truthy_opt (o : option bytes) : bool :=
  match o with
  | None => false
  | Some b => truthy b
  end.

(** [raiden.messages.Lock]: amounts and block numbers are Python integers. *)
Record Lock := mkLock {
  lock_amount : Z;
  lock_expiration : Z;
  lock_hashlock : bytes;
}.

#[global] Instance Lock_eq_dec : EqDecision Lock.
Proof. solve_decision. Defined.

(** ** Exceptions *)

(** The exception classes that [channel.py] raises, directly or through the
    built-in operations it uses.  [ValueError] keeps its message, which is all
    that tells two of them apart.  The arguments of the [BaseError] subclasses
    (the offending transfer or hashlock) are not modelled.  [InvalidLockTime]
    is declared by the module and never raised. *)
Inductive exn :=
| ValueError (msg : string)
| InvalidNonce
| InvalidSecret
| InvalidLocksRoot
| InvalidLockTime
| InsufficientBalance
| AssertionError
| KeyError
| AttributeError (name : string)
| Exception (msg : string).

Inductive exn_class :=
| CValueError | CInvalidNonce | CInvalidSecret | CInvalidLocksRoot
| CInvalidLockTime | CInsufficientBalance | CAssertionError | CKeyError
| CAttributeError | CException.

(** What an [except <Class>:] clause matches on. *)
Definition class_of (e : exn) : exn_class :=
  match e with
  | ValueError _ => CValueError
  | InvalidNonce => CInvalidNonce
  | InvalidSecret => CInvalidSecret
  | InvalidLocksRoot => CInvalidLocksRoot
  | InvalidLockTime => CInvalidLockTime
  | InsufficientBalance => CInsufficientBalance
  | AssertionError => CAssertionError
  | KeyError => CKeyError
  | AttributeError _ => CAttributeError
  | Exception _ => CException
  end.

#[global] Instance exn_eq_dec : EqDecision exn.
Proof. solve_decision. Defined.

#[global] Instance exn_class_eq_dec : EqDecision exn_class.
Proof. solve_decision. Defined.

(** ** Imported functions

    [sha3] (raiden.utils), [merkleroot] (raiden.mtree) and [Lock.as_bytes]
    (raiden.messages) are imported by [channel.py]; the channel code only
    calls them.  They are an interface here.  The one fact about them the
    channel's control flow relies on is that a [sha3] digest is 32 bytes long,
    hence never an empty (false) string: [root_with] tests [if lock_hash:]. *)
Class Imports := {
  sha3 : bytes → bytes;
  merkleroot : list bytes → bytes;
  as_bytes : Lock → bytes;
  sha3_truthy : ∀ b, truthy (sha3 b) = true;
}.

(** The hash of a lock as kept in [_cached_lock_hashes]:
    [sha3(lock.as_bytes)]. *)
Definition lock_hash `{Imports} (l : Lock) : bytes := sha3 (as_bytes l).

(** ** State and exceptions *)

(** A computation over a mutable state [S]: the state afterwards, and the
    exception raised or the value returned. *)
Definition M (S A : Type) : Type := S → S * (exn + A).

Definition ret {S A} (a : A) : M S A := λ s, (s, inr a).
Definition raise {S A} (e : exn) : M S A := λ s, (s, inl e).
Definition bind {S A B} (m : M S A) (k : A → M S B) : M S B :=
  λ s, match m s with
       | (s', inl e) => (s', inl e)
       | (s', inr a) => k a s'
       end.
Definition get {S} : M S S := λ s, (s, inr s).
Definition modify {S} (f : S → S) : M S unit := λ s, (f s, inr tt).

Declare Scope py_scope.
Delimit Scope py_scope with py.
Notation "'let!' x ':=' m 'in' k" := (bind m (λ x, k))
  (at level 10, x name, m at level 100, k at level 200) : py_scope.
Notation "m ';;' k" := (bind m (λ _, k))
  (at level 100, k at level 200, right associativity) : py_scope.
Local Open Scope py_scope.

(** [when c m]: [if c: m]. *)
Definition when {S} (c : bool) (m : M S unit) : M S unit :=
  if c then m else ret tt.

(** [raise_if c e]: [if c: raise e]. *)
Definition raise_if {S} (c : bool) (e : exn) : M S unit :=
  if c then raise e else ret tt.

(** A reference to an object of type [T] held in a store [S]. *)
Record Ref (S T : Type) := mkRef {
  rd : S → T;
  wr : T → S → S;
}.
Arguments mkRef {S T} _ _.
Arguments rd {S T} _ _.
Arguments wr {S T} _ _ _.

(** The attribute [r2] of the object that [r1] refers to. *)
Definition attr_ref {S T U} (r1 : Ref S T) (r2 : Ref T U) : Ref S U :=
  mkRef (λ s, rd r2 (rd r1 s)) (λ u s, wr r1 (wr r2 u (rd r1 s)) s).

(** Run a method of the referenced object inside the store. *)
Definition zoom {S T A} (r : Ref S T) (m : M T A) : M S A :=
  λ s, match m (rd r s) with
       | (t', res) => (wr r t' s, res)
       end.

(** ** Messages *)

Module Msg.

(** The fields every transfer message carries.  [sender] is the address
    recovered from the signature; it is the empty string on a message that
    was not signed. *)
Record Header := mkHeader {
  nonce : Z;
  asset : bytes;
  transfered_amount : Z;
  recipient : bytes;
  locksroot : bytes;
  sender : bytes;
}.

Record DirectTransfer := mkDirect {
  direct_header : Header;
  secret : option bytes;
}.

(** [LockedTransfer], and its subclasses [MediatedTransfer] and
    [RefundTransfer], whose routing fields the channel never reads. *)
Record LockedTransfer := mkLocked {
  locked_header : Header;
  lock : Lock;
}.

(** What [isinstance] tells apart in [register_transfer_from_to]. *)
Inductive Transfer :=
| Direct (d : DirectTransfer)
| Locked (l : LockedTransfer).

Definition header (t : Transfer) : Header :=
  match t with
  | Direct d => direct_header d
  | Locked l => locked_header l
  end.

Definition with_sender (a : bytes) (h : Header) : Header :=
  mkHeader (nonce h) (asset h) (transfered_amount h) (recipient h)
           (locksroot h) a.

(** Signing with the key of address [a] makes [a] the recovered sender. *)
Definition sign (a : bytes) (t : Transfer) : Transfer :=
  match t with
  | Direct d => Direct (mkDirect (with_sender a (direct_header d)) (secret d))
  | Locked l => Locked (mkLocked (with_sender a (locked_header l)) (lock l))
  end.

#[global] Instance Header_eq_dec : EqDecision Header.
Proof. solve_decision. Defined.
#[global] Instance DirectTransfer_eq_dec : EqDecision DirectTransfer.
Proof. solve_decision. Defined.
#[global] Instance LockedTransfer_eq_dec : EqDecision LockedTransfer.
Proof. solve_decision. Defined.
#[global] Instance Transfer_eq_dec : EqDecision Transfer.
Proof. solve_decision. Defined.

End Msg.

(** ** Built-in list operations *)

(** [l.remove(x)]: drops the first item equal to [x]; [None] stands for the
    [ValueError] Python raises when there is none. *)
Fixpoint list_remove (x : bytes) (l : list bytes) : option (list bytes) :=
  match l with
  | [] => None
  | y :: l' =>
      if decide (x = y) then Some l'
      else match list_remove x l' with
           | None => None
           | Some r => Some (y :: r)
           end
  end.

Definition list_remove_error : exn :=
  ValueError "list.remove(x): x not in list".

(** ** LockedTransfers *)

Module LockedTransfers.

Record t := mk {
  locked : gmap string Msg.LockedTransfer;
  cached_lock_hashes : list bytes;
  cached_root : option bytes;
}.

(** [__init__] *)
Definition init : t := mk ∅ [] None.

(** [__contains__] *)
Definition contains (hashlock : bytes) (s : t) : bool :=
  bool_decide (is_Some (locked s !! hashlock)).

(** [__len__] *)
Definition len (s : t) : nat := size (locked s).

(** [__getitem__], also bound to [get] *)
Definition getitem (hashlock : bytes) : M t Msg.LockedTransfer :=
  λ s, match locked s !! hashlock with
       | Some tr => (s, inr tr)
       | None => (s, inl KeyError)
       end.

Section WithImports.
Context `{Imports}.

Definition add (transfer : Msg.LockedTransfer) : M t unit :=
  λ s,
    let hashlock := lock_hashlock (Msg.lock transfer) in
    if contains hashlock s then (s, inl AssertionError)
    else (mk (<[hashlock := transfer]> (locked s))
             (cached_lock_hashes s ++ [lock_hash (Msg.lock transfer)])
             None,
          inr tt).

Definition remove (hashlock : bytes) : M t unit :=
  let! tr := getitem hashlock in
  λ s,
    match list_remove (lock_hash (Msg.lock tr)) (cached_lock_hashes s) with
    | None => (s, inl list_remove_error)
    | Some hashes =>
        (mk (delete hashlock (locked s)) hashes None, inr tt)
    end.

(** [outstanding] *)
Definition outstanding (s : t) : Z :=
  map_fold (λ _ tr acc, lock_amount (Msg.lock tr) + acc) 0 (locked s).

(** [root]: fills the cache on a miss. *)
Definition root : M t bytes :=
  λ s, match cached_root s with
       | Some r => (s, inr r)
       | None =>
           let r := merkleroot (cached_lock_hashes s) in
           (mk (locked s) (cached_lock_hashes s) (Some r), inr r)
       end.

Definition set_hashes (hashes : list bytes) (s : t) : t :=
  mk (locked s) hashes (cached_root s).

(** [self._cached_lock_hashes.append(h)] *)
Definition hashes_append (h : bytes) : M t unit :=
  modify (λ s, set_hashes (cached_lock_hashes s ++ [h]) s).

(** [self._cached_lock_hashes.remove(h)] *)
Definition hashes_remove (h : bytes) : M t unit :=
  λ s, match list_remove h (cached_lock_hashes s) with
       | None => (s, inl list_remove_error)
       | Some hashes => (set_hashes hashes s, inr tt)
       end.

(** [root_with(lock=None, exclude=None)].  Both arguments are locks or
    [None], so the two [isinstance] guards never fire; a [Lock] object is
    true in a condition. *)
Definition root_with (lock exclude : option Lock) : M t bytes :=
  (* temporarily add *)
  match lock with
  | Some l => hashes_append (lock_hash l)
  | None => ret tt
  end ;;
  (* temporarily remove *)
  match exclude with
  | Some x => hashes_remove (lock_hash x)
  | None => ret tt
  end ;;
  let! s := get in
  let root := merkleroot (cached_lock_hashes s) in
  (* remove the temporarily added hash *)
  match lock with
  | Some l =>
      when (truthy (lock_hash l))
        (let! s := get in
         if bool_decide (lock_hash l ∈ cached_lock_hashes s)
         then hashes_remove (lock_hash l)
         else raise AssertionError)
  | None => ret tt
  end ;;
  (* reinclude the temporarily removed hash *)
  match exclude with
  | Some x => hashes_append (lock_hash x)
  | None => ret tt
  end ;;
  ret root.

End WithImports.

End LockedTransfers.

(** ** ChannelEndState *)

Module ChannelEndState.

Record t := mk {
  contract_balance : Z;
  transfered_amount : Z;
  address : bytes;
  nonce : Z;
  locked : LockedTransfers.t;
}.

(** [__init__]: the nonce starts at 1, 0 stands for "no transfer" in the
    netting contract. *)
Definition init (participant_address : bytes) (participant_balance : Z) : t :=
  mk participant_balance 0 participant_address 1 LockedTransfers.init.

Definition set_contract_balance (v : Z) (s : t) : t :=
  mk v (transfered_amount s) (address s) (nonce s) (locked s).
Definition set_transfered_amount (v : Z) (s : t) : t :=
  mk (contract_balance s) v (address s) (nonce s) (locked s).
Definition set_nonce (v : Z) (s : t) : t :=
  mk (contract_balance s) (transfered_amount s) (address s) v (locked s).
Definition set_locked (v : LockedTransfers.t) (s : t) : t :=
  mk (contract_balance s) (transfered_amount s) (address s) (nonce s) v.

(** [self.locked] *)
Definition locked_ref : Ref t LockedTransfers.t := mkRef locked set_locked.

(** What an attribute of an end state evaluates to. *)
Inductive attr :=
| AInt (z : Z)
| ABytes (b : bytes)
| ALocked (l : LockedTransfers.t)
| AMethod (name : string).

(** [state.<name>]: the instance attributes set by [__init__] and the
    methods of the class; any other name raises [AttributeError]. *)
Definition getattr (name : string) (s : t) : exn + attr :=
  if String.eqb name "contract_balance" then inr (AInt (contract_balance s))
  else if String.eqb name "transfered_amount"
  then inr (AInt (transfered_amount s))
  else if String.eqb name "address" then inr (ABytes (address s))
  else if String.eqb name "nonce" then inr (AInt (nonce s))
  else if String.eqb name "locked" then inr (ALocked (locked s))
  else if String.eqb name "balance" then inr (AMethod name)
  else if String.eqb name "update_contract_balance" then inr (AMethod name)
  else if String.eqb name "distributable" then inr (AMethod name)
  else if String.eqb name "claim_locked" then inr (AMethod name)
  else inl (AttributeError name).

Definition balance (self other : t) : Z :=
  contract_balance self - transfered_amount self + transfered_amount other.

Definition update_contract_balance (contract_balance : Z) : M t unit :=
  modify (set_contract_balance contract_balance).

Section WithImports.
Context `{Imports}.

Definition distributable (self other : t) : Z :=
  balance self other - LockedTransfers.outstanding (locked other).

(** [self.claim_locked(partner, secret, locksroot=None)], with [self] and
    [partner] references into the store that holds both end states. *)
Definition claim_locked {S} (self partner : Ref S t)
    (secret : bytes) (locksroot : option bytes) : M S unit :=
  let hashlock := sha3 secret in
  let! s := get in
  raise_if (negb (LockedTransfers.contains hashlock (locked (rd self s))))
    InvalidSecret ;;
  (* start of the critical write section *)
  let! tr := zoom (attr_ref self locked_ref)
               (LockedTransfers.getitem hashlock) in
  let lock := Msg.lock tr in
  (if truthy_opt locksroot then
     let! r := zoom (attr_ref self locked_ref)
                 (LockedTransfers.root_with None (Some lock)) in
     raise_if (bool_decide (Some r ≠ locksroot)) InvalidLocksRoot
   else ret tt) ;;
  let amount := lock_amount lock in
  zoom partner
    (modify (λ p, set_transfered_amount (transfered_amount p + amount) p)) ;;
  zoom (attr_ref self locked_ref) (LockedTransfers.remove hashlock).
  (* end of the critical write section *)

End WithImports.

End ChannelEndState.

(** ** ChannelExternalState *)

Module ChannelExternalState.

(** [block_number] is what [get_block_number()] returns now; the three
    lifecycle blocks are read from the netting channel by [__init__];
    [registered] collects the hashlocks handed to the
    [register_channel_for_hashlock] callback. *)
Record t := mk {
  block_number : Z;
  opened_block : Z;
  closed_block : Z;
  settled_block : Z;
  registered : list bytes;
}.

Definition isopen (s : t) : bool :=
  if bool_decide (closed_block s ≠ 0) then false
  else if bool_decide (opened_block s ≠ 0) then true
  else false.

Definition get_block_number : M t Z := λ s, (s, inr (block_number s)).

Definition register_channel_for_hashlock (hashlock : bytes) : M t unit :=
  modify (λ s, mk (block_number s) (opened_block s) (closed_block s)
                  (settled_block s) (registered s ++ [hashlock])).

End ChannelExternalState.

(** ** Channel *)

Module Channel.

(** The two end-state objects a channel owns.  [from_state] and [to_state]
    arguments are references to one of them. *)
Inductive Side := Our | Partner.

#[global] Instance Side_eq_dec : EqDecision Side.
Proof. solve_decision. Defined.

(** Callbacks are opaque to the channel; a number stands for each. *)
Abbreviation callback := nat (only parsing).

Record t := mk {
  our_state : ChannelEndState.t;
  partner_state : ChannelEndState.t;
  asset_address : bytes;
  reveal_timeout : Z;
  settle_timeout : Z;
  external_state : ChannelExternalState.t;
  received_transfers : list Msg.Transfer;
  sent_transfers : list Msg.Transfer;
  transfer_callbacks : list (Msg.Transfer * callback);
}.

(** [__init__] *)
Definition init (our_state partner_state : ChannelEndState.t)
    (external_state : ChannelExternalState.t)
    (asset_address : bytes) (reveal_timeout settle_timeout : Z) : t :=
  mk our_state partner_state asset_address reveal_timeout settle_timeout
     external_state [] [] [].

Definition set_our_state (v : ChannelEndState.t) (c : t) : t :=
  mk v (partner_state c) (asset_address c) (reveal_timeout c)
     (settle_timeout c) (external_state c) (received_transfers c)
     (sent_transfers c) (transfer_callbacks c).
Definition set_partner_state (v : ChannelEndState.t) (c : t) : t :=
  mk (our_state c) v (asset_address c) (reveal_timeout c)
     (settle_timeout c) (external_state c) (received_transfers c)
     (sent_transfers c) (transfer_callbacks c).
Definition set_external_state (v : ChannelExternalState.t) (c : t) : t :=
  mk (our_state c) (partner_state c) (asset_address c) (reveal_timeout c)
     (settle_timeout c) v (received_transfers c)
     (sent_transfers c) (transfer_callbacks c).
Definition set_received_transfers (v : list Msg.Transfer) (c : t) : t :=
  mk (our_state c) (partner_state c) (asset_address c) (reveal_timeout c)
     (settle_timeout c) (external_state c) v
     (sent_transfers c) (transfer_callbacks c).
Definition set_sent_transfers (v : list Msg.Transfer) (c : t) : t :=
  mk (our_state c) (partner_state c) (asset_address c) (reveal_timeout c)
     (settle_timeout c) (external_state c) (received_transfers c)
     v (transfer_callbacks c).
Definition set_transfer_callbacks (v : list (Msg.Transfer * callback))
    (c : t) : t :=
  mk (our_state c) (partner_state c) (asset_address c) (reveal_timeout c)
     (settle_timeout c) (external_state c) (received_transfers c)
     (sent_transfers c) v.

Definition state (x : Side) (c : t) : ChannelEndState.t :=
  match x with
  | Our => our_state c
  | Partner => partner_state c
  end.

Definition set_state (x : Side) (v : ChannelEndState.t) (c : t) : t :=
  match x with
  | Our => set_our_state v c
  | Partner => set_partner_state v c
  end.

Definition state_ref (x : Side) : Ref t ChannelEndState.t :=
  mkRef (state x) (set_state x).

(** [<state>.locked] *)
Definition locked_ref (x : Side) : Ref t LockedTransfers.t :=
  attr_ref (state_ref x) ChannelEndState.locked_ref.

Definition external_ref : Ref t ChannelExternalState.t :=
  mkRef external_state set_external_state.

(** The properties. *)

Definition isopen (self : t) : bool :=
  ChannelExternalState.isopen (external_state self).

Definition contract_balance (self : t) : exn + ChannelEndState.attr :=
  ChannelEndState.getattr "contract_balance" (our_state self).

Definition transfered_amount (self : t) : exn + ChannelEndState.attr :=
  ChannelEndState.getattr "transfer_amount" (our_state self).

Definition balance (self : t) : Z :=
  ChannelEndState.balance (our_state self) (partner_state self).

(** [handle_callbacks(transfer)] calls and deletes the callbacks filed for
    the transfer object it is given.  Which entries those are is a matter
    of object identity, so the list of the entries that remain is an
    argument here; nothing else of the channel changes. *)
Definition handle_callbacks (remaining : list (Msg.Transfer * callback))
    : M t unit :=
  modify (set_transfer_callbacks remaining).

(** [get_state_for]; the message of the exception ends with the address
    in hexadecimal, which is left out. *)
Definition get_state_for (node_address_bin : bytes) : M t Side :=
  let! self := get in
  if bool_decide (ChannelEndState.address (our_state self) = node_address_bin)
  then ret Our
  else if bool_decide
            (ChannelEndState.address (partner_state self) = node_address_bin)
  then ret Partner
  else raise (Exception "Unknow address").

Section WithImports.
Context `{Imports}.

Definition distributable (self : t) : Z :=
  ChannelEndState.distributable (our_state self) (partner_state self).

Definition locked (self : t) : Z :=
  LockedTransfers.outstanding (ChannelEndState.locked (partner_state self)).

Definition outstanding (self : t) : Z :=
  LockedTransfers.outstanding (ChannelEndState.locked (our_state self)).

Definition claim_locked (secret : bytes) (locksroot : option bytes)
    : M t unit :=
  let hashlock := sha3 secret in
  let! self := get in
  (* receiving a secret (releasing our funds) *)
  if LockedTransfers.contains hashlock
       (ChannelEndState.locked (our_state self))
  then ChannelEndState.claim_locked (state_ref Our) (state_ref Partner)
         secret locksroot
  (* sending a secret (updating the mirror) *)
  else if LockedTransfers.contains hashlock
            (ChannelEndState.locked (partner_state self))
  then ChannelEndState.claim_locked (state_ref Partner) (state_ref Our)
         secret locksroot
  else raise (ValueError "The secret doesnt unlock any hashlock").

(** The checks a [LockedTransfer] goes through on top of the common
    ones.  The logging calls matter in one way only: the mismatch report
    evaluates [to_state.locked.root], which fills the root cache. *)
Definition check_locked (transfer : Msg.LockedTransfer)
    (to_state : Side) (amount distributable : Z) : M t unit :=
  let lock := Msg.lock transfer in
  let! block_number :=
    zoom external_ref ChannelExternalState.get_block_number in
  raise_if (amount + lock_amount lock >? distributable)
    InsufficientBalance ;;
  let! expected_locksroot :=
    zoom (locked_ref to_state) (LockedTransfers.root_with (Some lock) None) in
  (if bool_decide
        (expected_locksroot ≠ Msg.locksroot (Msg.locked_header transfer))
   then zoom (locked_ref to_state) LockedTransfers.root ;;
        raise InvalidLocksRoot
   else ret tt) ;;
  let! self := get in
  raise_if (negb (lock_expiration lock - block_number <? settle_timeout self))
    (ValueError "Transfer expiration doesn't allow for corret settlement.") ;;
  raise_if (negb (lock_expiration lock - block_number >? reveal_timeout self))
    (ValueError "Expiration smaller than the minimum requried.").

(** The checks every transfer goes through; they hand the transfered
    [amount] and the sender's [distributable] on to the later ones. *)
Definition check_common (transfer : Msg.Transfer)
    (from_state to_state : Side) : M t (Z * Z) :=
  let hd := Msg.header transfer in
  let! self := get in
  raise_if (bool_decide (Msg.asset hd ≠ asset_address self))
    (ValueError "Asset address mismatch") ;;
  raise_if (bool_decide
              (Msg.recipient hd
               ≠ ChannelEndState.address (state to_state self)))
    (ValueError "Unknow recipient") ;;
  raise_if (bool_decide
              (Msg.sender hd
               ≠ ChannelEndState.address (state from_state self)))
    (ValueError "Unsigned transfer") ;;
  raise_if (Msg.transfered_amount hd
              <? ChannelEndState.transfered_amount (state from_state self))
    (ValueError "Negative transfer") ;;
  raise_if ((Msg.nonce hd <? 1)
            || bool_decide
                 (Msg.nonce hd
                  ≠ ChannelEndState.nonce (state from_state self)))
    InvalidNonce ;;
  let amount := Msg.transfered_amount hd
                - ChannelEndState.transfered_amount (state from_state self) in
  let distributable :=
    ChannelEndState.distributable (state from_state self)
                                  (state to_state self) in
  raise_if (amount >? distributable) InsufficientBalance ;;
  ret (amount, distributable).

(** The state change, after all checks. *)
Definition apply_transfer (transfer : Msg.Transfer)
    (from_state to_state : Side) : M t unit :=
  let hd := Msg.header transfer in
  match transfer with
  | Msg.Locked l =>
      zoom (locked_ref to_state) (LockedTransfers.add l) ;;
      (* register this channel as waiting for the secret *)
      zoom external_ref
        (ChannelExternalState.register_channel_for_hashlock
           (lock_hashlock (Msg.lock l)))
  | Msg.Direct _ => ret tt
  end ;;
  match transfer with
  | Msg.Direct d =>
      match Msg.secret d with
      | Some secret =>
          when (truthy secret)
            (ChannelEndState.claim_locked
               (state_ref to_state) (state_ref from_state)
               secret (Some (Msg.locksroot hd)))
      | None => ret tt
      end
  | Msg.Locked _ => ret tt
  end ;;
  zoom (state_ref from_state)
    (modify (ChannelEndState.set_transfered_amount
               (Msg.transfered_amount hd))) ;;
  zoom (state_ref from_state)
    (modify
       (λ s, ChannelEndState.set_nonce (ChannelEndState.nonce s + 1) s)) ;;
  (* the closing log line evaluates [to_state.locked.root] *)
  zoom (locked_ref to_state) LockedTransfers.root ;;
  ret tt.

Definition register_transfer_from_to (transfer : Msg.Transfer)
    (from_state to_state : Side) : M t unit :=
  let! ad := check_common transfer from_state to_state in
  match transfer with
  | Msg.Locked l => check_locked l to_state (fst ad) (snd ad)
  | Msg.Direct _ => ret tt
  end ;;
  (* all checks need to be done before the internal state of the channel
     is changed *)
  apply_transfer transfer from_state to_state.

Definition register_transfer (transfer : Msg.Transfer)
    (callback : option callback) : M t unit :=
  let! self := get in
  if bool_decide (Msg.recipient (Msg.header transfer)
                  = ChannelEndState.address (partner_state self))
  then
    register_transfer_from_to transfer Our Partner ;;
    modify (λ c, set_sent_transfers (sent_transfers c ++ [transfer]) c) ;;
    match callback with
    | Some cb =>
        modify (λ c, set_transfer_callbacks
                       (transfer_callbacks c ++ [(transfer, cb)]) c)
    | None => ret tt
    end
  else if bool_decide (Msg.recipient (Msg.header transfer)
                       = ChannelEndState.address (our_state self))
  then
    register_transfer_from_to transfer Partner Our ;;
    modify (λ c, set_received_transfers (received_transfers c ++ [transfer]) c)
  else raise (ValueError "Invalid address").

Definition create_directtransfer (amount : Z) (secret : option bytes)
    : M t Msg.DirectTransfer :=
  let! self := get in
  raise_if (negb (isopen self)) (ValueError "The channel is closed") ;;
  let from_ := our_state self in
  let to_ := partner_state self in
  let distributable := ChannelEndState.distributable from_ to_ in
  raise_if ((amount <=? 0) || (amount >? distributable))
    (ValueError "Insufficient funds") ;;
  (* start of critical read section *)
  let transfered_amount := ChannelEndState.transfered_amount from_ + amount in
  let! current_locksroot := zoom (locked_ref Partner) LockedTransfers.root in
  (* end of critical read section *)
  ret (Msg.mkDirect
         (Msg.mkHeader (ChannelEndState.nonce from_) (asset_address self)
            transfered_amount (ChannelEndState.address to_)
            current_locksroot "")
         secret).

Definition create_lockedtransfer (amount expiration : Z) (hashlock : bytes)
    : M t Msg.LockedTransfer :=
  let! self := get in
  raise_if (negb (isopen self)) (ValueError "The channel is closed") ;;
  let! block_number :=
    zoom external_ref ChannelExternalState.get_block_number in
  (* expiration is not sufficient for guarantee settling *)
  raise_if (expiration - block_number >=? settle_timeout self)
    (ValueError "Invalid expiration") ;;
  raise_if (expiration - reveal_timeout self <? block_number)
    (ValueError "Invalid expiration") ;;
  let from_ := our_state self in
  let to_ := partner_state self in
  let distributable := ChannelEndState.distributable from_ to_ in
  raise_if ((amount <=? 0) || (amount >? distributable))
    (ValueError "Insufficient funds") ;;
  let lock := mkLock amount expiration hashlock in
  (* start of critical read section *)
  let transfered_amount := ChannelEndState.transfered_amount from_ in
  let! updated_locksroot :=
    zoom (locked_ref Partner) (LockedTransfers.root_with (Some lock) None) in
  (* end of critical read section *)
  ret (Msg.mkLocked
         (Msg.mkHeader (ChannelEndState.nonce from_) (asset_address self)
            transfered_amount (ChannelEndState.address to_)
            updated_locksroot "")
         lock).

(** [create_mediatedtransfer]: the locked transfer with routing fields
    added by [to_mediatedtransfer]; the channel reads none of them. *)
Definition create_mediatedtransfer (amount expiration : Z)
    (hashlock : bytes) : M t Msg.LockedTransfer :=
  create_lockedtransfer amount expiration hashlock.

Definition create_refundtransfer_for (transfer : Msg.LockedTransfer)
    : M t Msg.LockedTransfer :=
  let lock := Msg.lock transfer in
  let! self := get in
  raise_if (negb (LockedTransfers.contains (lock_hashlock lock)
                    (ChannelEndState.locked (our_state self))))
    (ValueError "Unknow hashlock") ;;
  create_lockedtransfer (lock_amount lock) (lock_expiration lock)
    (lock_hashlock lock).

(** [create_timeouttransfer_for]: the hashlock the [TransferTimeout]
    is built from. *)
Definition create_timeouttransfer_for (transfer : Msg.LockedTransfer)
    : M t bytes :=
  let lock := Msg.lock transfer in
  let! self := get in
  raise_if (negb (LockedTransfers.contains (lock_hashlock lock)
                    (ChannelEndState.locked (our_state self))))
    (ValueError "Unknow hashlock") ;;
  ret (lock_hashlock lock).

End WithImports.

End Channel.

(** ** A concrete instance of the imported functions

    Used to run the model on concrete channels. *)

Module Sample.

Import stdpp.pretty.

(** Modelled from the spec: [raiden.utils.sha3], the hash [H] of the spec,
    is not part of the sources.  A tagging function stands in for it: its
    digests are non-empty and it has no collisions at all. *)
Definition sha3 (b : bytes) : bytes := "#" +:+ b.

(** Modelled from the spec: [raiden.messages.Lock.as_bytes] is not part of
    the sources; the spec gives amount, expiration and hashlock in this
    order.  The integers are written in decimal here, with a separator. *)
Definition as_bytes (l : Lock) : bytes :=
  pretty (lock_amount l) +:+ ":" +:+ pretty (lock_expiration l) +:+ ":"
  +:+ lock_hashlock l.

(** One level of the tree: neighbours are hashed in pairs, an odd last
    item moves up as it is. *)
Fixpoint pair_up (l : list bytes) : list bytes :=
  match l with
  | a :: b :: r => sha3 (a +:+ b) :: pair_up r
  | _ => l
  end.

(** Level after level until one item is left; a list of [n] items needs
    fewer than [n] levels. *)
Fixpoint levels (fuel : nat) (l : list bytes) : list bytes :=
  match fuel with
  | O => l
  | S n =>
      match l with
      | _ :: _ :: _ => levels n (pair_up l)
      | _ => l
      end
  end.

Definition zero_root : bytes :=
  Nat.iter 32 (String (Ascii.ascii_of_nat 0)) "".

(** Modelled from the spec: [raiden.mtree.merkleroot] is not part of the
    sources.  The spec makes it a binary hash tree over the ordered
    sequence of lock hashes, with an all-zero root for the empty
    sequence. *)
Definition merkleroot (l : list bytes) : bytes :=
  match levels (length l) l with
  | [] => zero_root
  | r :: _ => r
  end.

Definition sha3_truthy (b : bytes) : truthy (sha3 b) = true := eq_refl.

#[export] Instance imports : Imports :=
  Build_Imports sha3 merkleroot as_bytes sha3_truthy.

End Sample.


(** ** Histories of a channel *)

Module Trace.

Import Channel.

(** What the code around a channel can do to it: call a method of the
    channel, of one of its end states or of a lock container, or report
    from the chain (a new block, the channel being opened, closed or
    settled). *)
Inductive op :=
| RegisterTransfer (transfer : Msg.Transfer) (cb : option nat)
| RegisterTransferFromTo (transfer : Msg.Transfer) (from_state to_state : Side)
| ClaimLocked (secret : bytes) (locksroot : option bytes)
| EndClaimLocked (self partner : Side) (secret : bytes)
                 (locksroot : option bytes)
| UpdateContractBalance (x : Side) (contract_balance : Z)
| CreateDirectTransfer (amount : Z) (secret : option bytes)
| CreateLockedTransfer (amount expiration : Z) (hashlock : bytes)
| CreateMediatedTransfer (amount expiration : Z) (hashlock : bytes)
| CreateRefundTransferFor (transfer : Msg.LockedTransfer)
| CreateTimeoutTransferFor (transfer : Msg.LockedTransfer)
| HandleCallbacks (remaining : list (Msg.Transfer * nat))
| GetStateFor (node_address_bin : bytes)
| LocksAdd (x : Side) (transfer : Msg.LockedTransfer)
| LocksRemove (x : Side) (hashlock : bytes)
| LocksRoot (x : Side)
| LocksRootWith (x : Side) (lock exclude : option Lock)
| Chain (external_state : ChannelExternalState.t).

(** The state after a call and the exception it raised, if any. *)
Definition exec {A} (m : M t A) (c : t) : t * option exn :=
  match m c with
  | (c', inl e) => (c', Some e)
  | (c', inr _) => (c', None)
  end.

Section WithImports.
Context `{Imports}.

Definition run (o : op) (c : t) : t * option exn :=
  match o with
  | RegisterTransfer transfer cb => exec (register_transfer transfer cb) c
  | RegisterTransferFromTo transfer from_state to_state =>
      exec (register_transfer_from_to transfer from_state to_state) c
  | ClaimLocked secret locksroot => exec (claim_locked secret locksroot) c
  | EndClaimLocked self partner secret locksroot =>
      exec (ChannelEndState.claim_locked (state_ref self)
              (state_ref partner) secret locksroot) c
  | UpdateContractBalance x v =>
      exec (zoom (state_ref x) (ChannelEndState.update_contract_balance v)) c
  | CreateDirectTransfer amount secret =>
      exec (create_directtransfer amount secret) c
  | CreateLockedTransfer amount expiration hashlock =>
      exec (create_lockedtransfer amount expiration hashlock) c
  | CreateMediatedTransfer amount expiration hashlock =>
      exec (create_mediatedtransfer amount expiration hashlock) c
  | CreateRefundTransferFor transfer =>
      exec (create_refundtransfer_for transfer) c
  | CreateTimeoutTransferFor transfer =>
      exec (create_timeouttransfer_for transfer) c
  | HandleCallbacks remaining => exec (handle_callbacks remaining) c
  | GetStateFor node_address_bin => exec (get_state_for node_address_bin) c
  | LocksAdd x transfer =>
      exec (zoom (locked_ref x) (LockedTransfers.add transfer)) c
  | LocksRemove x hashlock =>
      exec (zoom (locked_ref x) (LockedTransfers.remove hashlock)) c
  | LocksRoot x => exec (zoom (locked_ref x) LockedTransfers.root) c
  | LocksRootWith x lock exclude =>
      exec (zoom (locked_ref x) (LockedTransfers.root_with lock exclude)) c
  | Chain e => (set_external_state e c, None)
  end.

(** The call of [register_transfer_from_to] an operation makes, if it
    makes one. *)
Definition registration (o : op) (c : t)
    : option (Msg.Transfer * Side * Side) :=
  match o with
  | RegisterTransferFromTo transfer from_state to_state =>
      Some (transfer, from_state, to_state)
  | RegisterTransfer transfer _ =>
      if bool_decide (Msg.recipient (Msg.header transfer)
                      = ChannelEndState.address (partner_state c))
      then Some (transfer, Our, Partner)
      else if bool_decide (Msg.recipient (Msg.header transfer)
                           = ChannelEndState.address (our_state c))
      then Some (transfer, Partner, Our)
      else None
  | _ => None
  end.

(** A channel as [Channel(...)] builds it from two fresh end states,
    and every state that operations lead to from there. *)
Inductive reachable : t → Prop :=
| reachable_init our_address our_balance partner_address partner_balance
    external asset_address reveal_timeout settle_timeout :
    reachable
      (Channel.init (ChannelEndState.init our_address our_balance)
         (ChannelEndState.init partner_address partner_balance)
         external asset_address reveal_timeout settle_timeout)
| reachable_step c o :
    reachable c → reachable (run o c).1.

(** The states a list of operations goes through. *)
Fixpoint run_all (os : list op) (c : t) : t :=
  match os with
  | [] => c
  | o :: os' => run_all os' (run o c).1
  end.

End WithImports.

End Trace.

(** ** Well-formed lock containers *)

Section Wf.
Context `{Imports}.

(** What [add] and [remove] maintain: every transfer is filed under the
    hashlock of its lock, and the hash list holds the hashes of the locks
    of the transfers in the mapping, each as often as it occurs there. *)
Definition wf (s : LockedTransfers.t) : Prop :=
  (∀ h tr, LockedTransfers.locked s !! h = Some tr →
           lock_hashlock (Msg.lock tr) = h)
  ∧ LockedTransfers.cached_lock_hashes s
    ≡ₚ (λ kv, lock_hash (Msg.lock kv.2))
         <$> map_to_list (LockedTransfers.locked s).

(** No lock held in [s] has the same hash as the different lock [l]. *)
Definition no_collision (s : LockedTransfers.t) (l : Lock) : Prop :=
  ∀ h tr, LockedTransfers.locked s !! h = Some tr →
          lock_hash (Msg.lock tr) = lock_hash l → Msg.lock tr = l.

(** The six checks of every transfer, as the specification numbers them. *)
Definition passes_common (c : Channel.t) (hd : Msg.Header)
    (from_state to_state : Channel.Side) : Prop :=
  Msg.asset hd = Channel.asset_address c
  ∧ Msg.recipient hd = ChannelEndState.address (Channel.state to_state c)
  ∧ Msg.sender hd = ChannelEndState.address (Channel.state from_state c)
  ∧ ChannelEndState.transfered_amount (Channel.state from_state c)
    ≤ Msg.transfered_amount hd
  ∧ 1 ≤ Msg.nonce hd
  ∧ Msg.nonce hd = ChannelEndState.nonce (Channel.state from_state c)
  ∧ Msg.transfered_amount hd
    - ChannelEndState.transfered_amount (Channel.state from_state c)
    ≤ ChannelEndState.distributable (Channel.state from_state c)
        (Channel.state to_state c).

End Wf.

(** ** Observations of a channel *)

(** An observation [f] of the state that a computation never changes,
    whether it returns or raises. *)
Definition keeps {S A B} (f : S → B) (m : M S A) : Prop :=
  ∀ s, f (m s).1 = f s.

(** The two nonces of a channel, ours first. *)
Definition nonces (c : Channel.t) : Z * Z :=
  (ChannelEndState.nonce (Channel.our_state c),
   ChannelEndState.nonce (Channel.partner_state c)).

(** The nonces once the one of [x] has gone up by one. *)
Definition bump (x : Channel.Side) (n : Z * Z) : Z * Z :=
  match x with
  | Channel.Our => (n.1 + 1, n.2)
  | Channel.Partner => (n.1, n.2 + 1)
  end.

(** What a call may do to the nonces: leave them when it raises, bump the
    one of [x] when it returns. *)
Definition bumps {A} (x : Channel.Side) (before : Z * Z)
    (r : Channel.t * (exn + A)) : Prop :=
  nonces r.1 = match r.2 with
               | inr _ => bump x before
               | inl _ => before
               end.

(** What an end state stands for in the accounts of the channel:
    everything but the order of the lock hashes and the cached root. *)
Definition accounts (s : ChannelEndState.t)
    : Z * Z * bytes * Z * gmap string Msg.LockedTransfer :=
  (ChannelEndState.contract_balance s, ChannelEndState.transfered_amount s,
   ChannelEndState.address s, ChannelEndState.nonce s,
   LockedTransfers.locked (ChannelEndState.locked s)).

(** The hash list of the lock container of one end. *)
Definition hashes (x : Channel.Side) (c : Channel.t) : list bytes :=
  LockedTransfers.cached_lock_hashes
    (ChannelEndState.locked (Channel.state x c)).

(** [c'] is [c] up to the order of the lock hashes and the root caches. *)
Definition same_accounts (c c' : Channel.t) : Prop :=
  accounts (Channel.our_state c') = accounts (Channel.our_state c)
  ∧ accounts (Channel.partner_state c') = accounts (Channel.partner_state c)
  ∧ Channel.asset_address c' = Channel.asset_address c
  ∧ Channel.reveal_timeout c' = Channel.reveal_timeout c
  ∧ Channel.settle_timeout c' = Channel.settle_timeout c
  ∧ Channel.external_state c' = Channel.external_state c
  ∧ Channel.received_transfers c' = Channel.received_transfers c
  ∧ Channel.sent_transfers c' = Channel.sent_transfers c
  ∧ Channel.transfer_callbacks c' = Channel.transfer_callbacks c
  ∧ ∀ x, hashes x c' ≡ₚ hashes x c.

(** A computation on a lock container that leaves the mapping alone and
    at most reorders the hash list. *)
Definition shuffles {A} (m : M LockedTransfers.t A) : Prop :=
  ∀ s, LockedTransfers.locked (m s).1 = LockedTransfers.locked s
       ∧ LockedTransfers.cached_lock_hashes (m s).1
         ≡ₚ LockedTransfers.cached_lock_hashes s.

(** An invariant of the state that a computation maintains, whether it
    returns or raises. *)
Definition preserves {S A} (inv : S → Prop) (m : M S A) : Prop :=
  ∀ s, inv s → inv (m s).1.

(** Both lock containers of the channel are well-formed. *)
Definition all_wf `{Imports} (c : Channel.t) : Prop :=
  ∀ x, wf (ChannelEndState.locked (Channel.state x c)).

(** The one use of a lock container that the channel never makes:
    [root_with] called from outside with both a lock to include and a lock
    to exclude. *)
Definition root_with_both (o : Trace.op) : bool :=
  match o with
  | Trace.LocksRootWith _ (Some _) (Some _) => true
  | _ => false
  end.

(** A computation on a channel that at most reorders lock hashes and fills
    root caches, whether it returns or raises. *)
Definition steady {A} (m : M Channel.t A) : Prop :=
  ∀ c, same_accounts c (m c).1.

(** The further checks of a locked transfer: the balance covers the lock
    as well, the lock expires within the settle timeout and beyond the
    reveal timeout, and the locksroot is the root of the recipient's hashes
    followed by the hash of the lock. *)
Definition passes_locked `{Imports} (c : Channel.t) (l : Msg.LockedTransfer)
    (from_state to_state : Channel.Side) : Prop :=
  Msg.transfered_amount (Msg.locked_header l)
  - ChannelEndState.transfered_amount (Channel.state from_state c)
  + lock_amount (Msg.lock l)
  ≤ ChannelEndState.distributable (Channel.state from_state c)
      (Channel.state to_state c)
  ∧ lock_expiration (Msg.lock l)
    - ChannelExternalState.block_number (Channel.external_state c)
    < Channel.settle_timeout c
  ∧ Channel.reveal_timeout c
    < lock_expiration (Msg.lock l)
      - ChannelExternalState.block_number (Channel.external_state c)
  ∧ merkleroot (hashes to_state c ++ [lock_hash (Msg.lock l)])
    = Msg.locksroot (Msg.locked_header l).

(** The channel once the sender of an accepted transfer has been brought
    up to date: its transfered amount is the one of the message and its
    nonce is one higher. *)
Definition registered_sender (from_state : Channel.Side)
    (transfered_amount : Z) (c : Channel.t) : Channel.t :=
  Channel.set_state from_state
    (ChannelEndState.set_nonce
       (ChannelEndState.nonce (Channel.state from_state c) + 1)
       (ChannelEndState.set_transfered_amount transfered_amount
          (Channel.state from_state c)))
    c.

(** The channel once [locked.root] of one end has been read. *)
Definition with_root_read `{Imports} (x : Channel.Side) (c : Channel.t)
    : Channel.t :=
  wr (Channel.locked_ref x)
    (LockedTransfers.root (ChannelEndState.locked (Channel.state x c))).1 c.

(** The channel once a locked transfer has been filed with one end and its
    hashlock handed to the chain watcher. *)
Definition with_lock_filed `{Imports} (x : Channel.Side)
    (l : Msg.LockedTransfer) (c : Channel.t) : Channel.t :=
  wr Channel.external_ref
    (ChannelExternalState.register_channel_for_hashlock
       (lock_hashlock (Msg.lock l)) (Channel.external_state c)).1
    (wr (Channel.locked_ref x)
       (LockedTransfers.add l
          (ChannelEndState.locked (Channel.state x c))).1 c).

(** What [locked.root] returns: the cached root if there is one, the root
    of the hash list otherwise. *)
Definition root_value `{Imports} (s : LockedTransfers.t) : bytes :=
  default (merkleroot (LockedTransfers.cached_lock_hashes s))
    (LockedTransfers.cached_root s).

(** The direct transfer [create_directtransfer] builds on [c]. *)
Definition built_direct `{Imports} (c : Channel.t) (amount : Z)
    (secret : option bytes) : Msg.DirectTransfer :=
  Msg.mkDirect
    (Msg.mkHeader (ChannelEndState.nonce (Channel.our_state c))
       (Channel.asset_address c)
       (ChannelEndState.transfered_amount (Channel.our_state c) + amount)
       (ChannelEndState.address (Channel.partner_state c))
       (root_value (ChannelEndState.locked (Channel.partner_state c)))
       "")
    secret.

(** The locked transfer [create_lockedtransfer] builds on [c]. *)
Definition built_locked `{Imports} (c : Channel.t)
    (amount expiration : Z) (hashlock : bytes) : Msg.LockedTransfer :=
  Msg.mkLocked
    (Msg.mkHeader (ChannelEndState.nonce (Channel.our_state c))
       (Channel.asset_address c)
       (ChannelEndState.transfered_amount (Channel.our_state c))
       (ChannelEndState.address (Channel.partner_state c))
       (merkleroot
          (hashes Channel.Partner c
           ++ [lock_hash (mkLock amount expiration hashlock)]))
       "")
    (mkLock amount expiration hashlock).

(** The other end of the channel. *)
Definition other (x : Channel.Side) : Channel.Side :=
  match x with
  | Channel.Our => Channel.Partner
  | Channel.Partner => Channel.Our
  end.

(** The two lists of registered transfers, and the callbacks. *)
Definition journal (c : Channel.t)
    : list Msg.Transfer * list Msg.Transfer * list (Msg.Transfer * nat) :=
  (Channel.sent_transfers c, Channel.received_transfers c,
   Channel.transfer_callbacks c).

(** A computation that leaves the accounts of both ends and the journal
    as they are, whether it returns or raises. *)
Definition reads_only {A} (m : M Channel.t A) : Prop :=
  ∀ c, same_accounts c (m c).1 ∧ journal (m c).1 = journal c.

(** Operations other than a call of [register_transfer_from_to] from
    outside the channel. *)
Definition through_register_transfer (o : Trace.op) : bool :=
  match o with
  | Trace.RegisterTransferFromTo _ _ _ => false
  | _ => true
  end.

(** Each nonce is one more than the number of transfers journalled for
    its end: ours counts the sent transfers, the partner's the received
    ones. *)
Definition nonces_count_journal (c : Channel.t) : Prop :=
  ChannelEndState.nonce (Channel.our_state c)
  = 1 + Z.of_nat (length (Channel.sent_transfers c))
  ∧ ChannelEndState.nonce (Channel.partner_state c)
    = 1 + Z.of_nat (length (Channel.received_transfers c)).

(** What a channel is set up with: the addresses of the two parties, the
    asset, the two timeouts and the two deposits. *)
Definition setup (c : Channel.t) : bytes * bytes * bytes * Z * Z * (Z * Z) :=
  (ChannelEndState.address (Channel.our_state c),
   ChannelEndState.address (Channel.partner_state c),
   Channel.asset_address c, Channel.reveal_timeout c,
   Channel.settle_timeout c,
   (ChannelEndState.contract_balance (Channel.our_state c),
    ChannelEndState.contract_balance (Channel.partner_state c))).

(** Operations other than [update_contract_balance]. *)
Definition keeps_deposits (o : Trace.op) : bool :=
  match o with
  | Trace.UpdateContractBalance _ _ => false
  | _ => true
  end.

(** The channel the other party keeps for the same pair: the two ends
    change places, and what one sent the other received. *)
Definition mirror (c : Channel.t) : Channel.t :=
  Channel.mk (Channel.partner_state c) (Channel.our_state c)
    (Channel.asset_address c) (Channel.reveal_timeout c)
    (Channel.settle_timeout c) (Channel.external_state c)
    (Channel.sent_transfers c) (Channel.received_transfers c)
    (Channel.transfer_callbacks c).

(** The channel with other lifecycle blocks reported by the chain. *)
Definition at_lifecycle (opened closed settled : Z) (c : Channel.t)
    : Channel.t :=
  Channel.set_external_state
    (ChannelExternalState.mk
       (ChannelExternalState.block_number (Channel.external_state c))
       opened closed settled
       (ChannelExternalState.registered (Channel.external_state c)))
    c.

(** [m'] does to [f c] what [m] does to [c], and ends the same way: it
    returns the same value or raises the same exception, and leaves [f] of
    the channel [m] leaves. *)
Definition carried {A} (f : Channel.t → Channel.t) (c : Channel.t)
    (m m' : M Channel.t A) : Prop :=
  m' (f c) = (f (m c).1, (m c).2).

(** ** Concrete channels *)

Module Scenario.

Import Sample Channel Trace.

(** An open channel between [A] (us) and [B], 100 deposited on each side,
    at block 10, with [reveal_timeout = 3] and [settle_timeout = 20]. *)
Definition fresh : Channel.t :=
  Channel.init (ChannelEndState.init "A" 100) (ChannelEndState.init "B" 100)
    (ChannelExternalState.mk 10 1 0 0 []) "asset" 3 20.

Definition lock1 : Lock := mkLock 10 20 (sha3 "s1").
Definition lock2 : Lock := mkLock 5 21 (sha3 "s2").
Definition lock3 : Lock := mkLock 7 22 (sha3 "s3").

(** The locked transfers [A] builds for [lock1] and then for [lock2]. *)
Definition locked1 : Msg.LockedTransfer :=
  Msg.mkLocked
    (Msg.mkHeader 1 "asset" 0 "B" (merkleroot [lock_hash lock1]) "A") lock1.
Definition locked2 : Msg.LockedTransfer :=
  Msg.mkLocked
    (Msg.mkHeader 2 "asset" 0 "B"
       (merkleroot [lock_hash lock1; lock_hash lock2]) "A") lock2.

(** [A]'s channel after it registered the first, and both. *)
Definition one_lock : Channel.t :=
  run_all [RegisterTransfer (Msg.Locked locked1) None] fresh.
Definition two_locks : Channel.t :=
  run_all [RegisterTransfer (Msg.Locked locked1) None;
           RegisterTransfer (Msg.Locked locked2) None] fresh.

(** A direct transfer that reveals the secret of [lock1] and commits to a
    locksroot that is not the one of the remaining locks. *)
Definition bad_claim : Msg.Transfer :=
  Msg.Direct
    (Msg.mkDirect (Msg.mkHeader 3 "asset" 0 "B" "bogus" "A") (Some "s1")).

(** A locked transfer whose lock expires 90 blocks from now, beyond the
    settle timeout, and whose locksroot is wrong as well. *)
Definition late_lock : Lock := mkLock 10 100 (sha3 "s1").
Definition late_and_unrooted : Msg.Transfer :=
  Msg.Locked
    (Msg.mkLocked (Msg.mkHeader 1 "asset" 0 "B" "bogus" "A") late_lock).

(** A lock that expires exactly [reveal_timeout] blocks from now. *)
Definition edge_lock : Lock := mkLock 10 13 (sha3 "s1").

(** Transfers that break one of the first four rules each. *)
Definition wrong_asset : Msg.Transfer :=
  Msg.Direct (Msg.mkDirect (Msg.mkHeader 1 "other" 5 "B" zero_root "A") None).
Definition wrong_recipient : Msg.Transfer :=
  Msg.Direct (Msg.mkDirect (Msg.mkHeader 1 "asset" 5 "C" zero_root "A") None).
Definition unsigned : Msg.Transfer :=
  Msg.Direct (Msg.mkDirect (Msg.mkHeader 1 "asset" 5 "B" zero_root "") None).
Definition negative : Msg.Transfer :=
  Msg.Direct
    (Msg.mkDirect (Msg.mkHeader 1 "asset" (-5) "B" zero_root "A") None).

(** A lock container that holds [locked1] and nothing else. *)
Definition one_filed : LockedTransfers.t :=
  LockedTransfers.mk {[ lock_hashlock lock1 := locked1 ]}
    [lock_hash lock1] None.

(** A lock that is in none of the containers above. *)
Definition stray_lock : Lock := mkLock 1 15 (sha3 "s9").

(** A locked transfer that carries [lock3]. *)
Definition locked3 : Msg.LockedTransfer :=
  Msg.mkLocked
    (Msg.mkHeader 3 "asset" 0 "B"
       (merkleroot [lock_hash lock1; lock_hash lock2; lock_hash lock3]) "A")
    lock3.

(** The container that holds [locked1], after [root_with(lock3, stray_lock)]
    has raised on it and [locked2] has been added: [lock3] is not filed,
    its hash is in the hash list. *)
Definition stale : LockedTransfers.t :=
  (LockedTransfers.add locked2
     (LockedTransfers.root_with (Some lock3) (Some stray_lock)
        one_filed).1).1.

(** A direct transfer of 5 from [A] to [B] on the fresh channel. *)
Definition pay5 : Msg.DirectTransfer :=
  Msg.mkDirect (Msg.mkHeader 1 "asset" 5 "B" zero_root "A") None.

(** A direct transfer that reveals the secret of [lock1] once both locks
    are registered, and commits to the root of the lock that remains. *)
Definition good_claim : Msg.DirectTransfer :=
  Msg.mkDirect
    (Msg.mkHeader 3 "asset" 0 "B" (merkleroot [lock_hash lock2]) "A")
    (Some "s1").

(** The same channel once the chain reports it closed at block 12. *)
Definition closed : Channel.t :=
  (run (Chain (ChannelExternalState.mk 12 1 12 0 [])) fresh).1.

End Scenario.

(** * Properties *)

(** ** The state-and-exception computations *)

Section Computations.
Context {S : Type}.

Lemma bind_returns {A B} (m : M S A) (k : A → M S B) s s1 a :
  m s = (s1, inr a) → bind m k s = k a s1.
Proof. intros Hm. unfold bind. by rewrite Hm. Qed.

Lemma bind_raises {A B} (m : M S A) (k : A → M S B) s s1 e :
  m s = (s1, inl e) → bind m k s = (s1, inl e).
Proof. intros Hm. unfold bind. by rewrite Hm. Qed.

Lemma bind_returned {A B} (m : M S A) (k : A → M S B) s s' b :
  bind m k s = (s', inr b) →
  ∃ s1 a, m s = (s1, inr a) ∧ k a s1 = (s', inr b).
Proof.
  unfold bind. destruct (m s) as [s1 [e|a]]; [done|]. intros Hk. eauto.
Qed.

Lemma bind_ret {A B} (a : A) (k : A → M S B) s : bind (ret a) k s = k a s.
Proof. done. Qed.

Lemma bind_get {B} (k : S → M S B) s : bind get k s = k s s.
Proof. done. Qed.

Lemma bind_raise_if_passes {B} (c : bool) e (k : unit → M S B) s :
  c = false → bind (raise_if c e) k s = k tt s.
Proof. by intros ->. Qed.

Lemma bind_raise_if_raises {B} (c : bool) e (k : unit → M S B) s :
  c = true → bind (raise_if c e) k s = (s, inl e).
Proof. by intros ->. Qed.

Lemma raise_if_raises (c : bool) e (s : S) :
  c = true → raise_if c e s = (s, inl e).
Proof. by intros ->. Qed.

Lemma keeps_ret {A B} (f : S → B) (a : A) : keeps f (ret a).
Proof. done. Qed.

Lemma keeps_raise {A B} (f : S → B) e : keeps f (raise (A := A) e).
Proof. done. Qed.

Lemma keeps_get {B} (f : S → B) : keeps f get.
Proof. done. Qed.

Lemma keeps_raise_if {B} (f : S → B) c e : keeps f (raise_if c e).
Proof. by destruct c. Qed.

Lemma keeps_when {B} (f : S → B) c m : keeps f m → keeps f (when c m).
Proof. by destruct c. Qed.

Lemma keeps_bind {A A' B} (f : S → B) (m : M S A) (k : A → M S A') :
  keeps f m → (∀ a, keeps f (k a)) → keeps f (bind m k).
Proof.
  intros Hm Hk s. unfold bind. specialize (Hm s).
  destruct (m s) as [s1 [e|a]]; simpl in *; [done|].
  by rewrite Hk.
Qed.

End Computations.

(** Splits a [keeps] goal along the structure of the computation. *)
Ltac keeps_step :=
  cbv beta zeta;
  match goal with
  | |- keeps _ (bind _ _) => apply keeps_bind; [|intros ?]
  | |- keeps _ (ret _) => apply keeps_ret
  | |- keeps _ (raise _) => apply keeps_raise
  | |- keeps _ get => apply keeps_get
  | |- keeps _ (raise_if _ _) => apply keeps_raise_if
  | |- keeps _ (when _ _) => apply keeps_when
  | |- keeps _ (if ?b then _ else _) => destruct b
  | |- keeps _ (match ?x with _ => _ end) => destruct x
  end.

(** ** list.remove *)

Lemma list_remove_split x pre post :
  x ∉ pre → list_remove x (pre ++ x :: post) = Some (pre ++ post).
Proof.
  induction pre as [|y pre IH]; intros Hx; simpl.
  - by rewrite decide_True.
  - apply not_elem_of_cons in Hx as [Hne Hx].
    rewrite decide_False by done. by rewrite IH.
Qed.

Lemma list_remove_last x l : x ∉ l → list_remove x (l ++ [x]) = Some l.
Proof.
  intros Hx. rewrite list_remove_split by done. by rewrite app_nil_r.
Qed.

Lemma list_remove_perm x l l' : list_remove x l = Some l' → l ≡ₚ x :: l'.
Proof.
  revert l'. induction l as [|y l IH]; intros l'; simpl; [done|].
  destruct (decide (x = y)) as [->|Hne].
  - by intros [= ->].
  - destruct (list_remove x l) as [r|] eqn:Hr; [|done].
    intros [= <-]. rewrite (IH r eq_refl). apply Permutation_swap.
Qed.

Lemma list_remove_elem x l : x ∈ l → is_Some (list_remove x l).
Proof.
  induction l as [|y l IH]; simpl.
  - by intros ?%elem_of_nil.
  - intros Hx. destruct (decide (x = y)); [eauto|].
    apply elem_of_cons in Hx as [?|Hx]; [done|].
    destruct (IH Hx) as [r ->]. eauto.
Qed.

Lemma list_remove_absent x l : x ∉ l → list_remove x l = None.
Proof.
  induction l as [|y l IH]; simpl; [done|].
  intros [Hne Hx]%not_elem_of_cons.
  rewrite decide_False by done. by rewrite IH.
Qed.

(** ** LockedTransfers *)

Section LockedTransfersFacts.
Context `{Imports}.
Import LockedTransfers.

Lemma hashes_of_set_hashes hs s : cached_lock_hashes (set_hashes hs s) = hs.
Proof. done. Qed.

Lemma lock_hash_truthy l : truthy (lock_hash l) = true.
Proof. apply sha3_truthy. Qed.

(** [root_with(lock)] where the hash of [lock] is not in the list: the
    hash is appended, the root computed, the hash taken off again. *)
Lemma root_with_include_fresh s l :
  lock_hash l ∉ cached_lock_hashes s →
  root_with (Some l) None s
  = (s, inr (merkleroot (cached_lock_hashes s ++ [lock_hash l]))).
Proof.
  intros Hfresh. unfold root_with, bind, hashes_append, hashes_remove,
    modify, get, when, ret. simpl.
  rewrite lock_hash_truthy. simpl.
  rewrite ?hashes_of_set_hashes.
  rewrite bool_decide_eq_true_2
    by (apply elem_of_app; right; by apply list_elem_of_singleton).
  rewrite ?hashes_of_set_hashes, list_remove_last by done. simpl.
  by destruct s.
Qed.

(** [root_with(lock)] in general: it returns the root of the list with the
    hash appended and leaves a list in which the first occurrence of the
    hash, not the appended one, is gone. *)
Lemma root_with_include s l :
  ∃ hs, list_remove (lock_hash l) (cached_lock_hashes s ++ [lock_hash l])
        = Some hs
        ∧ root_with (Some l) None s
          = (set_hashes hs s,
             inr (merkleroot (cached_lock_hashes s ++ [lock_hash l]))).
Proof.
  assert (Hin : lock_hash l ∈ cached_lock_hashes s ++ [lock_hash l]).
  { apply elem_of_app; right. by apply list_elem_of_singleton. }
  destruct (list_remove_elem _ _ Hin) as [hs Hhs].
  exists hs. split; [done|].
  unfold root_with, bind, hashes_append, hashes_remove,
    modify, get, when, ret. simpl.
  rewrite lock_hash_truthy. simpl.
  rewrite ?hashes_of_set_hashes.
  rewrite bool_decide_eq_true_2 by done.
  by rewrite ?hashes_of_set_hashes, Hhs.
Qed.

(** [root_with(lock)] where the hash of [lock] is in the list already:
    the listed occurrence is the one that goes, and the hash stays at the
    end of the list. *)
Lemma root_with_include_listed s l pre post :
  cached_lock_hashes s = pre ++ lock_hash l :: post →
  lock_hash l ∉ pre →
  root_with (Some l) None s
  = (set_hashes (pre ++ post ++ [lock_hash l]) s,
     inr (merkleroot (cached_lock_hashes s ++ [lock_hash l]))).
Proof.
  intros Hs Hpre.
  destruct (root_with_include s l) as (hs & Hhs & ->).
  rewrite Hs, <- app_assoc in Hhs. simpl in Hhs.
  rewrite list_remove_split in Hhs by done.
  by injection Hhs as <-.
Qed.

(** [root_with(None, exclude)] where the hash of [exclude] is in the
    list: the root is the one without its first occurrence, and the hash
    comes back at the end of the list, not where it was. *)
Lemma root_with_exclude_split s x pre post :
  cached_lock_hashes s = pre ++ lock_hash x :: post →
  lock_hash x ∉ pre →
  root_with None (Some x) s
  = (set_hashes (pre ++ post ++ [lock_hash x]) s,
     inr (merkleroot (pre ++ post))).
Proof.
  intros Hs Hpre. unfold root_with, bind, hashes_append, hashes_remove,
    modify, get, when, ret. simpl.
  rewrite Hs, list_remove_split by done. simpl.
  rewrite ?hashes_of_set_hashes. by rewrite <- app_assoc.
Qed.

(** [root_with(None, exclude)] where the hash of [exclude] is not in the
    list: [list.remove] raises and nothing has changed. *)
Lemma root_with_exclude_absent s x :
  lock_hash x ∉ cached_lock_hashes s →
  root_with None (Some x) s = (s, inl list_remove_error).
Proof.
  intros Hx. unfold root_with, bind, hashes_append, hashes_remove,
    modify, get, when, ret. simpl.
  by rewrite list_remove_absent.
Qed.

(** ** The invariant of the container *)

Lemma wf_init : wf init.
Proof.
  split.
  - intros h tr. simpl. by rewrite lookup_empty.
  - simpl. by rewrite map_to_list_empty.
Qed.

Lemma wf_add s s' transfer :
  wf s → add transfer s = (s', inr tt) → wf s'.
Proof.
  intros [Hkeys Hperm]. unfold add, contains.
  case_bool_decide as Hin; [done|]. intros [= <-].
  assert (Hnone : locked s !! lock_hashlock (Msg.lock transfer) = None).
  { by apply eq_None_not_Some. }
  split; simpl.
  - intros h tr. rewrite lookup_insert. case_decide as Hd.
    + by intros [= <-].
    + apply Hkeys.
  - rewrite map_to_list_insert by done. rewrite fmap_cons. simpl.
    rewrite Hperm. by rewrite <- Permutation_cons_append.
Qed.

Lemma wf_remove s s' hashlock :
  wf s → remove hashlock s = (s', inr tt) → wf s'.
Proof.
  intros [Hkeys Hperm]. unfold remove, bind, getitem.
  destruct (locked s !! hashlock) as [tr|] eqn:Htr; [|done].
  destruct (list_remove _ _) as [hs|] eqn:Hhs; [|done].
  intros [= <-]. split; simpl.
  - intros h tr'. rewrite lookup_delete. case_decide; [done|]. apply Hkeys.
  - apply list_remove_perm in Hhs.
    rewrite Hperm in Hhs.
    rewrite <- (map_to_list_delete _ _ _ Htr) in Hhs.
    rewrite fmap_cons in Hhs. simpl in Hhs.
    by apply Permutation_cons_inv in Hhs.
Qed.

(** In a well-formed container a lock whose hashlock is not filed, and
    whose hash collides with none of the filed locks, has a hash that is
    not in the list. *)
Lemma fresh_lock_hash s l :
  wf s → locked s !! lock_hashlock l = None → no_collision s l →
  lock_hash l ∉ cached_lock_hashes s.
Proof.
  intros [Hkeys Hperm] Hnone Hcoll Hin.
  rewrite Hperm in Hin.
  apply list_elem_of_fmap in Hin as ([h tr] & Heq & Hel).
  apply elem_of_map_to_list in Hel. simpl in Heq.
  assert (Msg.lock tr = l) as Hl by (by eapply Hcoll).
  apply Hkeys in Hel as Hh. rewrite Hl in Hh. subst h. congruence.
Qed.

End LockedTransfersFacts.

(** ** root_with against add and root *)

Section RootWith.
Context `{Imports}.
Import LockedTransfers.

(** C3 where it holds.  For a lock container [s] and a locked transfer
    whose hashlock is not in [s]: [s.root_with(lock)] returns what [s.root]
    returns once the transfer has been added, and [root_with] leaves [s] as
    it was, mapping, hash list and cached root, provided the hash list of
    [s] holds the hashes of the filed locks and no others, and the hash of
    the new lock does not collide with the hash of a different lock held
    in [s]. *)
Theorem root_with_include_is_root_after_add
    (s : LockedTransfers.t) (transfer : Msg.LockedTransfer) :
  wf s →
  contains (lock_hashlock (Msg.lock transfer)) s = false →
  no_collision s (Msg.lock transfer) →
  ∃ r s',
    root_with (Some (Msg.lock transfer)) None s = (s, inr r)
    ∧ add transfer s = (s', inr tt)
    ∧ (root s').2 = inr r.
Proof.
  intros Hwf Hnot Hcoll.
  assert (Hnone : locked s !! lock_hashlock (Msg.lock transfer) = None).
  { unfold contains in Hnot. apply bool_decide_eq_false in Hnot.
    by apply eq_None_not_Some. }
  pose proof (fresh_lock_hash s _ Hwf Hnone Hcoll) as Hfresh.
  eexists _, _. split; [by apply root_with_include_fresh|].
  unfold add. rewrite Hnot. split; [reflexivity|].
  reflexivity.
Qed.

End RootWith.

(** The same at a container that holds one lock, and a transfer of
    another. *)
Lemma root_with_include_is_root_after_add_witness :
  ∃ r s',
    LockedTransfers.root_with (H := Sample.imports)
      (Some (Msg.lock Scenario.locked2)) None Scenario.one_filed
    = (Scenario.one_filed, inr r)
    ∧ LockedTransfers.add (H := Sample.imports) Scenario.locked2
        Scenario.one_filed = (s', inr tt)
    ∧ (LockedTransfers.root (H := Sample.imports) s').2 = inr r.
Proof.
  apply (root_with_include_is_root_after_add (H := Sample.imports)
           Scenario.one_filed Scenario.locked2).
  - split; unfold Scenario.one_filed; simpl.
    + intros h tr [<- <-]%lookup_singleton_Some. reflexivity.
    + by rewrite map_to_list_singleton.
  - vm_compute. reflexivity.
  - unfold no_collision, Scenario.one_filed. simpl.
    intros h tr [<- <-]%lookup_singleton_Some. vm_compute. discriminate.
Defined.

(** C3.  [root_with(lock)] does not leave every container as it found it.
    The container [stale] is reached through the methods of the class:
    from the container that holds [locked1], [root_with(lock3, stray_lock)]
    raises from [list.remove] with the hash of [lock3] appended, and
    [locked2] is added.  The hashlock of [lock3] is not filed there, yet
    [root_with(lock3)] returns and leaves the hash list as
    [lock1; lock2; lock3] where it found [lock1; lock3; lock2]: the
    occurrence that [list.remove] takes away is the first, not the
    appended one.  The mapping is left alone.  Once [locked3] is added, the
    root of the container is the root of [lock1; lock2; lock3; lock3], not
    the root of [lock1; lock3; lock2; lock3] that [root_with] returned. *)
Theorem root_with_include_reorders_a_listed_hash :
  let h1 := lock_hash (H := Sample.imports) Scenario.lock1 in
  let h2 := lock_hash (H := Sample.imports) Scenario.lock2 in
  let h3 := lock_hash (H := Sample.imports) Scenario.lock3 in
  let failed :=
    LockedTransfers.root_with (H := Sample.imports)
      (Some Scenario.lock3) (Some Scenario.stray_lock) Scenario.one_filed in
  let s := Scenario.stale in
  let called :=
    LockedTransfers.root_with (H := Sample.imports)
      (Some Scenario.lock3) None s in
  let added :=
    LockedTransfers.add (H := Sample.imports) Scenario.locked3 called.1 in
  failed.2 = inl list_remove_error
  ∧ LockedTransfers.add (H := Sample.imports) Scenario.locked2 failed.1
    = (s, inr tt)
  ∧ LockedTransfers.contains (lock_hashlock Scenario.lock3) s = false
  ∧ LockedTransfers.cached_lock_hashes s = [h1; h3; h2]
  ∧ called.2 = inr (Sample.merkleroot [h1; h3; h2; h3])
  ∧ LockedTransfers.cached_lock_hashes called.1 = [h1; h2; h3]
  ∧ called.1 ≠ s
  ∧ LockedTransfers.locked called.1 = LockedTransfers.locked s
  ∧ added.2 = inr tt
  ∧ (LockedTransfers.root (H := Sample.imports) added.1).2
    = inr (Sample.merkleroot [h1; h2; h3; h3])
  ∧ (LockedTransfers.root (H := Sample.imports) added.1).2 ≠ called.2.
Proof.
  assert (Hlist :
    LockedTransfers.cached_lock_hashes
      (LockedTransfers.root_with (H := Sample.imports)
         (Some Scenario.lock3) None Scenario.stale).1
    = [lock_hash (H := Sample.imports) Scenario.lock1;
       lock_hash (H := Sample.imports) Scenario.lock2;
       lock_hash (H := Sample.imports) Scenario.lock3])
    by (vm_compute; reflexivity).
  cbv zeta. split_and!; try (vm_compute; reflexivity).
  - intros Heq. rewrite Heq in Hlist. vm_compute in Hlist. discriminate.
  - vm_compute. discriminate.
Qed.

(** C4.  [root_with] does not always leave the hash list as it found it.
    In the container of a channel that registered [lock1] and then [lock2]:
    excluding [lock1] returns the root of the rest and leaves the list as
    [lock2; lock1]; including [lock3] while excluding a lock that is not in
    the container raises from [list.remove] and leaves the hash of [lock3]
    in the list. *)
Theorem root_with_leaves_hash_list_changed :
  let s := ChannelEndState.locked (Channel.partner_state Scenario.two_locks) in
  let h1 := lock_hash (H := Sample.imports) Scenario.lock1 in
  let h2 := lock_hash (H := Sample.imports) Scenario.lock2 in
  let h3 := lock_hash (H := Sample.imports) Scenario.lock3 in
  let excluded :=
    LockedTransfers.root_with (H := Sample.imports)
      None (Some Scenario.lock1) s in
  let failed :=
    LockedTransfers.root_with (H := Sample.imports)
      (Some Scenario.lock3) (Some Scenario.stray_lock) s in
  LockedTransfers.cached_lock_hashes s = [h1; h2]
  ∧ excluded.2 = inr (Sample.merkleroot [h2])
  ∧ LockedTransfers.cached_lock_hashes excluded.1 = [h2; h1]
  ∧ failed.2 = inl list_remove_error
  ∧ LockedTransfers.cached_lock_hashes failed.1 = [h1; h2; h3].
Proof. vm_compute. repeat split. Qed.

(** ** The properties of a channel *)

(** C9.  Reading [Channel.transfered_amount] never succeeds: the property
    asks the end state for [transfer_amount], an attribute it does not have,
    and raises [AttributeError]. *)
Theorem transfered_amount_property_raises (c : Channel.t) :
  Channel.transfered_amount c = inl (AttributeError "transfer_amount").
Proof. reflexivity. Qed.

(** Its neighbour [contract_balance] spells the attribute right. *)
Lemma contract_balance_property_returns (c : Channel.t) :
  Channel.contract_balance c
  = inr (ChannelEndState.AInt
           (ChannelEndState.contract_balance (Channel.our_state c))).
Proof. reflexivity. Qed.

(** ** Registering a transfer: the checks *)

(** Decides the comparisons a check is made of. *)
Ltac decide_checks :=
  repeat first
    [ progress simpl
    | case_bool_decide
    | match goal with
      | |- context [?a >? ?b] => rewrite (Z.gtb_ltb a b)
      | |- context [?a >=? ?b] => rewrite (Z.geb_leb a b)
      | |- context [?a <? ?b] => destruct (Z.ltb_spec a b)
      | |- context [?a <=? ?b] => destruct (Z.leb_spec a b)
      end ];
  try done; try lia.

Section Checks.
Context `{Imports}.
Import Channel.

Lemma check_common_passes c transfer from_state to_state :
  passes_common c (Msg.header transfer) from_state to_state →
  check_common transfer from_state to_state c
  = (c, inr (Msg.transfered_amount (Msg.header transfer)
             - ChannelEndState.transfered_amount (state from_state c),
             ChannelEndState.distributable (state from_state c)
               (state to_state c))).
Proof.
  intros (Ha & Hr & Hs & Hta & Hn1 & Hn & Hd).
  unfold check_common, bind, get, raise_if, raise, ret.
  decide_checks.
Qed.

(** The checks change nothing, whatever they answer. *)
Lemma check_common_state c transfer from_state to_state :
  (check_common transfer from_state to_state c).1 = c.
Proof.
  unfold check_common, bind, get, raise_if, raise, ret.
  decide_checks.
Qed.

(** What [root_with(transfer.lock)] does to the channel during the checks
    of a locked transfer. *)
Lemma zoom_root_with_include c to_state l :
  ∃ hs,
    list_remove (lock_hash l)
      (LockedTransfers.cached_lock_hashes
         (ChannelEndState.locked (state to_state c)) ++ [lock_hash l])
    = Some hs
    ∧ zoom (locked_ref to_state) (LockedTransfers.root_with (Some l) None) c
      = (wr (locked_ref to_state)
           (LockedTransfers.set_hashes hs
              (ChannelEndState.locked (state to_state c))) c,
         (LockedTransfers.root_with (Some l) None
            (ChannelEndState.locked (state to_state c))).2).
Proof.
  destruct (root_with_include (ChannelEndState.locked (state to_state c)) l)
    as (hs & Hhs & Hroot).
  exists hs. split; [done|].
  unfold zoom. simpl. by rewrite Hroot.
Qed.

Lemma claim_locked_unknown_secret {S} (self partner : Ref S ChannelEndState.t)
    secret locksroot (s : S) :
  LockedTransfers.contains (sha3 secret)
    (ChannelEndState.locked (rd self s)) = false →
  ChannelEndState.claim_locked self partner secret locksroot s
  = (s, inl InvalidSecret).
Proof.
  intros Hnot. unfold ChannelEndState.claim_locked.
  rewrite bind_get. rewrite bind_raise_if_raises; [done|].
  by rewrite Hnot.
Qed.

(** C10.  A direct transfer that passes the six checks and carries a
    (non-empty) secret whose hash is not in the recipient's lock container
    makes [register_transfer_from_to] raise [InvalidSecret], and the
    channel, both end states included, is exactly what it was: neither
    the sender's nonce nor its transfered amount has moved. *)
Theorem register_unknown_secret_changes_nothing
    (c : Channel.t) (d : Msg.DirectTransfer) (secret : bytes)
    (from_state to_state : Side) :
  Msg.secret d = Some secret →
  truthy secret = true →
  passes_common c (Msg.direct_header d) from_state to_state →
  LockedTransfers.contains (sha3 secret)
    (ChannelEndState.locked (state to_state c)) = false →
  register_transfer_from_to (Msg.Direct d) from_state to_state c
  = (c, inl InvalidSecret).
Proof.
  intros Hsecret Htruthy Hcommon Hnot.
  unfold register_transfer_from_to.
  erewrite bind_returns by (by apply check_common_passes).
  rewrite bind_ret. unfold apply_transfer.
  rewrite bind_ret, Hsecret. unfold when. rewrite Htruthy.
  erewrite bind_raises; [done|].
  by apply claim_locked_unknown_secret.
Qed.

Lemma bind_block_number {B} (k : Z → M Channel.t B) c :
  bind (zoom external_ref ChannelExternalState.get_block_number) k c
  = k (ChannelExternalState.block_number (external_state c)) c.
Proof. unfold bind, zoom. simpl. by destruct c. Qed.

(** Reading [locked.root] returns; at most it fills the cache. *)
Lemma zoom_root_returns c x :
  ∃ c' r, zoom (locked_ref x) LockedTransfers.root c = (c', inr r).
Proof.
  unfold zoom, LockedTransfers.root.
  destruct (LockedTransfers.cached_root _); simpl; eauto.
Qed.

(** C2, as the code has it.  The locksroot check comes before the two
    expiration checks.  For a locked transfer that passes the six common
    checks and the balance check of its lock: if its locksroot is not what
    [to_state.locked.root_with(lock)] returns, registration raises
    [InvalidLocksRoot] whatever the expiration of the lock; an expiration
    outside the window is what the transfer is rejected for, with an
    exception other than [InvalidLocksRoot], only when the locksroot is the
    expected one. *)
Theorem locksroot_checked_before_expiration
    (c : Channel.t) (l : Msg.LockedTransfer) (from_state to_state : Side) :
  let hd := Msg.locked_header l in
  let lock := Msg.lock l in
  let expected :=
    (LockedTransfers.root_with (Some lock) None
       (ChannelEndState.locked (state to_state c))).2 in
  let remaining :=
    lock_expiration lock
    - ChannelExternalState.block_number (external_state c) in
  passes_common c hd from_state to_state →
  Msg.transfered_amount hd
  - ChannelEndState.transfered_amount (state from_state c)
  + lock_amount lock
  ≤ ChannelEndState.distributable (state from_state c) (state to_state c) →
  (expected ≠ inr (Msg.locksroot hd) →
   (register_transfer_from_to (Msg.Locked l) from_state to_state c).2
   = inl InvalidLocksRoot)
  ∧ (expected = inr (Msg.locksroot hd) →
     ¬ (remaining < settle_timeout c ∧ reveal_timeout c < remaining) →
     ∃ e,
       (register_transfer_from_to (Msg.Locked l) from_state to_state c).2
       = inl e
       ∧ e ≠ InvalidLocksRoot).
Proof.
  intros hd lock expected remaining Hcommon Hamount.
  unfold register_transfer_from_to.
  erewrite bind_returns by (by apply check_common_passes).
  destruct (zoom_root_with_include c to_state lock) as (hs & Hhs & Hzoom).
  destruct (root_with_include (ChannelEndState.locked (state to_state c)) lock)
    as (hs' & Hhs' & Hroot).
  subst hd lock.
  fold expected in Hzoom.
  assert (Hexp : expected
                 = inr (merkleroot
                          (LockedTransfers.cached_lock_hashes
                             (ChannelEndState.locked (state to_state c))
                           ++ [lock_hash (Msg.lock l)]))).
  { unfold expected. by rewrite Hroot. }
  rewrite Hexp in Hzoom.
  assert (Hsettle : ∀ s, settle_timeout (wr (locked_ref to_state) s c)
                         = settle_timeout c) by (by destruct to_state).
  assert (Hreveal : ∀ s, reveal_timeout (wr (locked_ref to_state) s c)
                         = reveal_timeout c) by (by destruct to_state).
  cbv beta iota. unfold check_locked. simpl fst. simpl snd.
  split.
  - intros Hne. rewrite Hexp in Hne.
    destruct (zoom_root_returns
                (wr (locked_ref to_state)
                   (LockedTransfers.set_hashes hs
                      (ChannelEndState.locked (state to_state c))) c)
                to_state) as (c2 & r2 & Hlog).
    erewrite bind_raises; [done|].
    rewrite bind_block_number.
    rewrite bind_raise_if_passes by decide_checks.
    erewrite bind_returns by exact Hzoom.
    rewrite bool_decide_eq_true_2 by congruence.
    erewrite bind_raises; [done|].
    erewrite bind_returns by exact Hlog. done.
  - intros Heq Hwindow. rewrite Hexp in Heq. injection Heq as Heq.
    destruct (decide (remaining < settle_timeout c)) as [Hlt|Hge].
    + exists (ValueError "Expiration smaller than the minimum requried.").
      split; [|done].
      erewrite bind_raises; [done|].
      rewrite bind_block_number.
      rewrite bind_raise_if_passes by decide_checks.
      erewrite bind_returns by exact Hzoom.
      rewrite bool_decide_eq_false_2 by (intros Hne; by apply Hne).
      rewrite bind_ret, bind_get. rewrite Hsettle, Hreveal.
      fold remaining.
      rewrite bind_raise_if_passes by decide_checks.
      rewrite raise_if_raises; [done|]. decide_checks.
    + exists (ValueError
                "Transfer expiration doesn't allow for corret settlement.").
      split; [|done].
      erewrite bind_raises; [done|].
      rewrite bind_block_number.
      rewrite bind_raise_if_passes by decide_checks.
      erewrite bind_returns by exact Hzoom.
      rewrite bool_decide_eq_false_2 by (intros Hne; by apply Hne).
      rewrite bind_ret, bind_get. rewrite Hsettle.
      fold remaining.
      rewrite bind_raise_if_raises; [done|]. decide_checks.
Qed.

End Checks.

(** C10 at a fresh channel and a direct transfer of 5 with a secret that
    no lock waits for. *)
Lemma register_unknown_secret_changes_nothing_witness :
  Channel.register_transfer_from_to (H := Sample.imports)
    (Msg.Direct
       (Msg.mkDirect (Msg.mkHeader 1 "asset" 5 "B" Sample.zero_root "A")
          (Some "nobody")))
    Channel.Our Channel.Partner Scenario.fresh
  = (Scenario.fresh, inl InvalidSecret).
Proof.
  apply (register_unknown_secret_changes_nothing (H := Sample.imports)
           Scenario.fresh _ "nobody" Channel.Our Channel.Partner).
  - reflexivity.
  - reflexivity.
  - repeat split; vm_compute; done.
  - vm_compute. reflexivity.
Defined.

(** C2 as stated fails: a locked transfer whose lock expires beyond the
    settle timeout and whose locksroot is wrong as well is rejected with
    [InvalidLocksRoot], not with the error of the expiration checks. *)
Lemma late_and_unrooted_raises_InvalidLocksRoot :
  ¬ (lock_expiration Scenario.late_lock
     - ChannelExternalState.block_number
         (Channel.external_state Scenario.fresh)
     < Channel.settle_timeout Scenario.fresh)
  ∧ (LockedTransfers.root_with (H := Sample.imports)
       (Some Scenario.late_lock) None
       (ChannelEndState.locked (Channel.partner_state Scenario.fresh))).2
    ≠ inr (Msg.locksroot (Msg.header Scenario.late_and_unrooted))
  ∧ (Channel.register_transfer (H := Sample.imports)
       Scenario.late_and_unrooted None Scenario.fresh).2
    = inl InvalidLocksRoot
  ∧ (Channel.register_transfer_from_to (H := Sample.imports)
       Scenario.late_and_unrooted Channel.Our Channel.Partner
       Scenario.fresh).2
    = inl InvalidLocksRoot.
Proof. vm_compute. repeat split; intros; discriminate. Qed.

(** C2, as the code has it, at the same transfer. *)
Lemma locksroot_checked_before_expiration_witness :
  (Channel.register_transfer_from_to (H := Sample.imports)
     Scenario.late_and_unrooted Channel.Our Channel.Partner Scenario.fresh).2
  = inl InvalidLocksRoot.
Proof.
  apply (locksroot_checked_before_expiration (H := Sample.imports)
           Scenario.fresh
           (Msg.mkLocked (Msg.mkHeader 1 "asset" 0 "B" "bogus" "A")
              Scenario.late_lock)
           Channel.Our Channel.Partner).
  - repeat split; vm_compute; done.
  - vm_compute. done.
  - vm_compute. discriminate.
Defined.

(** ** The kinds of error *)

Section Kinds.
Context `{Imports}.
Import Channel.

(** C8, as the code has it.  The failures the specification names
    AssetMismatch, UnknownRecipient and UnsignedTransfer (the address
    mismatches of [register_transfer_from_to], for which its docstring
    announces [ValueError]), ChannelClosed and InsufficientFunds (in the
    constructors) and the unknown secret of [Channel.claim_locked] are all
    raised as the built-in [ValueError]; only the message tells them
    apart.  Each leaves the channel as it was. *)
Theorem taxonomy_failures_are_value_errors (c : Channel.t) :
  (∀ transfer from_state to_state,
     let hd := Msg.header transfer in
     let result := register_transfer_from_to transfer from_state to_state c in
     (Msg.asset hd ≠ asset_address c →
      result = (c, inl (ValueError "Asset address mismatch")))
     ∧ (Msg.asset hd = asset_address c →
        Msg.recipient hd ≠ ChannelEndState.address (state to_state c) →
        result = (c, inl (ValueError "Unknow recipient")))
     ∧ (Msg.asset hd = asset_address c →
        Msg.recipient hd = ChannelEndState.address (state to_state c) →
        Msg.sender hd ≠ ChannelEndState.address (state from_state c) →
        result = (c, inl (ValueError "Unsigned transfer"))))
  ∧ (isopen c = false →
     ∀ amount secret expiration hashlock,
       create_directtransfer amount secret c
       = (c, inl (ValueError "The channel is closed"))
       ∧ create_lockedtransfer amount expiration hashlock c
         = (c, inl (ValueError "The channel is closed")))
  ∧ (isopen c = true →
     ∀ amount secret expiration hashlock,
       amount ≤ 0 ∨ distributable c < amount →
       create_directtransfer amount secret c
       = (c, inl (ValueError "Insufficient funds"))
       ∧ (expiration - ChannelExternalState.block_number (external_state c)
          < settle_timeout c →
          ChannelExternalState.block_number (external_state c)
          ≤ expiration - reveal_timeout c →
          create_lockedtransfer amount expiration hashlock c
          = (c, inl (ValueError "Insufficient funds"))))
  ∧ (∀ secret locksroot,
       LockedTransfers.contains (sha3 secret)
         (ChannelEndState.locked (our_state c)) = false →
       LockedTransfers.contains (sha3 secret)
         (ChannelEndState.locked (partner_state c)) = false →
       claim_locked secret locksroot c
       = (c, inl (ValueError "The secret doesnt unlock any hashlock"))).
Proof.
  split; [|split; [|split]].
  - intros transfer from_state to_state hd result. subst hd result.
    unfold register_transfer_from_to.
    repeat split.
    + intros Ha.
      erewrite bind_raises; [done|]. unfold check_common.
      rewrite bind_get, bind_raise_if_raises; [done|]. decide_checks.
    + intros Ha Hr.
      erewrite bind_raises; [done|]. unfold check_common.
      rewrite bind_get, bind_raise_if_passes by decide_checks.
      rewrite bind_raise_if_raises; [done|]. decide_checks.
    + intros Ha Hr Hs.
      erewrite bind_raises; [done|]. unfold check_common.
      rewrite bind_get, !bind_raise_if_passes by decide_checks.
      rewrite bind_raise_if_raises; [done|]. decide_checks.
  - intros Hclosed amount secret expiration hashlock. split.
    + unfold create_directtransfer.
      rewrite bind_get, bind_raise_if_raises; [done|]. by rewrite Hclosed.
    + unfold create_lockedtransfer.
      rewrite bind_get, bind_raise_if_raises; [done|]. by rewrite Hclosed.
  - intros Hopen amount secret expiration hashlock Hamount.
    unfold distributable in Hamount. split.
    + unfold create_directtransfer.
      rewrite bind_get, bind_raise_if_passes by (by rewrite Hopen).
      rewrite bind_raise_if_raises; [done|].
      destruct Hamount; decide_checks.
    + intros Hsettle Hreveal. unfold create_lockedtransfer.
      rewrite bind_get, bind_raise_if_passes by (by rewrite Hopen).
      rewrite bind_block_number.
      rewrite !bind_raise_if_passes by decide_checks.
      rewrite bind_raise_if_raises; [done|].
      destruct Hamount; decide_checks.
  - intros secret locksroot Hours Hpartners. unfold claim_locked.
    rewrite bind_get. by rewrite Hours, Hpartners.
Qed.

(** The fourth of the common checks is left out of the above: a transfer
    that lowers the sender's transfered amount is rejected with a
    [ValueError] as well, where the docstring of
    [register_transfer_from_to] announces [InsufficientBalance] for a
    negative transfer. *)
Lemma negative_transfer_raises_ValueError c transfer from_state to_state :
  let hd := Msg.header transfer in
  Msg.asset hd = asset_address c →
  Msg.recipient hd = ChannelEndState.address (state to_state c) →
  Msg.sender hd = ChannelEndState.address (state from_state c) →
  Msg.transfered_amount hd
  < ChannelEndState.transfered_amount (state from_state c) →
  register_transfer_from_to transfer from_state to_state c
  = (c, inl (ValueError "Negative transfer")).
Proof.
  intros hd Ha Hr Hs Hlt. subst hd. unfold register_transfer_from_to.
  erewrite bind_raises; [done|]. unfold check_common.
  rewrite bind_get, !bind_raise_if_passes by decide_checks.
  rewrite bind_raise_if_raises; [done|]. decide_checks.
Qed.

End Kinds.

(** C8 as stated fails: a transfer for another asset, a transfer to an
    unknown recipient and a transfer that is not signed by the sender are
    rejected with exceptions of one and the same class, the generic
    [ValueError]; so are an unknown secret handed to
    [Channel.claim_locked], a transfer asked of a closed channel, and a
    transfer of more than the channel can distribute. *)
Lemma asset_and_recipient_errors_share_a_class :
  ∃ e1 e2 e3 e4 e5 e6,
    (Channel.register_transfer_from_to (H := Sample.imports)
       Scenario.wrong_asset Channel.Our Channel.Partner Scenario.fresh).2
    = inl e1
    ∧ (Channel.register_transfer_from_to (H := Sample.imports)
         Scenario.wrong_recipient Channel.Our Channel.Partner Scenario.fresh).2
      = inl e2
    ∧ (Channel.claim_locked (H := Sample.imports) "nobody" None
         Scenario.fresh).2
      = inl e3
    ∧ (Channel.register_transfer_from_to (H := Sample.imports)
         Scenario.unsigned Channel.Our Channel.Partner Scenario.fresh).2
      = inl e4
    ∧ (Channel.create_directtransfer (H := Sample.imports) 5 None
         Scenario.closed).2
      = inl e5
    ∧ (Channel.create_directtransfer (H := Sample.imports) 101 None
         Scenario.fresh).2
      = inl e6
    ∧ class_of e1 = class_of e2
    ∧ class_of e1 = CValueError
    ∧ class_of e3 = CValueError
    ∧ class_of e4 = CValueError
    ∧ class_of e5 = CValueError
    ∧ class_of e6 = CValueError.
Proof. eexists _, _, _, _, _, _. vm_compute. repeat split. Qed.

(** The fourth check at a fresh channel: the transfer that lowers the
    transfered amount is rejected with a [ValueError], not with the
    [InsufficientBalance] of the docstring. *)
Lemma negative_transfer_at_fresh_channel :
  Channel.register_transfer_from_to (H := Sample.imports)
    Scenario.negative Channel.Our Channel.Partner Scenario.fresh
  = (Scenario.fresh, inl (ValueError "Negative transfer"))
  ∧ class_of (ValueError "Negative transfer") ≠ class_of InsufficientBalance.
Proof. split; [vm_compute; reflexivity|vm_compute; discriminate]. Qed.

(** C8, as the code has it, at a fresh channel and at a closed one. *)
Lemma taxonomy_failures_are_value_errors_witness :
  Channel.register_transfer_from_to (H := Sample.imports)
    Scenario.wrong_asset Channel.Our Channel.Partner Scenario.fresh
  = (Scenario.fresh, inl (ValueError "Asset address mismatch"))
  ∧ Channel.register_transfer_from_to (H := Sample.imports)
      Scenario.wrong_recipient Channel.Our Channel.Partner Scenario.fresh
    = (Scenario.fresh, inl (ValueError "Unknow recipient"))
  ∧ Channel.register_transfer_from_to (H := Sample.imports)
      Scenario.unsigned Channel.Our Channel.Partner Scenario.fresh
    = (Scenario.fresh, inl (ValueError "Unsigned transfer"))
  ∧ Channel.create_directtransfer (H := Sample.imports) 5 None Scenario.closed
    = (Scenario.closed, inl (ValueError "The channel is closed"))
  ∧ Channel.create_directtransfer (H := Sample.imports) 101 None
      Scenario.fresh
    = (Scenario.fresh, inl (ValueError "Insufficient funds"))
  ∧ Channel.create_lockedtransfer (H := Sample.imports) 101 20 "h"
      Scenario.fresh
    = (Scenario.fresh, inl (ValueError "Insufficient funds"))
  ∧ Channel.claim_locked (H := Sample.imports) "nobody" None Scenario.fresh
    = (Scenario.fresh,
       inl (ValueError "The secret doesnt unlock any hashlock")).
Proof.
  pose proof (taxonomy_failures_are_value_errors (H := Sample.imports)
                Scenario.fresh) as (Hreg & _ & Hfunds & Hsecret).
  pose proof (taxonomy_failures_are_value_errors (H := Sample.imports)
                Scenario.closed) as (_ & Hclosed & _).
  split; [|split; [|split; [|split; [|split; [|split]]]]].
  - apply (Hreg Scenario.wrong_asset). vm_compute. discriminate.
  - apply (Hreg Scenario.wrong_recipient); vm_compute; [done|discriminate].
  - apply (Hreg Scenario.unsigned); vm_compute; [done|done|discriminate].
  - apply (Hclosed eq_refl 5 None 0 "").
  - apply (Hfunds eq_refl 101 None 0 ""). right. vm_compute. done.
  - apply (Hfunds eq_refl 101 None 20 "h"); [right|..]; vm_compute; done.
  - apply Hsecret; vm_compute; done.
Defined.

(** ** Registration that fails half-way *)

(** C1.  A rejected transfer can leave the channel changed.  [A]'s channel
    holds [lock1] and [lock2] for [B], in this order.  A direct transfer
    that reveals the secret of [lock1] and carries a wrong locksroot is
    rejected with [InvalidLocksRoot], and afterwards the hash list of the
    partner's lock container reads [lock2; lock1]: [claim_locked] asked
    [root_with] for the root without [lock1], and [root_with] put the hash
    back at the end.  The root the container commits to for a next lock is
    no longer the one it was before the call. *)
Theorem rejected_claim_reorders_lock_hashes :
  let before :=
    ChannelEndState.locked (Channel.partner_state Scenario.two_locks) in
  let result :=
    Channel.register_transfer (H := Sample.imports)
      Scenario.bad_claim None Scenario.two_locks in
  let after := ChannelEndState.locked (Channel.partner_state result.1) in
  let h1 := lock_hash (H := Sample.imports) Scenario.lock1 in
  let h2 := lock_hash (H := Sample.imports) Scenario.lock2 in
  result.2 = inl InvalidLocksRoot
  ∧ LockedTransfers.cached_lock_hashes before = [h1; h2]
  ∧ LockedTransfers.cached_lock_hashes after = [h2; h1]
  ∧ (LockedTransfers.root_with (H := Sample.imports)
       (Some Scenario.lock3) None before).2
    ≠ (LockedTransfers.root_with (H := Sample.imports)
         (Some Scenario.lock3) None after).2.
Proof. vm_compute. repeat split. discriminate. Qed.

(** ** Constructed messages against registration *)

(** C5.  [create_directtransfer] puts the partner's current locks root
    into the message whether or not a secret is given.  With [lock1]
    pending and its secret given, the message carries the root that still
    includes [lock1], which is not [root_with(exclude=lock1)]; registering
    the signed message on the same channel raises [InvalidLocksRoot]. *)
Theorem direct_transfer_with_secret_keeps_current_root :
  let built :=
    Channel.create_directtransfer (H := Sample.imports)
      5 (Some "s1") Scenario.one_lock in
  let current :=
    (LockedTransfers.root (H := Sample.imports)
       (ChannelEndState.locked (Channel.partner_state Scenario.one_lock))).2 in
  let without :=
    (LockedTransfers.root_with (H := Sample.imports)
       None (Some Scenario.lock1)
       (ChannelEndState.locked (Channel.partner_state Scenario.one_lock))).2 in
  ∃ d,
    built.2 = inr d
    ∧ LockedTransfers.contains (Sample.sha3 "s1")
        (ChannelEndState.locked (Channel.partner_state Scenario.one_lock))
      = true
    ∧ inr (Msg.locksroot (Msg.direct_header d)) = current
    ∧ inr (Msg.locksroot (Msg.direct_header d)) ≠ without
    ∧ (Channel.register_transfer (H := Sample.imports)
         (Msg.sign "A" (Msg.Direct d)) None built.1).2
      = inl InvalidLocksRoot.
Proof. eexists. vm_compute. repeat split. discriminate. Qed.

(** C6.  A locked transfer whose lock expires exactly [reveal_timeout]
    blocks from now is built by [create_lockedtransfer] and then refused by
    [register_transfer] on the same channel, which wants strictly more; the
    nonce stays where it was. *)
Theorem edge_expiration_is_built_then_refused :
  let built :=
    Channel.create_lockedtransfer (H := Sample.imports)
      10 13 (Sample.sha3 "s1") Scenario.fresh in
  ∃ l,
    built = (Scenario.fresh, inr l)
    ∧ lock_expiration (Msg.lock l)
      - ChannelExternalState.block_number
          (Channel.external_state Scenario.fresh)
      = Channel.reveal_timeout Scenario.fresh
    ∧ Channel.register_transfer (H := Sample.imports)
        (Msg.sign "A" (Msg.Locked l)) None Scenario.fresh
      = (Scenario.fresh,
         inl (ValueError "Expiration smaller than the minimum requried."))
    ∧ ChannelEndState.nonce (Channel.our_state Scenario.fresh) = 1.
Proof. eexists. vm_compute. repeat split. Qed.

(** ** Nonces *)

Section Nonces.
Context `{Imports}.
Import Channel Trace.

Lemma nonce_of_nonces x c :
  ChannelEndState.nonce (state x c)
  = match x with Our => (nonces c).1 | Partner => (nonces c).2 end.
Proof. by destruct x. Qed.

Lemma keeps_nonces_locked {A} x (m : M LockedTransfers.t A) :
  keeps nonces (zoom (locked_ref x) m).
Proof. intros c. unfold zoom. destruct (m _) as [s r]. by destruct x. Qed.

Lemma keeps_nonces_external {A} (m : M ChannelExternalState.t A) :
  keeps nonces (zoom external_ref m).
Proof. intros c. unfold zoom. by destruct (m _) as [s r]. Qed.

Lemma keeps_nonces_state_modify x
    (f : ChannelEndState.t → ChannelEndState.t) :
  (∀ s, ChannelEndState.nonce (f s) = ChannelEndState.nonce s) →
  keeps nonces (zoom (state_ref x) (modify f)).
Proof.
  intros Hf c. unfold zoom, modify, nonces. destruct x; simpl; by rewrite Hf.
Qed.

Lemma keeps_nonces_modify (f : Channel.t → Channel.t) :
  (∀ c, nonces (f c) = nonces c) → keeps nonces (modify f).
Proof. intros Hf c. apply Hf. Qed.

(** Splits a goal about the nonces along the computation. *)
Ltac keeps_nonces :=
  repeat first
    [ apply keeps_nonces_locked
    | apply keeps_nonces_external
    | apply keeps_nonces_state_modify; done
    | apply keeps_nonces_modify; done
    | keeps_step ].

Lemma keeps_nonces_claim_locked self partner secret locksroot :
  keeps nonces
    (ChannelEndState.claim_locked (state_ref self) (state_ref partner)
       secret locksroot).
Proof. unfold ChannelEndState.claim_locked. keeps_nonces. Qed.

Lemma keeps_nonces_check_common transfer from_state to_state :
  keeps nonces (check_common transfer from_state to_state).
Proof. unfold check_common. keeps_nonces. Qed.

Lemma keeps_nonces_check_locked l to_state amount distributable :
  keeps nonces (check_locked l to_state amount distributable).
Proof. unfold check_locked. keeps_nonces. Qed.

Lemma keeps_nonces_create_directtransfer amount secret :
  keeps nonces (create_directtransfer amount secret).
Proof. unfold create_directtransfer. keeps_nonces. Qed.

Lemma keeps_nonces_create_lockedtransfer amount expiration hashlock :
  keeps nonces (create_lockedtransfer amount expiration hashlock).
Proof. unfold create_lockedtransfer. keeps_nonces. Qed.

Lemma keeps_nonces_create_refundtransfer_for transfer :
  keeps nonces (create_refundtransfer_for transfer).
Proof.
  unfold create_refundtransfer_for.
  keeps_nonces. apply keeps_nonces_create_lockedtransfer.
Qed.

Lemma keeps_nonces_create_timeouttransfer_for transfer :
  keeps nonces (create_timeouttransfer_for transfer).
Proof. unfold create_timeouttransfer_for. keeps_nonces. Qed.

Lemma keeps_nonces_claim secret locksroot :
  keeps nonces (claim_locked secret locksroot).
Proof.
  unfold claim_locked. keeps_nonces; apply keeps_nonces_claim_locked.
Qed.

Lemma bumps_bind {A B} x (m : M Channel.t A) (k : A → M Channel.t B) c :
  keeps nonces m →
  (∀ a c1, bumps x (nonces c1) (k a c1)) →
  bumps x (nonces c) (bind m k c).
Proof.
  intros Hm Hk. unfold bind. specialize (Hm c).
  destruct (m c) as [c1 [e|a]]; simpl in Hm.
  - done.
  - rewrite <- Hm. apply Hk.
Qed.

Lemma apply_transfer_bumps transfer from_state to_state c :
  bumps from_state (nonces c) (apply_transfer transfer from_state to_state c).
Proof.
  unfold apply_transfer.
  apply bumps_bind.
  { keeps_nonces. }
  intros _ c1. apply bumps_bind.
  { keeps_nonces; apply keeps_nonces_claim_locked. }
  intros _ c2. apply bumps_bind.
  { keeps_nonces. }
  intros _ c3. unfold bumps, bind, zoom, modify, ret.
  simpl. destruct (LockedTransfers.root _) as [s r] eqn:Hroot.
  assert (∃ r', r = inr r') as [r' ->].
  { revert Hroot. unfold LockedTransfers.root.
    destruct (LockedTransfers.cached_root _); intros [= <- <-]; eauto. }
  by destruct from_state, to_state.
Qed.

Lemma register_transfer_from_to_bumps transfer from_state to_state c :
  bumps from_state (nonces c)
    (register_transfer_from_to transfer from_state to_state c).
Proof.
  unfold register_transfer_from_to.
  apply bumps_bind; [apply keeps_nonces_check_common|].
  intros ad c1. apply bumps_bind.
  { destruct transfer; [apply keeps_ret|apply keeps_nonces_check_locked]. }
  intros _ c2. apply apply_transfer_bumps.
Qed.

(** Whatever follows a computation without touching [f] leaves [f] as
    the computation left it. *)
Lemma bind_keeps_after {S A B C} (f : S → C) (m : M S A) (k : A → M S B) s :
  (∀ a, keeps f (k a)) → f (bind m k s).1 = f (m s).1.
Proof.
  intros Hk. unfold bind. destruct (m s) as [s1 [e|a]]; [done|].
  apply Hk.
Qed.

Lemma exec_state {A} (m : M Channel.t A) c : (exec m c).1 = (m c).1.
Proof. unfold exec. by destruct (m c) as [c' [e|a]]. Qed.

(** An operation that makes no registration leaves the nonces alone; one
    that does leaves them as the registration does. *)
Lemma run_nonces o c :
  nonces (run o c).1
  = match registration o c with
    | Some (transfer, from_state, to_state) =>
        nonces (register_transfer_from_to transfer from_state to_state c).1
    | None => nonces c
    end.
Proof.
  destruct o; simpl; rewrite ?exec_state.
  - unfold register_transfer. rewrite bind_get.
    repeat case_bool_decide; try done.
    + apply bind_keeps_after. intros _. keeps_nonces.
    + apply bind_keeps_after. intros _. keeps_nonces.
  - done.
  - apply keeps_nonces_claim.
  - apply keeps_nonces_claim_locked.
  - apply keeps_nonces_state_modify. done.
  - apply keeps_nonces_create_directtransfer.
  - apply keeps_nonces_create_lockedtransfer.
  - apply keeps_nonces_create_lockedtransfer.
  - apply keeps_nonces_create_refundtransfer_for.
  - apply keeps_nonces_create_timeouttransfer_for.
  - done.
  - unfold get_state_for, bind, get, ret, raise.
    by repeat case_bool_decide.
  - apply keeps_nonces_locked.
  - apply keeps_nonces_locked.
  - apply keeps_nonces_locked.
  - apply keeps_nonces_locked.
  - done.
Qed.

Lemma nonces_at_least_one c :
  reachable c → 1 ≤ (nonces c).1 ∧ 1 ≤ (nonces c).2.
Proof.
  induction 1 as [| c o Hc IH]; [done|].
  rewrite run_nonces.
  destruct (registration o c) as [[[transfer from_state] to_state]|]; [|done].
  pose proof (register_transfer_from_to_bumps transfer from_state to_state c)
    as Hb.
  unfold bumps in Hb. rewrite Hb.
  destruct ((register_transfer_from_to transfer from_state to_state c).2);
    [done|].
  unfold nonces in *. destruct from_state; simpl in *; lia.
Qed.

(** C7.  In every state a channel can reach, both nonces are at least 1;
    a call of [register_transfer_from_to] that returns has raised the
    nonce of its sender by exactly 1; and an operation after which a
    nonce differs is a registration that returned, whose sender is the
    end whose nonce differs, by exactly 1. *)
Theorem nonce_starts_at_one_and_counts_registrations (c : Channel.t) :
  reachable c →
  (∀ x, 1 ≤ ChannelEndState.nonce (state x c))
  ∧ (∀ transfer from_state to_state c',
       register_transfer_from_to transfer from_state to_state c
       = (c', inr tt) →
       ChannelEndState.nonce (state from_state c')
       = ChannelEndState.nonce (state from_state c) + 1)
  ∧ (∀ o x,
       ChannelEndState.nonce (state x (run o c).1)
       ≠ ChannelEndState.nonce (state x c) →
       ∃ transfer to_state,
         registration o c = Some (transfer, x, to_state)
         ∧ (register_transfer_from_to transfer x to_state c).2 = inr tt
         ∧ ChannelEndState.nonce (state x (run o c).1)
           = ChannelEndState.nonce (state x c) + 1).
Proof.
  intros Hc. split; [|split].
  - intros x. destruct (nonces_at_least_one c Hc). by destruct x.
  - intros transfer from_state to_state c' Hreg.
    pose proof (register_transfer_from_to_bumps transfer from_state to_state c)
      as Hb.
    unfold bumps in Hb. rewrite Hreg in Hb. simpl in Hb.
    rewrite !nonce_of_nonces, Hb. by destruct from_state.
  - intros o x Hne. rewrite !nonce_of_nonces in Hne.
    rewrite !nonce_of_nonces. rewrite run_nonces in *.
    destruct (registration o c) as [[[transfer from_state] to_state]|];
      [|by destruct x].
    pose proof (register_transfer_from_to_bumps transfer from_state to_state c)
      as Hb.
    unfold bumps in Hb. rewrite Hb in *.
    destruct (register_transfer_from_to transfer from_state to_state c)
      as [c' [e|[]]] eqn:Hreg; simpl in *; [by destruct x|].
    exists transfer, to_state.
    destruct x, from_state; simpl in *; try done; by rewrite Hreg.
Qed.

End Nonces.


(** A channel stays reachable along any list of operations. *)
Lemma reachable_run_all `{Imports} os c :
  Trace.reachable c → Trace.reachable (Trace.run_all os c).
Proof.
  revert c. induction os as [|o os IH]; intros c Hc; simpl; [done|].
  apply IH. by constructor.
Qed.

Lemma reachable_fresh : Trace.reachable (H := Sample.imports) Scenario.fresh.
Proof. constructor. Qed.

(** C7 at the channel that registered two locked transfers, and at the
    first of the two registrations. *)
Lemma nonce_starts_at_one_and_counts_registrations_witness :
  1 ≤ ChannelEndState.nonce (Channel.state Channel.Our Scenario.two_locks)
  ∧ ChannelEndState.nonce
      (Channel.state Channel.Our
         (Channel.register_transfer_from_to (H := Sample.imports)
            (Msg.Locked Scenario.locked1) Channel.Our Channel.Partner
            Scenario.fresh).1)
    = ChannelEndState.nonce (Channel.state Channel.Our Scenario.fresh) + 1.
Proof.
  split.
  - apply (nonce_starts_at_one_and_counts_registrations
             (H := Sample.imports) Scenario.two_locks).
    apply (reachable_run_all (H := Sample.imports)), reachable_fresh.
  - pose proof (nonce_starts_at_one_and_counts_registrations
                  (H := Sample.imports) Scenario.fresh reachable_fresh)
      as (_ & Hregistered & _).
    apply (Hregistered (Msg.Locked Scenario.locked1) Channel.Our
             Channel.Partner).
    vm_compute. reflexivity.
Defined.

(** ** What a rejected claim does to the hash list, whatever the hash *)

Section RejectedClaim.
Context `{Imports}.
Import Channel.

Lemma zoom_getitem c x hashlock tr :
  LockedTransfers.locked (ChannelEndState.locked (state x c)) !! hashlock
  = Some tr →
  zoom (attr_ref (state_ref x) ChannelEndState.locked_ref)
    (LockedTransfers.getitem hashlock) c
  = (c, inr tr).
Proof.
  intros Htr. unfold zoom, LockedTransfers.getitem. simpl. rewrite Htr.
  destruct c as [[] [] ? ? ? ? ? ? ?]. by destruct x.
Qed.

(** The situation of C1 in general: the secret opens a lock of the
    recipient whose hash is not the last of the list, and the locksroot
    of the message is not the root of the other hashes.  The registration
    is refused and the hash has moved to the end of the list. *)
Lemma rejected_claim_moves_hash c d secret from_state to_state tr pre post :
  Msg.secret d = Some secret →
  truthy secret = true →
  passes_common c (Msg.direct_header d) from_state to_state →
  LockedTransfers.locked (ChannelEndState.locked (state to_state c))
    !! sha3 secret = Some tr →
  LockedTransfers.cached_lock_hashes (ChannelEndState.locked (state to_state c))
  = pre ++ lock_hash (Msg.lock tr) :: post →
  lock_hash (Msg.lock tr) ∉ pre →
  truthy (Msg.locksroot (Msg.direct_header d)) = true →
  merkleroot (pre ++ post) ≠ Msg.locksroot (Msg.direct_header d) →
  register_transfer_from_to (Msg.Direct d) from_state to_state c
  = (wr (locked_ref to_state)
       (LockedTransfers.set_hashes (pre ++ post ++ [lock_hash (Msg.lock tr)])
          (ChannelEndState.locked (state to_state c))) c,
     inl InvalidLocksRoot).
Proof.
  intros Hsecret Htruthy Hcommon Htr Hhashes Hpre Hroot Hne.
  unfold register_transfer_from_to.
  erewrite bind_returns by (by apply check_common_passes).
  rewrite bind_ret. unfold apply_transfer.
  rewrite bind_ret, Hsecret. unfold when. rewrite Htruthy.
  erewrite bind_raises; [done|].
  unfold ChannelEndState.claim_locked.
  rewrite bind_get, bind_raise_if_passes.
  2:{ unfold LockedTransfers.contains. simpl. rewrite Htr.
      by rewrite bool_decide_eq_true_2. }
  erewrite bind_returns by (by apply zoom_getitem).
  simpl truthy_opt. rewrite Hroot.
  erewrite bind_raises; [done|].
  erewrite bind_returns.
  2:{ unfold zoom. simpl rd.
      erewrite (root_with_exclude_split _ _ pre post) by done. done. }
  rewrite raise_if_raises; [done|].
  apply bool_decide_eq_true_2. simpl. congruence.
Qed.

End RejectedClaim.

(** ** The constructors against registration, whatever the hash *)

Section Constructors.
Context `{Imports}.
Import Channel.

(** [root_with(lock, exclude)] with an [exclude] whose hash is not in the
    list: [list.remove] raises once the hash of [lock] has been appended,
    and nothing takes it off again. *)
Lemma root_with_include_exclude_absent s l x :
  lock_hash x ∉ LockedTransfers.cached_lock_hashes s →
  lock_hash x ≠ lock_hash l →
  LockedTransfers.root_with (Some l) (Some x) s
  = (LockedTransfers.set_hashes
       (LockedTransfers.cached_lock_hashes s ++ [lock_hash l]) s,
     inl list_remove_error).
Proof.
  intros Hx Hne.
  unfold LockedTransfers.root_with, bind, LockedTransfers.hashes_append,
    LockedTransfers.hashes_remove, modify. simpl.
  rewrite list_remove_absent; [done|].
  intros [Hin|Hin%list_elem_of_singleton]%elem_of_app; done.
Qed.

(** The locksroot of a built direct transfer is the partner's current
    root; the secret plays no part in it. *)
Lemma create_directtransfer_locksroot c amount secret c' d :
  create_directtransfer amount secret c = (c', inr d) →
  (LockedTransfers.root (ChannelEndState.locked (partner_state c))).2
  = inr (Msg.locksroot (Msg.direct_header d))
  ∧ Msg.secret d = secret.
Proof.
  unfold create_directtransfer. rewrite bind_get.
  intros (c1 & [] & Hopen & Hrest)%bind_returned.
  apply bind_returned in Hrest as (c2 & [] & Hfunds & Hrest).
  apply bind_returned in Hrest as (c3 & r & Hroot & Hret).
  injection Hret as <- <-. simpl.
  assert (c1 = c) as ->.
  { revert Hopen. unfold raise_if. destruct (negb _); by intros [= <-]. }
  assert (c2 = c) as ->.
  { revert Hfunds. unfold raise_if. destruct (_ || _); by intros [= <-]. }
  revert Hroot. unfold zoom. simpl.
  destruct (LockedTransfers.root _) as [s r'] eqn:Hr. by intros [= _ ->].
Qed.

(** [check_locked] never lets a lock through that expires exactly
    [reveal_timeout] blocks from now. *)
Lemma check_locked_refuses_edge c l to_state amount distributable :
  lock_expiration (Msg.lock l)
  - ChannelExternalState.block_number (external_state c)
  = reveal_timeout c →
  ∃ c' e, check_locked l to_state amount distributable c = (c', inl e).
Proof.
  intros Hedge. unfold check_locked. rewrite bind_block_number.
  destruct (amount + lock_amount (Msg.lock l) >? distributable) eqn:Hfunds.
  { rewrite bind_raise_if_raises by done. eauto. }
  rewrite bind_raise_if_passes by done.
  destruct (zoom_root_with_include c to_state (Msg.lock l))
    as (hs & _ & Hzoom).
  destruct (LockedTransfers.root_with (Some (Msg.lock l)) None
              (ChannelEndState.locked (state to_state c))) as [s [e|r]] eqn:Hr.
  { destruct (root_with_include
                (ChannelEndState.locked (state to_state c)) (Msg.lock l))
      as (? & _ & Hroot). congruence. }
  simpl in Hzoom. erewrite bind_returns by exact Hzoom.
  case_bool_decide as Hlocksroot.
  { destruct (zoom_root_returns
                (wr (locked_ref to_state)
                   (LockedTransfers.set_hashes hs
                      (ChannelEndState.locked (state to_state c))) c)
                to_state) as (c2 & r2 & Hlog).
    erewrite bind_raises; [eauto|].
    erewrite bind_returns by exact Hlog. done. }
  rewrite bind_ret, bind_get.
  assert (Hsettle : ∀ s, settle_timeout (set_state to_state s c)
                         = settle_timeout c) by (by destruct to_state).
  assert (Hreveal : ∀ s, reveal_timeout (set_state to_state s c)
                         = reveal_timeout c) by (by destruct to_state).
  rewrite Hsettle, Hreveal, Hedge.
  destruct (negb (reveal_timeout c <? settle_timeout c)) eqn:Hwindow.
  { rewrite bind_raise_if_raises by done. eauto. }
  rewrite bind_raise_if_passes by done.
  rewrite raise_if_raises; [eauto|].
  rewrite Z.gtb_ltb, Z.ltb_irrefl. done.
Qed.

(** So registration refuses every such locked transfer. *)
Lemma register_refuses_edge c l from_state to_state :
  lock_expiration (Msg.lock l)
  - ChannelExternalState.block_number (external_state c)
  = reveal_timeout c →
  ∃ c' e,
    register_transfer_from_to (Msg.Locked l) from_state to_state c
    = (c', inl e).
Proof.
  intros Hedge. unfold register_transfer_from_to.
  pose proof (check_common_state c (Msg.Locked l) from_state to_state) as Hc.
  destruct (check_common (Msg.Locked l) from_state to_state c)
    as [c1 [e|ad]] eqn:Hcommon.
  { erewrite bind_raises by done. eauto. }
  simpl in Hc. subst c1.
  erewrite bind_returns by done.
  destruct (check_locked_refuses_edge c l to_state ad.1 ad.2 Hedge)
    as (c' & e & Hlocked).
  erewrite bind_raises by done. eauto.
Qed.

(** And [create_lockedtransfer] builds one whenever the channel is open,
    the reveal timeout is below the settle timeout and the amount is
    available: the defect of C6 is there in every such channel. *)
Lemma create_lockedtransfer_builds_edge c amount expiration hashlock :
  isopen c = true →
  expiration - ChannelExternalState.block_number (external_state c)
  = reveal_timeout c →
  reveal_timeout c < settle_timeout c →
  0 < amount ≤ distributable c →
  ∃ c1 l,
    create_lockedtransfer amount expiration hashlock c = (c1, inr l)
    ∧ Msg.lock l = mkLock amount expiration hashlock
    ∧ external_state c1 = external_state c
    ∧ reveal_timeout c1 = reveal_timeout c.
Proof.
  intros Hopen Hedge Hwindow Hamount. unfold distributable in Hamount.
  unfold create_lockedtransfer.
  rewrite bind_get, bind_raise_if_passes by (by rewrite Hopen).
  rewrite bind_block_number.
  rewrite !bind_raise_if_passes by decide_checks.
  destruct (zoom_root_with_include c Partner
              (mkLock amount expiration hashlock)) as (hs & _ & Hzoom).
  destruct (root_with_include (ChannelEndState.locked (state Partner c))
              (mkLock amount expiration hashlock)) as (? & _ & Hroot).
  rewrite Hroot in Hzoom. simpl in Hzoom.
  erewrite bind_returns by exact Hzoom.
  eexists _, _. split; [reflexivity|]. done.
Qed.

End Constructors.

(** ** What a rejected transfer leaves in place *)

Section Rejected.
Context `{Imports}.
Import Channel.

Lemma same_accounts_refl c : same_accounts c c.
Proof. by repeat split. Qed.

Lemma same_accounts_trans c1 c2 c3 :
  same_accounts c1 c2 → same_accounts c2 c3 → same_accounts c1 c3.
Proof.
  intros (?&?&?&?&?&?&?&?&?&Hp) (?&?&?&?&?&?&?&?&?&Hp').
  repeat split; try congruence.
  intros x. by rewrite Hp', Hp.
Qed.

Lemma steady_ret {A} (a : A) : steady (ret a).
Proof. intros c. apply same_accounts_refl. Qed.

Lemma steady_raise {A} e : steady (raise (A := A) e).
Proof. intros c. apply same_accounts_refl. Qed.

Lemma steady_get : steady get.
Proof. intros c. apply same_accounts_refl. Qed.

Lemma steady_raise_if b e : steady (raise_if b e).
Proof. intros c. destruct b; apply same_accounts_refl. Qed.

Lemma steady_bind {A B} (m : M Channel.t A) (k : A → M Channel.t B) :
  steady m → (∀ a, steady (k a)) → steady (bind m k).
Proof.
  intros Hm Hk c. unfold bind. specialize (Hm c).
  destruct (m c) as [c1 [e|a]]; simpl in *; [done|].
  eapply same_accounts_trans; [done|]. apply Hk.
Qed.

Lemma steady_block_number :
  steady (zoom external_ref ChannelExternalState.get_block_number).
Proof. intros c. unfold zoom. simpl. destruct c. apply same_accounts_refl. Qed.

Lemma steady_zoom_locked {A} x (m : M LockedTransfers.t A) :
  shuffles m → steady (zoom (locked_ref x) m).
Proof.
  intros Hm c. unfold zoom.
  specialize (Hm (rd (locked_ref x) c)).
  destruct (m _) as [s r]. simpl in *. destruct Hm as [Hl Hp].
  destruct c as [[] [] ? ? ? ? ? ? ?].
  unfold same_accounts, accounts, hashes.
  destruct x; simpl in *; rewrite ?Hl; split_and!; try done;
    by intros [].
Qed.

Lemma root_shuffles : shuffles LockedTransfers.root.
Proof.
  intros s. unfold LockedTransfers.root.
  by destruct (LockedTransfers.cached_root s).
Qed.

Lemma root_with_include_shuffles l :
  shuffles (LockedTransfers.root_with (Some l) None).
Proof.
  intros s. destruct (root_with_include s l) as (hs & Hhs & ->). simpl.
  split; [done|].
  apply list_remove_perm in Hhs.
  rewrite <- Permutation_cons_append in Hhs.
  by apply Permutation_cons_inv in Hhs.
Qed.

Lemma root_with_exclude_shuffles x :
  shuffles (LockedTransfers.root_with None (Some x)).
Proof.
  intros s.
  destruct (decide (lock_hash x ∈ LockedTransfers.cached_lock_hashes s))
    as [Hin|Hnot].
  - apply list_elem_of_split_l in Hin as (pre & post & Hs & Hpre).
    rewrite (root_with_exclude_split s x pre post) by done. simpl.
    split; [done|]. rewrite Hs.
    apply Permutation_app_head. symmetry. apply Permutation_cons_append.
  - by rewrite root_with_exclude_absent.
Qed.

(** Splits a [steady] goal along the computation. *)
Ltac steady_step :=
  cbv beta zeta;
  match goal with
  | |- steady (bind _ _) => apply steady_bind; [|intros ?]
  | |- steady (ret _) => apply steady_ret
  | |- steady (raise _) => apply steady_raise
  | |- steady get => apply steady_get
  | |- steady (raise_if _ _) => apply steady_raise_if
  | |- steady (zoom external_ref ChannelExternalState.get_block_number) =>
      apply steady_block_number
  | |- steady (zoom (locked_ref _) LockedTransfers.root) =>
      apply steady_zoom_locked, root_shuffles
  | |- steady (zoom (locked_ref _) (LockedTransfers.root_with (Some _) None)) =>
      apply steady_zoom_locked, root_with_include_shuffles
  | |- steady (if ?b then _ else _) => destruct b
  | |- steady (match ?x with _ => _ end) => destruct x
  end.

Lemma steady_check_common transfer from_state to_state :
  steady (check_common transfer from_state to_state).
Proof. unfold check_common. repeat steady_step. Qed.

Lemma steady_check_locked l to_state amount distributable :
  steady (check_locked l to_state amount distributable).
Proof. unfold check_locked. repeat steady_step. Qed.

Lemma wf_same_accounts c c' x :
  same_accounts c c' →
  wf (ChannelEndState.locked (state x c)) →
  wf (ChannelEndState.locked (state x c')).
Proof.
  intros (Ho & Hp & _ & _ & _ & _ & _ & _ & _ & Hh) [Hkeys Hperm].
  assert (Hl : LockedTransfers.locked (ChannelEndState.locked (state x c'))
               = LockedTransfers.locked (ChannelEndState.locked (state x c))).
  { unfold accounts in *. destruct x; simpl; congruence. }
  split.
  - intros h tr. rewrite Hl. apply Hkeys.
  - rewrite Hl. specialize (Hh x). unfold hashes in Hh. by rewrite Hh.
Qed.

(** In a well-formed container [remove] finds what it looks for. *)
Lemma remove_returns s hashlock tr :
  LockedTransfers.locked s !! hashlock = Some tr →
  lock_hash (Msg.lock tr) ∈ LockedTransfers.cached_lock_hashes s →
  ∃ s', LockedTransfers.remove hashlock s = (s', inr tt).
Proof.
  intros Htr Hin. unfold LockedTransfers.remove, bind, LockedTransfers.getitem.
  rewrite Htr. destruct (list_remove_elem _ _ Hin) as [hs ->]. eauto.
Qed.

Lemma wf_hash_listed s hashlock tr :
  wf s → LockedTransfers.locked s !! hashlock = Some tr →
  lock_hash (Msg.lock tr) ∈ LockedTransfers.cached_lock_hashes s.
Proof.
  intros [_ Hperm] Htr. rewrite Hperm.
  apply list_elem_of_fmap. exists (hashlock, tr). split; [done|].
  by apply elem_of_map_to_list.
Qed.

(** Crediting the partner does not touch any lock container. *)
Lemma locked_after_credit c from_state to_state v :
  ChannelEndState.locked
    (state to_state
       (set_state from_state
          (ChannelEndState.set_transfered_amount v (state from_state c)) c))
  = ChannelEndState.locked (state to_state c).
Proof. by destruct from_state, to_state. Qed.

(** The steps that close a registration return. *)
Lemma closing_steps_return c transfer from_state to_state :
  ∃ c',
    (zoom (state_ref from_state)
       (modify (ChannelEndState.set_transfered_amount
                  (Msg.transfered_amount (Msg.header transfer)))) ;;
     zoom (state_ref from_state)
       (modify
        (λ s, ChannelEndState.set_nonce (ChannelEndState.nonce s + 1) s)) ;;
     zoom (locked_ref to_state) LockedTransfers.root ;;
     ret tt) c
    = (c', inr tt).
Proof.
  unfold bind, zoom, modify, ret, LockedTransfers.root. simpl.
  destruct (LockedTransfers.cached_root _); eauto.
Qed.

(** When [claim_locked] raises on a well-formed container, the accounts
    are as before: the credit and the removal come after the last check,
    and the removal finds its hash. *)
Lemma claim_locked_raises_steady c self partner secret locksroot c' e :
  wf (ChannelEndState.locked (state self c)) →
  ChannelEndState.claim_locked (state_ref self) (state_ref partner)
    secret locksroot c = (c', inl e) →
  same_accounts c c'.
Proof.
  intros Hwf. unfold ChannelEndState.claim_locked. rewrite bind_get.
  destruct (LockedTransfers.contains (sha3 secret)
              (ChannelEndState.locked (rd (state_ref self) c))) eqn:Hin.
  2:{ rewrite bind_raise_if_raises by done. intros [= <- _].
      apply same_accounts_refl. }
  rewrite bind_raise_if_passes by done.
  unfold LockedTransfers.contains in Hin. apply bool_decide_eq_true in Hin.
  destruct Hin as [tr Htr]. simpl in Htr.
  erewrite bind_returns by (by apply zoom_getitem).
  pose proof (wf_hash_listed _ _ _ Hwf Htr) as Hlisted.
  destruct (truthy_opt locksroot).
  - pose proof (steady_zoom_locked self _
                  (root_with_exclude_shuffles (Msg.lock tr)) c) as Hsteady.
    change (attr_ref (state_ref self) ChannelEndState.locked_ref)
      with (locked_ref self).
    destruct (zoom (locked_ref self)
                (LockedTransfers.root_with None (Some (Msg.lock tr))) c)
      as [c1 [e1|r]] eqn:Hzoom; simpl in Hsteady.
    { erewrite bind_raises; [|by erewrite bind_raises]. by intros [= <- _]. }
    destruct (bool_decide (Some r ≠ locksroot)) eqn:Hroot.
    { erewrite bind_raises.
      2:{ erewrite bind_returns by done. by rewrite Hroot. }
      by intros [= <- _]. }
    erewrite (bind_returns (bind _ _)).
    2:{ erewrite bind_returns by done. by rewrite Hroot. }
    pose proof (wf_same_accounts c c1 self Hsteady Hwf) as Hwf1.
    assert (Htr1 : LockedTransfers.locked
                     (ChannelEndState.locked (state self c1))
                   !! sha3 secret = Some tr).
    { destruct Hsteady as (Ho & Hp & _). unfold accounts in *.
      destruct self; simpl in *; congruence. }
    pose proof (wf_hash_listed _ _ _ Hwf1 Htr1) as Hlisted1.
    unfold bind at 1. unfold zoom at 1, modify at 1.
    unfold zoom. simpl rd. rewrite locked_after_credit.
    destruct (remove_returns _ _ _ Htr1 Hlisted1) as [s' ->]. done.
  - rewrite bind_ret.
    unfold bind at 1. unfold zoom at 1, modify at 1.
    unfold zoom. simpl rd. rewrite locked_after_credit.
    destruct (remove_returns _ _ _ Htr Hlisted) as [s' ->]. done.
Qed.

(** When the state change raises, it has changed nothing yet. *)
Lemma apply_transfer_raises_steady c transfer from_state to_state c' e :
  wf (ChannelEndState.locked (state to_state c)) →
  apply_transfer transfer from_state to_state c = (c', inl e) →
  same_accounts c c'.
Proof.
  intros Hwf. unfold apply_transfer. destruct transfer as [d|l].
  - rewrite bind_ret.
    destruct (Msg.secret d) as [secret|]; [destruct (truthy secret)|]; simpl.
    + destruct (ChannelEndState.claim_locked (state_ref to_state)
                  (state_ref from_state) secret
                  (Some (Msg.locksroot (Msg.direct_header d))) c)
        as [c1 [e1|[]]] eqn:Hclaim.
      * erewrite bind_raises by done. intros [= <- _].
        by eapply claim_locked_raises_steady.
      * erewrite bind_returns by done.
        destruct (closing_steps_return c1 (Msg.Direct d) from_state to_state)
          as [c2 Hc2]. simpl in Hc2. by rewrite Hc2.
    + rewrite bind_ret.
      destruct (closing_steps_return c (Msg.Direct d) from_state to_state)
        as [c2 Hc2]. simpl in Hc2. by rewrite Hc2.
    + rewrite bind_ret.
      destruct (closing_steps_return c (Msg.Direct d) from_state to_state)
        as [c2 Hc2]. simpl in Hc2. by rewrite Hc2.
  - destruct (zoom (locked_ref to_state) (LockedTransfers.add l) c)
      as [c1 [e1|[]]] eqn:Hadd.
    + erewrite bind_raises; [|by erewrite bind_raises].
      intros [= <- _]. revert Hadd. unfold zoom, LockedTransfers.add. simpl.
      destruct (LockedTransfers.contains _ _); [|done].
      intros [= <- _]. destruct c as [[] [] ? ? ? ? ? ? ?].
      destruct to_state; apply same_accounts_refl.
    + erewrite (bind_returns (bind _ _)).
      2:{ erewrite bind_returns by done. reflexivity. }
      rewrite bind_ret.
      destruct (closing_steps_return
                  (wr external_ref
                     (ChannelExternalState.register_channel_for_hashlock
                        (lock_hashlock (Msg.lock l))
                        (rd external_ref c1)).1 c1)
                  (Msg.Locked l) from_state to_state) as [c2 Hc2].
      simpl in Hc2. simpl. by rewrite Hc2.
Qed.

(** What does hold when [register_transfer_from_to] raises, for a recipient
    whose lock container is well-formed: both nonces, both transfered
    amounts, both contract balances, both lock mappings and every other
    field of the channel are what they were; the hash lists hold the same
    hashes, possibly in another order. *)
Lemma rejected_transfer_keeps_accounts c transfer from_state to_state c' e :
  wf (ChannelEndState.locked (state to_state c)) →
  register_transfer_from_to transfer from_state to_state c = (c', inl e) →
  same_accounts c c'.
Proof.
  intros Hwf. unfold register_transfer_from_to.
  pose proof (check_common_state c transfer from_state to_state) as Hc.
  destruct (check_common transfer from_state to_state c)
    as [c1 [e1|ad]] eqn:Hcommon; simpl in Hc; subst c1.
  { erewrite bind_raises by done. intros [= <- _]. apply same_accounts_refl. }
  erewrite bind_returns by done.
  assert (Hsteady : steady
            (match transfer with
             | Msg.Direct _ => ret tt
             | Msg.Locked l => check_locked l to_state ad.1 ad.2
             end)).
  { destruct transfer; [apply steady_ret|apply steady_check_locked]. }
  specialize (Hsteady c).
  destruct (match transfer with
            | Msg.Direct _ => ret tt
            | Msg.Locked l => check_locked l to_state ad.1 ad.2
            end c) as [c2 [e2|[]]] eqn:Hchecks; simpl in Hsteady.
  { erewrite bind_raises by done. by intros [= <- _]. }
  erewrite bind_returns by done.
  intros Happly. eapply same_accounts_trans; [done|].
  eapply apply_transfer_raises_steady; [|done].
  by eapply wf_same_accounts.
Qed.

End Rejected.

(** ** The lock containers of a channel stay well-formed *)

Section Invariant.
Context `{Imports}.
Import Channel Trace.

Lemma preserves_ret {S A} (inv : S → Prop) (a : A) : preserves inv (ret a).
Proof. by intros s. Qed.

Lemma preserves_raise {S A} (inv : S → Prop) e :
  preserves inv (raise (A := A) e).
Proof. by intros s. Qed.

Lemma preserves_get {S} (inv : S → Prop) : preserves inv get.
Proof. by intros s. Qed.

Lemma preserves_raise_if {S} (inv : S → Prop) b e :
  preserves inv (raise_if b e).
Proof. intros s. by destruct b. Qed.

Lemma preserves_when {S} (inv : S → Prop) b m :
  preserves inv m → preserves inv (when b m).
Proof. destruct b; [done|]. intros _. apply preserves_ret. Qed.

Lemma preserves_bind {S A B} (inv : S → Prop) (m : M S A) (k : A → M S B) :
  preserves inv m → (∀ a, preserves inv (k a)) → preserves inv (bind m k).
Proof.
  intros Hm Hk s Hs. unfold bind. specialize (Hm s Hs).
  destruct (m s) as [s1 [e|a]]; simpl in *; [done|]. by apply Hk.
Qed.

(** A reordered hash list is as good as the original. *)
Lemma wf_shuffled s s' :
  LockedTransfers.locked s' = LockedTransfers.locked s →
  LockedTransfers.cached_lock_hashes s'
  ≡ₚ LockedTransfers.cached_lock_hashes s →
  wf s → wf s'.
Proof.
  intros Hl Hp [Hkeys Hperm]. split.
  - intros h tr. rewrite Hl. apply Hkeys.
  - by rewrite Hl, Hp.
Qed.

Lemma shuffles_preserves_wf {A} (m : M LockedTransfers.t A) :
  shuffles m → preserves wf m.
Proof. intros Hm s Hs. destruct (Hm s). by eapply wf_shuffled. Qed.

Lemma add_preserves_wf transfer : preserves wf (LockedTransfers.add transfer).
Proof.
  intros s Hs.
  destruct (LockedTransfers.add transfer s) as [s' [e|[]]] eqn:Hadd.
  - revert Hadd. unfold LockedTransfers.add.
    destruct (LockedTransfers.contains _ _); by intros [= <- _].
  - by eapply wf_add.
Qed.

Lemma remove_preserves_wf hashlock :
  preserves wf (LockedTransfers.remove hashlock).
Proof.
  intros s Hs.
  destruct (LockedTransfers.remove hashlock s) as [s' [e|[]]] eqn:Hremove.
  - revert Hremove.
    unfold LockedTransfers.remove, bind, LockedTransfers.getitem.
    destruct (LockedTransfers.locked s !! hashlock); [|by intros [= <- _]].
    destruct (list_remove _ _); by intros [= <- _].
  - by eapply wf_remove.
Qed.

Lemma getitem_preserves_wf hashlock :
  preserves wf (LockedTransfers.getitem hashlock).
Proof.
  intros s Hs. unfold LockedTransfers.getitem.
  by destruct (LockedTransfers.locked s !! hashlock).
Qed.

Lemma zoom_locked_preserves {A} x (m : M LockedTransfers.t A) :
  preserves wf m → preserves all_wf (zoom (locked_ref x) m).
Proof.
  intros Hm c Hc y. unfold zoom.
  specialize (Hm (rd (locked_ref x) c) (Hc x)).
  destruct (m _) as [s r]. simpl in *.
  specialize (Hc y). by destruct x, y.
Qed.

Lemma zoom_external_preserves {A} (m : M ChannelExternalState.t A) :
  preserves all_wf (zoom external_ref m).
Proof.
  intros c Hc y. unfold zoom. destruct (m _) as [s r]. simpl.
  specialize (Hc y). by destruct y.
Qed.

Lemma zoom_state_modify_preserves x
    (f : ChannelEndState.t → ChannelEndState.t) :
  (∀ s, ChannelEndState.locked (f s) = ChannelEndState.locked s) →
  preserves all_wf (zoom (state_ref x) (modify f)).
Proof.
  intros Hf c Hc y. unfold zoom, modify. simpl.
  pose proof (Hc y) as Hy. destruct x, y; simpl in *; by rewrite ?Hf.
Qed.

Lemma modify_preserves (f : Channel.t → Channel.t) :
  (∀ c x, state x (f c) = state x c) → preserves all_wf (modify f).
Proof. intros Hf c Hc y. unfold modify. simpl. rewrite Hf. apply Hc. Qed.

Lemma steady_preserves {A} (m : M Channel.t A) :
  steady m → preserves all_wf m.
Proof. intros Hm c Hc x. eapply wf_same_accounts; [apply Hm|apply Hc]. Qed.

(** Splits a goal about the invariant along the computation. *)
Ltac preserves_step :=
  cbv beta zeta;
  match goal with
  | |- preserves _ (bind _ _) => apply preserves_bind; [|intros ?]
  | |- preserves _ (ret _) => apply preserves_ret
  | |- preserves _ (raise _) => apply preserves_raise
  | |- preserves _ get => apply preserves_get
  | |- preserves _ (raise_if _ _) => apply preserves_raise_if
  | |- preserves _ (when _ _) => apply preserves_when
  | |- preserves all_wf (zoom external_ref _) => apply zoom_external_preserves
  | |- preserves all_wf (zoom (state_ref _) (modify _)) =>
      apply zoom_state_modify_preserves; done
  | |- preserves all_wf (modify _) =>
      apply modify_preserves; by intros ? []
  | |- preserves all_wf (zoom _ LockedTransfers.root) =>
      apply zoom_locked_preserves, shuffles_preserves_wf, root_shuffles
  | |- preserves all_wf
         (zoom _ (LockedTransfers.root_with (Some _) None)) =>
      apply zoom_locked_preserves, shuffles_preserves_wf,
        root_with_include_shuffles
  | |- preserves all_wf
         (zoom _ (LockedTransfers.root_with None (Some _))) =>
      apply zoom_locked_preserves, shuffles_preserves_wf,
        root_with_exclude_shuffles
  | |- preserves all_wf (zoom _ (LockedTransfers.add _)) =>
      apply zoom_locked_preserves, add_preserves_wf
  | |- preserves all_wf (zoom _ (LockedTransfers.remove _)) =>
      apply zoom_locked_preserves, remove_preserves_wf
  | |- preserves all_wf (zoom _ (LockedTransfers.getitem _)) =>
      apply zoom_locked_preserves, getitem_preserves_wf
  | |- preserves _ (if ?b then _ else _) => destruct b
  | |- preserves _ (match ?x with _ => _ end) => destruct x
  end.

Lemma end_claim_locked_preserves self partner secret locksroot :
  preserves all_wf
    (ChannelEndState.claim_locked (state_ref self) (state_ref partner)
       secret locksroot).
Proof.
  unfold ChannelEndState.claim_locked.
  change (attr_ref (state_ref self) ChannelEndState.locked_ref)
    with (locked_ref self).
  repeat preserves_step.
Qed.

Lemma register_transfer_from_to_preserves transfer from_state to_state :
  preserves all_wf (register_transfer_from_to transfer from_state to_state).
Proof.
  unfold register_transfer_from_to. apply preserves_bind.
  { apply steady_preserves, steady_check_common. }
  intros ad. apply preserves_bind.
  { destruct transfer; [apply preserves_ret|].
    apply steady_preserves, steady_check_locked. }
  intros _. unfold apply_transfer.
  repeat first [apply end_claim_locked_preserves | preserves_step].
Qed.

Lemma create_lockedtransfer_preserves amount expiration hashlock :
  preserves all_wf (create_lockedtransfer amount expiration hashlock).
Proof. unfold create_lockedtransfer. repeat preserves_step. Qed.

(** Every method keeps both containers well-formed; so does every use of
    a container from outside but [root_with] with two locks. *)
Lemma run_preserves o c :
  root_with_both o = false → all_wf c → all_wf (run o c).1.
Proof.
  intros Ho.
  destruct o; simpl; rewrite ?exec_state;
    try match goal with
        | |- all_wf ?c → all_wf (?m ?c).1 =>
            revert c; change (preserves all_wf m)
        end.
  - unfold register_transfer.
    repeat first [apply register_transfer_from_to_preserves | preserves_step].
  - apply register_transfer_from_to_preserves.
  - unfold claim_locked.
    repeat first [apply end_claim_locked_preserves | preserves_step].
  - apply end_claim_locked_preserves.
  - apply zoom_state_modify_preserves. done.
  - unfold create_directtransfer. repeat preserves_step.
  - apply create_lockedtransfer_preserves.
  - apply create_lockedtransfer_preserves.
  - unfold create_refundtransfer_for.
    repeat first [apply create_lockedtransfer_preserves | preserves_step].
  - unfold create_timeouttransfer_for. repeat preserves_step.
  - intros Hc x. specialize (Hc x). by destruct x.
  - unfold get_state_for. repeat preserves_step.
  - preserves_step.
  - preserves_step.
  - preserves_step.
  - destruct lock as [l|], exclude as [l'|]; try done; try preserves_step.
    apply zoom_locked_preserves. intros s Hs.
    unfold LockedTransfers.root_with, bind, get, ret. by destruct s.
  - intros Hc x. specialize (Hc x). by destruct x.
Qed.

Lemma fresh_all_wf a1 b1 a2 b2 external asset reveal settle :
  all_wf (Channel.init (ChannelEndState.init a1 b1)
            (ChannelEndState.init a2 b2) external asset reveal settle).
Proof. intros []; apply wf_init. Qed.

(** Along any history without such a call, both containers of a channel
    built from fresh end states are well-formed. *)
Lemma history_all_wf os a1 b1 a2 b2 external asset reveal settle :
  Forall (λ o, root_with_both o = false) os →
  all_wf (run_all os
            (Channel.init (ChannelEndState.init a1 b1)
               (ChannelEndState.init a2 b2) external asset reveal settle)).
Proof.
  generalize (fresh_all_wf a1 b1 a2 b2 external asset reveal settle).
  generalize (Channel.init (ChannelEndState.init a1 b1)
                (ChannelEndState.init a2 b2) external asset reveal settle).
  induction os as [|o os IH]; intros c Hc Hos; simpl; [done|].
  apply Forall_cons in Hos as [Ho Hos].
  apply IH; [|done]. by apply run_preserves.
Qed.

End Invariant.

(** * Further properties of the code *)

(** ** The lock container as a mapping *)

Section Container.
Context `{Imports}.
Import LockedTransfers.

Lemma contains_false hashlock s :
  contains hashlock s = false ↔ locked s !! hashlock = None.
Proof.
  unfold contains. rewrite bool_decide_eq_false. symmetry.
  apply eq_None_not_Some.
Qed.

Lemma contains_true hashlock s :
  contains hashlock s = true ↔ is_Some (locked s !! hashlock).
Proof. unfold contains. apply bool_decide_eq_true. Qed.

Lemma amounts_commute (j1 j2 : string) (z1 z2 : Msg.LockedTransfer) (y : Z) :
  lock_amount (Msg.lock z1) + (lock_amount (Msg.lock z2) + y)
  = lock_amount (Msg.lock z2) + (lock_amount (Msg.lock z1) + y).
Proof. lia. Qed.

(** X1.  [add] of a transfer whose hashlock is not filed yet returns, and
    afterwards the transfer is found under its hashlock, the container
    counts one transfer more, [outstanding] has grown by the amount of the
    lock, the hash of the lock is the last of the hash list, the root cache
    is empty and the transfers under other hashlocks are as they were. *)
Theorem add_files_the_transfer (s : LockedTransfers.t)
    (transfer : Msg.LockedTransfer) :
  let hashlock := lock_hashlock (Msg.lock transfer) in
  contains hashlock s = false →
  ∃ s',
    add transfer s = (s', inr tt)
    ∧ contains hashlock s' = true
    ∧ getitem hashlock s' = (s', inr transfer)
    ∧ len s' = S (len s)
    ∧ outstanding s' = outstanding s + lock_amount (Msg.lock transfer)
    ∧ cached_lock_hashes s'
      = cached_lock_hashes s ++ [lock_hash (Msg.lock transfer)]
    ∧ cached_root s' = None
    ∧ ∀ h, h ≠ hashlock → locked s' !! h = locked s !! h.
Proof.
  intros hashlock Hnot. pose proof Hnot as Hnone.
  apply contains_false in Hnone.
  eexists. split; [unfold add; fold hashlock; by rewrite Hnot|].
  split_and!; simpl.
  - apply contains_true. simpl. rewrite lookup_insert_eq. eauto.
  - unfold getitem. simpl. by rewrite lookup_insert_eq.
  - unfold len. simpl. by rewrite map_size_insert_None.
  - unfold outstanding. simpl.
    rewrite map_fold_insert_L; [lia| |done].
    intros. apply amounts_commute; done.
  - done.
  - done.
  - intros h Hne. by rewrite lookup_insert_ne.
Qed.

(** X2.  [add] and [remove] change the container only when they return.
    [add] raises only for a hashlock that is filed already, with
    [AssertionError]; [remove] raises [KeyError] for a hashlock that is not
    filed, and the error of [list.remove] when the hash of the filed lock
    is missing from the hash list; in each case the container is what it
    was. *)
Theorem add_and_remove_raise_without_change (s s' : LockedTransfers.t)
    (e : exn) :
  (∀ transfer,
     add transfer s = (s', inl e) →
     s' = s ∧ e = AssertionError
     ∧ contains (lock_hashlock (Msg.lock transfer)) s = true)
  ∧ (∀ hashlock,
       remove hashlock s = (s', inl e) →
       s' = s
       ∧ (e = KeyError ∧ contains hashlock s = false
          ∨ e = list_remove_error
            ∧ ∃ tr, locked s !! hashlock = Some tr
                    ∧ lock_hash (Msg.lock tr) ∉ cached_lock_hashes s)).
Proof.
  split.
  - intros transfer. unfold add.
    destruct (contains _ s) eqn:Hin; [|done]. by intros [= <- <-].
  - intros hashlock. unfold remove, bind, getitem.
    destruct (locked s !! hashlock) as [tr|] eqn:Htr.
    + destruct (list_remove _ _) as [hs|] eqn:Hhs; [done|].
      intros [= <- <-]. split; [done|]. right. split; [done|].
      exists tr. split; [done|]. intros Hin.
      destruct (list_remove_elem _ _ Hin) as [? ?]. congruence.
    + intros [= <- <-]. split; [done|]. left. split; [done|].
      by apply contains_false.
Qed.

(** X3.  [remove] of a filed hashlock from a well-formed container
    returns; afterwards the hashlock is not filed, the container counts
    one transfer less, [outstanding] has gone down by the amount of the
    lock, one occurrence of the hash of the lock has left the hash list,
    the root cache is empty, the other transfers are as they were and the
    container is well-formed again. *)
Theorem remove_unfiles_the_transfer (s : LockedTransfers.t)
    (hashlock : bytes) (tr : Msg.LockedTransfer) :
  wf s →
  locked s !! hashlock = Some tr →
  ∃ s',
    remove hashlock s = (s', inr tt)
    ∧ contains hashlock s' = false
    ∧ S (len s') = len s
    ∧ outstanding s' = outstanding s - lock_amount (Msg.lock tr)
    ∧ cached_lock_hashes s
      ≡ₚ lock_hash (Msg.lock tr) :: cached_lock_hashes s'
    ∧ cached_root s' = None
    ∧ (∀ h, h ≠ hashlock → locked s' !! h = locked s !! h)
    ∧ wf s'.
Proof.
  intros Hwf Htr.
  pose proof (wf_hash_listed s hashlock tr Hwf Htr) as Hlisted.
  destruct (remove_returns s hashlock tr Htr Hlisted) as [s' Hremove].
  exists s'. split; [done|].
  pose proof (wf_remove s s' hashlock Hwf Hremove) as Hwf'.
  revert Hremove. unfold remove, bind, getitem. rewrite Htr.
  destruct (list_remove _ _) as [hs|] eqn:Hhs; [|done].
  intros [= <-]. split_and!; simpl.
  - apply contains_false. simpl. apply lookup_delete_eq.
  - unfold len. simpl. rewrite map_size_delete_Some by eauto.
    assert (size (locked s) ≠ 0%nat); [|lia].
    intros Hsize%map_size_empty_inv. by rewrite Hsize, lookup_empty in Htr.
  - unfold outstanding. simpl.
    rewrite (map_fold_delete_L _ _ hashlock tr (locked s)); [lia| |done].
    intros. apply amounts_commute; done.
  - by apply list_remove_perm.
  - done.
  - intros h Hne. by rewrite lookup_delete_ne.
  - done.
Qed.

(** X4.  Adding a transfer and removing its hashlock again gives back the
    mapping and the hash list there were, with an empty root cache, when
    neither the hashlock nor the hash of the lock was in the container. *)
Theorem add_then_remove_restores (s : LockedTransfers.t)
    (transfer : Msg.LockedTransfer) :
  contains (lock_hashlock (Msg.lock transfer)) s = false →
  lock_hash (Msg.lock transfer) ∉ cached_lock_hashes s →
  ∃ s1,
    add transfer s = (s1, inr tt)
    ∧ remove (lock_hashlock (Msg.lock transfer)) s1
      = (mk (locked s) (cached_lock_hashes s) None, inr tt).
Proof.
  intros Hnot Hfresh. pose proof Hnot as Hnone.
  apply contains_false in Hnone.
  eexists. split; [unfold add; by rewrite Hnot|].
  unfold remove, bind, getitem. simpl. rewrite lookup_insert_eq. simpl.
  rewrite list_remove_last by done.
  by rewrite delete_insert_id.
Qed.

End Container.

(** ** What an accepted transfer has passed and what it does *)

Section Accepted.
Context `{Imports}.
Import Channel.

Lemma same_accounts_locked c c' x :
  same_accounts c c' →
  LockedTransfers.locked (ChannelEndState.locked (state x c'))
  = LockedTransfers.locked (ChannelEndState.locked (state x c)).
Proof.
  intros (Ho & Hp & _). unfold accounts in *.
  destruct x; simpl; [by injection Ho|by injection Hp].
Qed.

Lemma check_common_returned c transfer from_state to_state c' ad :
  check_common transfer from_state to_state c = (c', inr ad) →
  passes_common c (Msg.header transfer) from_state to_state
  ∧ c' = c
  ∧ ad = (Msg.transfered_amount (Msg.header transfer)
          - ChannelEndState.transfered_amount (state from_state c),
          ChannelEndState.distributable (state from_state c)
            (state to_state c)).
Proof.
  unfold check_common, bind, get, raise_if, raise, ret. unfold passes_common.
  repeat first
    [ case_bool_decide
    | match goal with
      | |- context [?a >? ?b] => rewrite (Z.gtb_ltb a b)
      | |- context [?a <? ?b] => destruct (Z.ltb_spec a b)
      end ];
    simpl; try done.
  intros [= <- <-]. split_and!; try done; lia.
Qed.

Lemma wr_rd_locked x c :
  wr (locked_ref x) (ChannelEndState.locked (state x c)) c = c.
Proof. destruct c as [[] [] ? ? ? ? ? ? ?]. by destruct x. Qed.

Lemma check_locked_returned c l to_state amount distributable c' :
  check_locked l to_state amount distributable c = (c', inr tt) →
  amount + lock_amount (Msg.lock l) ≤ distributable
  ∧ lock_expiration (Msg.lock l)
    - ChannelExternalState.block_number (external_state c)
    < settle_timeout c
  ∧ reveal_timeout c
    < lock_expiration (Msg.lock l)
      - ChannelExternalState.block_number (external_state c)
  ∧ merkleroot (hashes to_state c ++ [lock_hash (Msg.lock l)])
    = Msg.locksroot (Msg.locked_header l)
  ∧ same_accounts c c'.
Proof.
  intros Hchecked.
  pose proof (steady_check_locked l to_state amount distributable c) as Hsame.
  rewrite Hchecked in Hsame. simpl in Hsame.
  revert Hchecked. unfold check_locked. rewrite bind_block_number.
  destruct (amount + lock_amount (Msg.lock l) >? distributable) eqn:Hfunds.
  { by rewrite bind_raise_if_raises. }
  rewrite bind_raise_if_passes by done.
  destruct (zoom_root_with_include c to_state (Msg.lock l))
    as (hs & _ & Hzoom).
  destruct (root_with_include
              (ChannelEndState.locked (state to_state c)) (Msg.lock l))
    as (? & _ & Hroot).
  rewrite Hroot in Hzoom. simpl in Hzoom.
  erewrite bind_returns by exact Hzoom.
  case_bool_decide as Hlocksroot.
  { destruct (zoom_root_returns
                (set_state to_state
                   (ChannelEndState.set_locked
                      (LockedTransfers.set_hashes hs
                         (ChannelEndState.locked (state to_state c)))
                      (state to_state c)) c)
                to_state) as (c2 & r2 & Hlog).
    erewrite bind_raises; [done|]. by erewrite bind_returns by exact Hlog. }
  rewrite bind_ret, bind_get.
  assert (Hsettle : ∀ s, settle_timeout (set_state to_state s c)
                         = settle_timeout c) by (by destruct to_state).
  assert (Hreveal : ∀ s, reveal_timeout (set_state to_state s c)
                         = reveal_timeout c) by (by destruct to_state).
  rewrite Hsettle, Hreveal.
  destruct (lock_expiration (Msg.lock l)
            - ChannelExternalState.block_number (external_state c)
            <? settle_timeout c) eqn:Hs.
  2:{ by rewrite bind_raise_if_raises. }
  rewrite bind_raise_if_passes by done.
  destruct (lock_expiration (Msg.lock l)
            - ChannelExternalState.block_number (external_state c)
            >? reveal_timeout c) eqn:Hr; [|done].
  intros _. rewrite Z.gtb_ltb in Hfunds, Hr.
  apply Z.ltb_ge in Hfunds. apply Z.ltb_lt in Hs, Hr.
  split_and!; try done.
Qed.

(** What the last three steps of a registration leave. *)
Lemma closing_steps_result c transfer from_state to_state c' :
  (zoom (state_ref from_state)
     (modify (ChannelEndState.set_transfered_amount
                (Msg.transfered_amount (Msg.header transfer)))) ;;
   zoom (state_ref from_state)
     (modify (λ s, ChannelEndState.set_nonce (ChannelEndState.nonce s + 1) s)) ;;
   zoom (locked_ref to_state) LockedTransfers.root ;;
   ret tt) c
  = (c', inr tt) →
  ChannelEndState.transfered_amount (state from_state c')
  = Msg.transfered_amount (Msg.header transfer)
  ∧ (∀ x, LockedTransfers.locked (ChannelEndState.locked (state x c'))
          = LockedTransfers.locked (ChannelEndState.locked (state x c)))
  ∧ (∀ x, hashes x c' = hashes x c)
  ∧ LockedTransfers.cached_root (ChannelEndState.locked (state to_state c'))
    = Some (default (merkleroot (hashes to_state c))
              (LockedTransfers.cached_root
                 (ChannelEndState.locked (state to_state c)))).
Proof.
  unfold bind, zoom, modify, ret, LockedTransfers.root, hashes. simpl.
  destruct c as [[] [] ? ? ? ? ? ? ?].
  destruct from_state, to_state; simpl;
    destruct (LockedTransfers.cached_root _) eqn:Hcache;
    intros [= <-]; simpl; rewrite ?Hcache;
    (split_and!; [done|by intros []|by intros []|done]).
Qed.

Lemma apply_transfer_returned c transfer from_state to_state c' :
  apply_transfer transfer from_state to_state c = (c', inr tt) →
  ChannelEndState.transfered_amount (state from_state c')
  = Msg.transfered_amount (Msg.header transfer)
  ∧ ∀ l, transfer = Msg.Locked l →
         LockedTransfers.contains (lock_hashlock (Msg.lock l))
           (ChannelEndState.locked (state to_state c)) = false
         ∧ LockedTransfers.locked (ChannelEndState.locked (state to_state c'))
           !! lock_hashlock (Msg.lock l) = Some l.
Proof.
  unfold apply_transfer.
  intros (c1 & [] & Hfirst & Hrest)%bind_returned.
  apply bind_returned in Hrest as (c2 & [] & Hsecond & Hrest).
  apply closing_steps_result in Hrest as (Hamount & Hlocked & _).
  split; [done|]. intros l ->.
  assert (c2 = c1) as -> by (by injection Hsecond).
  apply bind_returned in Hfirst as (c0 & [] & Hadd & Hext).
  revert Hadd. unfold zoom, LockedTransfers.add. simpl.
  destruct (LockedTransfers.contains _ _) eqn:Hin; [done|].
  intros [= <-]. split; [done|].
  rewrite Hlocked.
  revert Hext. unfold zoom, ChannelExternalState.register_channel_for_hashlock,
                 modify. simpl. intros [= <-].
  destruct c as [[] [] ? ? ? ? ? ? ?].
  destruct to_state; simpl; by rewrite lookup_insert_eq.
Qed.

(** X5.  A transfer that [register_transfer_from_to] accepts has passed
    the six common checks, and afterwards the sender's transfered amount
    is the one the message states.  A locked transfer that is accepted has
    also passed the checks of its lock (balance, settle and reveal window,
    locksroot), its hashlock was not filed with the recipient before, and
    it is filed there afterwards. *)
Theorem accepted_transfer_passed_the_checks (c c' : Channel.t)
    (transfer : Msg.Transfer) (from_state to_state : Side) :
  register_transfer_from_to transfer from_state to_state c = (c', inr tt) →
  passes_common c (Msg.header transfer) from_state to_state
  ∧ ChannelEndState.transfered_amount (state from_state c')
    = Msg.transfered_amount (Msg.header transfer)
  ∧ ∀ l, transfer = Msg.Locked l →
         passes_locked c l from_state to_state
         ∧ LockedTransfers.contains (lock_hashlock (Msg.lock l))
             (ChannelEndState.locked (state to_state c)) = false
         ∧ LockedTransfers.locked (ChannelEndState.locked (state to_state c'))
           !! lock_hashlock (Msg.lock l) = Some l.
Proof.
  unfold register_transfer_from_to.
  intros (c1 & ad & Hcommon & Hrest)%bind_returned.
  apply check_common_returned in Hcommon as (Hcommon & -> & ->).
  apply bind_returned in Hrest as (c2 & [] & Hchecks & Happly).
  apply apply_transfer_returned in Happly as (Hamount & Hfiled).
  split_and!; [done|done|]. intros l ->.
  destruct (Hfiled l eq_refl) as (Hnot & Hin).
  apply check_locked_returned in Hchecks
    as (Hfunds & Hsettle & Hreveal & Hroot & Hsame).
  simpl in Hfunds. split_and!; try done.
  rewrite <- Hnot. unfold LockedTransfers.contains.
  by rewrite (same_accounts_locked c c2 to_state Hsame).
Qed.

End Accepted.

(** ** The state an accepted transfer leaves *)

Section Effects.
Context `{Imports}.
Import Channel.

Lemma closing_steps_exact c transfer from_state to_state :
  (zoom (state_ref from_state)
     (modify (ChannelEndState.set_transfered_amount
                (Msg.transfered_amount (Msg.header transfer)))) ;;
   zoom (state_ref from_state)
     (modify (λ s, ChannelEndState.set_nonce (ChannelEndState.nonce s + 1) s)) ;;
   zoom (locked_ref to_state) LockedTransfers.root ;;
   ret tt) c
  = (with_root_read to_state
       (registered_sender from_state
          (Msg.transfered_amount (Msg.header transfer)) c),
     inr tt).
Proof.
  unfold bind, zoom, modify, ret, with_root_read, registered_sender.
  unfold LockedTransfers.root. simpl.
  destruct from_state, to_state; simpl;
    by destruct (LockedTransfers.cached_root _).
Qed.

(** A direct transfer that passes the checks and claims no lock. *)
Lemma register_direct_exact c d from_state to_state :
  passes_common c (Msg.direct_header d) from_state to_state →
  truthy_opt (Msg.secret d) = false →
  register_transfer_from_to (Msg.Direct d) from_state to_state c
  = (with_root_read to_state
       (registered_sender from_state
          (Msg.transfered_amount (Msg.direct_header d)) c),
     inr tt).
Proof.
  intros Hcommon Hsecret. unfold register_transfer_from_to.
  erewrite bind_returns by (by apply check_common_passes).
  rewrite bind_ret. unfold apply_transfer. rewrite bind_ret.
  erewrite bind_returns.
  - apply (closing_steps_exact c (Msg.Direct d)).
  - destruct (Msg.secret d) as [secret|]; [|done].
    simpl in Hsecret. by rewrite Hsecret.
Qed.

Lemma check_locked_passes c l from_state to_state :
  passes_locked c l from_state to_state →
  lock_hash (Msg.lock l) ∉ hashes to_state c →
  check_locked l to_state
    (Msg.transfered_amount (Msg.locked_header l)
     - ChannelEndState.transfered_amount (state from_state c))
    (ChannelEndState.distributable (state from_state c) (state to_state c)) c
  = (c, inr tt).
Proof.
  intros (Hfunds & Hsettle & Hreveal & Hroot) Hfresh.
  unfold check_locked. rewrite bind_block_number.
  rewrite bind_raise_if_passes by decide_checks.
  erewrite bind_returns.
  2:{ unfold zoom. simpl rd.
      rewrite root_with_include_fresh by done. by rewrite wr_rd_locked. }
  rewrite bool_decide_eq_false_2 by (intros Hne; by apply Hne).
  rewrite bind_ret, bind_get.
  rewrite bind_raise_if_passes by decide_checks.
  unfold raise_if. decide_checks.
Qed.

(** A locked transfer that passes the checks, for a lock that is new to
    the recipient. *)
Lemma register_locked_exact c l from_state to_state :
  passes_common c (Msg.locked_header l) from_state to_state →
  passes_locked c l from_state to_state →
  LockedTransfers.contains (lock_hashlock (Msg.lock l))
    (ChannelEndState.locked (state to_state c)) = false →
  lock_hash (Msg.lock l) ∉ hashes to_state c →
  register_transfer_from_to (Msg.Locked l) from_state to_state c
  = (with_root_read to_state
       (registered_sender from_state
          (Msg.transfered_amount (Msg.locked_header l))
          (with_lock_filed to_state l c)),
     inr tt).
Proof.
  intros Hcommon Hlocked Hnot Hfresh. unfold register_transfer_from_to.
  erewrite bind_returns by (by apply check_common_passes).
  erewrite bind_returns by (by apply check_locked_passes).
  unfold apply_transfer.
  erewrite bind_returns.
  2:{ erewrite bind_returns.
      - unfold zoom at 1. simpl rd. reflexivity.
      - unfold zoom. simpl rd. unfold LockedTransfers.add at 1.
        rewrite Hnot. reflexivity. }
  rewrite bind_ret.
  rewrite (closing_steps_exact _ (Msg.Locked l)).
  unfold with_lock_filed, LockedTransfers.add. rewrite Hnot.
  by destruct to_state.
Qed.

(** X6.  A direct transfer between the two ends that passes the six
    checks and carries no secret is accepted.  With [delta] the amount by
    which the message raises the sender's transfered amount: the sender's
    balance and distributable go down by [delta], the recipient's balance
    goes up by [delta], the sender's nonce goes up by one, and the
    recipient's nonce and both lock mappings stay. *)
Theorem direct_transfer_moves_the_amount (c : Channel.t)
    (d : Msg.DirectTransfer) (from_state to_state : Side) :
  let delta :=
    Msg.transfered_amount (Msg.direct_header d)
    - ChannelEndState.transfered_amount (state from_state c) in
  from_state ≠ to_state →
  passes_common c (Msg.direct_header d) from_state to_state →
  truthy_opt (Msg.secret d) = false →
  ∃ c',
    register_transfer_from_to (Msg.Direct d) from_state to_state c
    = (c', inr tt)
    ∧ ChannelEndState.balance (state from_state c') (state to_state c')
      = ChannelEndState.balance (state from_state c) (state to_state c)
        - delta
    ∧ ChannelEndState.balance (state to_state c') (state from_state c')
      = ChannelEndState.balance (state to_state c) (state from_state c)
        + delta
    ∧ ChannelEndState.distributable (state from_state c') (state to_state c')
      = ChannelEndState.distributable (state from_state c) (state to_state c)
        - delta
    ∧ ChannelEndState.nonce (state from_state c')
      = ChannelEndState.nonce (state from_state c) + 1
    ∧ ChannelEndState.nonce (state to_state c')
      = ChannelEndState.nonce (state to_state c)
    ∧ ∀ x, LockedTransfers.locked (ChannelEndState.locked (state x c'))
           = LockedTransfers.locked (ChannelEndState.locked (state x c)).
Proof.
  intros delta Hne Hcommon Hsecret. subst delta.
  eexists. split; [by apply register_direct_exact|].
  unfold with_root_read, registered_sender, LockedTransfers.root,
    ChannelEndState.distributable, ChannelEndState.balance,
    LockedTransfers.outstanding.
  destruct c as [[] [] ? ? ? ? ? ? ?].
  destruct from_state, to_state; try done; simpl;
    destruct (LockedTransfers.cached_root _); simpl;
    (split_and!; [lia|lia|lia|done|done|by intros []]).
Qed.

(** X7.  A locked transfer between the two ends that passes the common
    checks and the checks of its lock, for a hashlock and a lock hash that
    are new to the recipient, is accepted.  Afterwards the transfer is
    filed with the recipient, the recipient's hash list ends with the hash
    of the lock, the recipient's locks root is the locksroot of the
    message, the amount outstanding with the recipient has grown by the
    amount of the lock, the sender's distributable has gone down by that
    amount and by the rise [delta] of its transfered amount, its balance
    only by [delta], and the hashlock has been handed to the chain
    watcher. *)
Theorem locked_transfer_files_the_lock (c : Channel.t)
    (l : Msg.LockedTransfer) (from_state to_state : Side) :
  let delta :=
    Msg.transfered_amount (Msg.locked_header l)
    - ChannelEndState.transfered_amount (state from_state c) in
  let hashlock := lock_hashlock (Msg.lock l) in
  from_state ≠ to_state →
  passes_common c (Msg.locked_header l) from_state to_state →
  passes_locked c l from_state to_state →
  LockedTransfers.contains hashlock
    (ChannelEndState.locked (state to_state c)) = false →
  lock_hash (Msg.lock l) ∉ hashes to_state c →
  ∃ c',
    register_transfer_from_to (Msg.Locked l) from_state to_state c
    = (c', inr tt)
    ∧ LockedTransfers.locked (ChannelEndState.locked (state to_state c'))
      = <[hashlock := l]>
          (LockedTransfers.locked (ChannelEndState.locked (state to_state c)))
    ∧ hashes to_state c' = hashes to_state c ++ [lock_hash (Msg.lock l)]
    ∧ (LockedTransfers.root (ChannelEndState.locked (state to_state c'))).2
      = inr (Msg.locksroot (Msg.locked_header l))
    ∧ LockedTransfers.outstanding (ChannelEndState.locked (state to_state c'))
      = LockedTransfers.outstanding (ChannelEndState.locked (state to_state c))
        + lock_amount (Msg.lock l)
    ∧ ChannelEndState.distributable (state from_state c') (state to_state c')
      = ChannelEndState.distributable (state from_state c) (state to_state c)
        - delta - lock_amount (Msg.lock l)
    ∧ ChannelEndState.balance (state from_state c') (state to_state c')
      = ChannelEndState.balance (state from_state c) (state to_state c)
        - delta
    ∧ ChannelExternalState.registered (external_state c')
      = ChannelExternalState.registered (external_state c) ++ [hashlock].
Proof.
  intros delta hashlock Hne Hcommon Hlocked Hnot Hfresh. subst delta.
  eexists. split; [by apply register_locked_exact|].
  destruct Hlocked as (_ & _ & _ & Hroot).
  pose proof Hnot as Hnone. apply contains_false in Hnone.
  assert (Hout :
    LockedTransfers.outstanding
      (LockedTransfers.add l (ChannelEndState.locked (state to_state c))).1
    = LockedTransfers.outstanding (ChannelEndState.locked (state to_state c))
      + lock_amount (Msg.lock l)).
  { unfold LockedTransfers.add. fold hashlock. rewrite Hnot.
    unfold LockedTransfers.outstanding. simpl.
    rewrite map_fold_insert_L; [lia| |done].
    intros. apply amounts_commute; done. }
  revert Hout Hroot.
  unfold with_root_read, registered_sender, with_lock_filed,
    LockedTransfers.root, ChannelEndState.distributable,
    ChannelEndState.balance, hashes, LockedTransfers.add.
  fold hashlock. rewrite Hnot.
  destruct c as [[] [] ? ? ? ? ? ? ?].
  destruct from_state, to_state; try done; simpl; intros Hout Hroot;
    unfold LockedTransfers.outstanding in *; simpl in *;
    (split_and!; try done; try lia; by rewrite Hroot).
Qed.

End Effects.

(** ** From construction to registration *)

Section RoundTrip.
Context `{Imports}.
Import Channel.

Lemma root_exact s :
  LockedTransfers.root s
  = (LockedTransfers.mk (LockedTransfers.locked s)
       (LockedTransfers.cached_lock_hashes s) (Some (root_value s)),
     inr (root_value s)).
Proof.
  unfold LockedTransfers.root, root_value.
  destruct s as [m hs [r|]]; done.
Qed.

Lemma create_directtransfer_exact c amount secret :
  isopen c = true →
  0 < amount ≤ distributable c →
  create_directtransfer amount secret c
  = (with_root_read Partner c, inr (built_direct c amount secret)).
Proof.
  intros Hopen Hamount. unfold distributable in Hamount.
  unfold create_directtransfer.
  rewrite bind_get, bind_raise_if_passes by (by rewrite Hopen).
  rewrite bind_raise_if_passes by decide_checks.
  erewrite bind_returns.
  2:{ unfold zoom. simpl rd. rewrite root_exact. reflexivity. }
  unfold with_root_read. simpl. by rewrite root_exact.
Qed.

Lemma create_lockedtransfer_exact c amount expiration hashlock :
  isopen c = true →
  expiration - ChannelExternalState.block_number (external_state c)
  < settle_timeout c →
  ChannelExternalState.block_number (external_state c)
  ≤ expiration - reveal_timeout c →
  0 < amount ≤ distributable c →
  lock_hash (mkLock amount expiration hashlock) ∉ hashes Partner c →
  create_lockedtransfer amount expiration hashlock c
  = (c, inr (built_locked c amount expiration hashlock)).
Proof.
  intros Hopen Hsettle Hreveal Hamount Hfresh.
  unfold distributable in Hamount. unfold create_lockedtransfer.
  rewrite bind_get, bind_raise_if_passes by (by rewrite Hopen).
  rewrite bind_block_number.
  rewrite !bind_raise_if_passes by decide_checks.
  erewrite bind_returns.
  2:{ unfold zoom. simpl rd.
      rewrite root_with_include_fresh by done.
      by rewrite (wr_rd_locked Partner). }
  done.
Qed.

(** [register_transfer] around an accepted outbound transfer. *)
Lemma register_transfer_outbound c transfer cb c' :
  Msg.recipient (Msg.header transfer)
  = ChannelEndState.address (partner_state c) →
  register_transfer_from_to transfer Our Partner c = (c', inr tt) →
  register_transfer transfer cb c
  = (match cb with
     | Some n =>
         set_transfer_callbacks (transfer_callbacks c' ++ [(transfer, n)])
           (set_sent_transfers (sent_transfers c' ++ [transfer]) c')
     | None => set_sent_transfers (sent_transfers c' ++ [transfer]) c'
     end,
     inr tt).
Proof.
  intros Hrecipient Hreg. unfold register_transfer. rewrite bind_get.
  rewrite bool_decide_eq_true_2 by done.
  erewrite bind_returns by exact Hreg.
  by destruct cb.
Qed.

(** X8.  On an open channel whose own nonce is at least 1, a direct
    transfer built by [create_directtransfer] for an amount within the
    distributable, with no secret, is accepted by [register_transfer] once
    it is signed by us: our nonce goes up by one, our transfered amount by
    the amount, the transfer is appended to the sent transfers and the
    received ones stay. *)
Theorem built_direct_transfer_registers (c : Channel.t) (amount : Z)
    (secret : option bytes) (cb : option nat) :
  isopen c = true →
  0 < amount ≤ distributable c →
  truthy_opt secret = false →
  1 ≤ ChannelEndState.nonce (our_state c) →
  ∃ c1 d c2,
    create_directtransfer amount secret c = (c1, inr d)
    ∧ register_transfer
        (Msg.sign (ChannelEndState.address (our_state c)) (Msg.Direct d))
        cb c1
      = (c2, inr tt)
    ∧ ChannelEndState.nonce (our_state c2)
      = ChannelEndState.nonce (our_state c) + 1
    ∧ ChannelEndState.transfered_amount (our_state c2)
      = ChannelEndState.transfered_amount (our_state c) + amount
    ∧ sent_transfers c2
      = sent_transfers c
        ++ [Msg.sign (ChannelEndState.address (our_state c)) (Msg.Direct d)]
    ∧ received_transfers c2 = received_transfers c.
Proof.
  intros Hopen Hamount Hsecret Hnonce.
  eexists _, _, _. split; [by apply create_directtransfer_exact|].
  unfold distributable in Hamount.
  assert (Hcommon :
    passes_common (with_root_read Partner c)
      (Msg.with_sender (ChannelEndState.address (our_state c))
         (Msg.direct_header (built_direct c amount secret)))
      Our Partner).
  { unfold passes_common, with_root_read, ChannelEndState.distributable,
      ChannelEndState.balance, LockedTransfers.outstanding in *.
    rewrite root_exact. destruct c as [[] [] ? ? ? ? ? ? ?]. simpl in *.
    split_and!; try done; lia. }
  split.
  - apply register_transfer_outbound.
    + unfold with_root_read. by destruct c as [[] [] ? ? ? ? ? ? ?].
    + apply (register_direct_exact _
               (Msg.mkDirect
                  (Msg.with_sender (ChannelEndState.address (our_state c))
                     (Msg.direct_header (built_direct c amount secret)))
                  secret)); done.
  - unfold with_root_read, registered_sender. rewrite !root_exact.
    destruct c as [[] [] ? ? ? ? ? ? ?]. by destruct cb.
Qed.

(** X9.  On an open channel whose own nonce is at least 1, a locked
    transfer built by [create_lockedtransfer] is accepted by
    [register_transfer] once it is signed by us, provided the lock expires
    strictly more than [reveal_timeout] blocks from now and within the
    settle timeout, the amount is within the distributable, and neither
    the hashlock nor the hash of the lock is with the partner already.
    Our nonce goes up by one, our transfered amount stays, the transfer is
    filed with the partner and appended to the sent transfers, and our
    distributable goes down by the amount. *)
Theorem built_locked_transfer_registers (c : Channel.t)
    (amount expiration : Z) (hashlock : bytes) (cb : option nat) :
  isopen c = true →
  expiration - ChannelExternalState.block_number (external_state c)
  < settle_timeout c →
  reveal_timeout c
  < expiration - ChannelExternalState.block_number (external_state c) →
  0 < amount ≤ distributable c →
  1 ≤ ChannelEndState.nonce (our_state c) →
  LockedTransfers.contains hashlock
    (ChannelEndState.locked (partner_state c)) = false →
  lock_hash (mkLock amount expiration hashlock) ∉ hashes Partner c →
  ∃ l c2,
    create_lockedtransfer amount expiration hashlock c = (c, inr l)
    ∧ register_transfer
        (Msg.sign (ChannelEndState.address (our_state c)) (Msg.Locked l))
        cb c
      = (c2, inr tt)
    ∧ ChannelEndState.nonce (our_state c2)
      = ChannelEndState.nonce (our_state c) + 1
    ∧ ChannelEndState.transfered_amount (our_state c2)
      = ChannelEndState.transfered_amount (our_state c)
    ∧ LockedTransfers.locked (ChannelEndState.locked (partner_state c2))
      !! hashlock
      = Some (Msg.mkLocked
                (Msg.with_sender (ChannelEndState.address (our_state c))
                   (Msg.locked_header l))
                (Msg.lock l))
    ∧ distributable c2 = distributable c - amount
    ∧ sent_transfers c2
      = sent_transfers c
        ++ [Msg.sign (ChannelEndState.address (our_state c)) (Msg.Locked l)].
Proof.
  intros Hopen Hsettle Hreveal Hamount Hnonce Hnot Hfresh.
  eexists _, _. split; [apply create_lockedtransfer_exact; try done; lia|].
  set (l := Msg.mkLocked
              (Msg.with_sender (ChannelEndState.address (our_state c))
                 (Msg.locked_header
                    (built_locked c amount expiration hashlock)))
              (mkLock amount expiration hashlock)).
  unfold distributable in *.
  assert (Hcommon : passes_common c (Msg.locked_header l) Our Partner).
  { unfold passes_common. simpl. split_and!; try done; lia. }
  assert (Hlocked : passes_locked c l Our Partner).
  { unfold passes_locked. simpl. split_and!; try done; lia. }
  pose proof (register_locked_exact c l Our Partner Hcommon Hlocked Hnot Hfresh)
    as Hreg.
  assert (Hout :
    LockedTransfers.outstanding
      (LockedTransfers.add l (ChannelEndState.locked (partner_state c))).1
    = LockedTransfers.outstanding (ChannelEndState.locked (partner_state c))
      + amount).
  { unfold LockedTransfers.add. simpl. rewrite Hnot.
    unfold LockedTransfers.outstanding. simpl.
    rewrite map_fold_insert_L; [simpl; lia| |by apply contains_false].
    intros. apply amounts_commute; done. }
  split.
  - by apply register_transfer_outbound.
  - subst l. revert Hout.
    unfold with_root_read, registered_sender, with_lock_filed,
      ChannelEndState.distributable, ChannelEndState.balance.
    rewrite !root_exact. unfold LockedTransfers.add. simpl. rewrite Hnot.
    destruct c as [[] [] ? ? ? ? ? ? ?]. simpl. intros Hout.
    unfold LockedTransfers.outstanding in *. simpl in *.
    destruct cb; simpl; (split_and!; try done; try lia);
      apply lookup_insert_eq.
Qed.

End RoundTrip.

(** ** Claiming a lock *)

Section Claim.
Context `{Imports}.
Import Channel.

Lemma remove_returned s hashlock s' :
  LockedTransfers.remove hashlock s = (s', inr tt) →
  ∃ tr hs,
    LockedTransfers.locked s !! hashlock = Some tr
    ∧ list_remove (lock_hash (Msg.lock tr))
        (LockedTransfers.cached_lock_hashes s) = Some hs
    ∧ s' = LockedTransfers.mk (delete hashlock (LockedTransfers.locked s))
             hs None.
Proof.
  unfold LockedTransfers.remove, bind, LockedTransfers.getitem.
  destruct (LockedTransfers.locked s !! hashlock) as [tr|]; [|done].
  destruct (list_remove _ _) as [hs|] eqn:Hhs; [|done].
  intros [= <-]. eauto.
Qed.

Lemma outstanding_delete s s' hashlock tr :
  LockedTransfers.locked s !! hashlock = Some tr →
  LockedTransfers.locked s' = delete hashlock (LockedTransfers.locked s) →
  LockedTransfers.outstanding s'
  = LockedTransfers.outstanding s - lock_amount (Msg.lock tr).
Proof.
  intros Htr Hs'. unfold LockedTransfers.outstanding. rewrite Hs'.
  rewrite (map_fold_delete_L _ _ hashlock tr (LockedTransfers.locked s));
    [lia| |done].
  intros. apply amounts_commute; done.
Qed.

(** The optional locksroot check of [claim_locked] at most reorders the
    hash list. *)
Lemma locksroot_check_steady self (lock : Lock) (locksroot : option bytes) :
  steady
    (if truthy_opt locksroot
     then (let! r := zoom (attr_ref (state_ref self) ChannelEndState.locked_ref)
                       (LockedTransfers.root_with None (Some lock)) in
           raise_if (bool_decide (Some r ≠ locksroot)) InvalidLocksRoot)
     else ret tt).
Proof.
  destruct (truthy_opt locksroot); [|apply steady_ret].
  apply steady_bind.
  - apply (steady_zoom_locked self), root_with_exclude_shuffles.
  - intros r. apply steady_raise_if.
Qed.

(** What a returning [claim_locked] of one end has done. *)
Lemma end_claim_returned c c' self secret locksroot :
  ChannelEndState.claim_locked (state_ref self) (state_ref (other self))
    secret locksroot c = (c', inr tt) →
  ∃ tr,
    LockedTransfers.locked (ChannelEndState.locked (state self c))
    !! sha3 secret = Some tr
    ∧ ChannelEndState.transfered_amount (state (other self) c')
      = ChannelEndState.transfered_amount (state (other self) c)
        + lock_amount (Msg.lock tr)
    ∧ ChannelEndState.transfered_amount (state self c')
      = ChannelEndState.transfered_amount (state self c)
    ∧ LockedTransfers.locked (ChannelEndState.locked (state self c'))
      = delete (sha3 secret)
          (LockedTransfers.locked (ChannelEndState.locked (state self c)))
    ∧ LockedTransfers.locked (ChannelEndState.locked (state (other self) c'))
      = LockedTransfers.locked (ChannelEndState.locked (state (other self) c))
    ∧ (∀ x, ChannelEndState.contract_balance (state x c')
            = ChannelEndState.contract_balance (state x c)).
Proof.
  unfold ChannelEndState.claim_locked. rewrite bind_get.
  destruct (LockedTransfers.contains (sha3 secret)
              (ChannelEndState.locked (rd (state_ref self) c))) eqn:Hin.
  2:{ by rewrite bind_raise_if_raises. }
  rewrite bind_raise_if_passes by done.
  apply contains_true in Hin as [tr Htr]. simpl in Htr.
  erewrite bind_returns by (by apply zoom_getitem).
  intros (c1 & [] & Hcheck & Hrest)%bind_returned.
  pose proof (locksroot_check_steady self (Msg.lock tr) locksroot c) as Hsame.
  rewrite Hcheck in Hsame. simpl in Hsame.
  apply bind_returned in Hrest as (c2 & [] & Hcredit & Hremove).
  revert Hcredit. unfold zoom at 1, modify. simpl rd. intros [= <-].
  revert Hremove. unfold zoom. simpl rd. rewrite locked_after_credit.
  destruct (LockedTransfers.remove _ _) as [s' [e|[]]] eqn:Hrm; [done|].
  intros [= <-].
  apply remove_returned in Hrm as (tr' & hs & Htr' & _ & ->).
  pose proof (same_accounts_locked c c1 self Hsame) as Hl.
  pose proof (same_accounts_locked c c1 (other self) Hsame) as Hl'.
  exists tr. split; [done|].
  destruct Hsame as (Ho & Hp & _). unfold accounts in *.
  destruct c as [[] [] ? ? ? ? ? ? ?], c1 as [[] [] ? ? ? ? ? ? ?].
  destruct self; simpl in *; simplify_eq; rewrite ?Hl, ?Hl';
    (split_and!; try done; by intros []).
Qed.

(** X10.  When [Channel.claim_locked] returns, the secret opened a lock
    filed with one end, ours if it is filed there and the partner's
    otherwise.  The lock is no longer filed with that end, whose
    outstanding amount has gone down by the amount of the lock; the other
    end, which had paid with the lock, has its transfered amount raised by
    that amount, so the balance of the claiming end is up and the balance
    of the paying end is down by it, and the distributable of the paying
    end is what it was. *)
Theorem claim_credits_the_lock (c c' : Channel.t) (secret : bytes)
    (locksroot : option bytes) :
  claim_locked secret locksroot c = (c', inr tt) →
  ∃ self tr,
    LockedTransfers.locked (ChannelEndState.locked (state self c))
    !! sha3 secret = Some tr
    ∧ (self = Partner →
       LockedTransfers.contains (sha3 secret)
         (ChannelEndState.locked (our_state c)) = false)
    ∧ LockedTransfers.contains (sha3 secret)
        (ChannelEndState.locked (state self c')) = false
    ∧ LockedTransfers.outstanding (ChannelEndState.locked (state self c'))
      = LockedTransfers.outstanding (ChannelEndState.locked (state self c))
        - lock_amount (Msg.lock tr)
    ∧ ChannelEndState.balance (state self c') (state (other self) c')
      = ChannelEndState.balance (state self c) (state (other self) c)
        + lock_amount (Msg.lock tr)
    ∧ ChannelEndState.balance (state (other self) c') (state self c')
      = ChannelEndState.balance (state (other self) c) (state self c)
        - lock_amount (Msg.lock tr)
    ∧ ChannelEndState.distributable (state (other self) c') (state self c')
      = ChannelEndState.distributable (state (other self) c) (state self c).
Proof.
  unfold claim_locked. rewrite bind_get.
  destruct (LockedTransfers.contains (sha3 secret)
              (ChannelEndState.locked (our_state c))) eqn:Hours;
    [|destruct (LockedTransfers.contains (sha3 secret)
                  (ChannelEndState.locked (partner_state c))) eqn:Hpartners;
      [|done]].
  all: intros Hclaim.
  all: match type of Hclaim with
       | ChannelEndState.claim_locked (state_ref ?x) _ _ _ _ = _ =>
           apply (end_claim_returned c c' x) in Hclaim
             as (tr & Htr & Hpaid & Hkept & Hgone & Hstay & Hdeposit);
           exists x, tr
       end.
  all: split_and!; try done.
  all: try (apply contains_false; rewrite Hgone; apply lookup_delete_eq).
  all: unfold ChannelEndState.distributable, ChannelEndState.balance.
  all: rewrite ?(outstanding_delete _ _ _ _ Htr Hgone).
  all: rewrite ?Hpaid, ?Hkept, ?Hdeposit; lia.
Qed.

(** A returning [claim_locked] that was given a locksroot, on a hash list
    without repetitions: the hash of the lock has left the list, the cache
    is empty, and the root of what is left is the locksroot given. *)
Lemma end_claim_checked c c' self partner secret locksroot :
  truthy locksroot = true →
  NoDup (hashes self c) →
  ChannelEndState.claim_locked (state_ref self) (state_ref partner)
    secret (Some locksroot) c = (c', inr tt) →
  merkleroot (hashes self c') = locksroot
  ∧ LockedTransfers.cached_root (ChannelEndState.locked (state self c'))
    = None
  ∧ LockedTransfers.contains (sha3 secret)
      (ChannelEndState.locked (state self c')) = false.
Proof.
  intros Htruthy Hnodup. unfold ChannelEndState.claim_locked.
  rewrite bind_get.
  destruct (LockedTransfers.contains (sha3 secret)
              (ChannelEndState.locked (rd (state_ref self) c))) eqn:Hin.
  2:{ by rewrite bind_raise_if_raises. }
  rewrite bind_raise_if_passes by done.
  apply contains_true in Hin as [tr Htr]. simpl in Htr.
  erewrite bind_returns by (by apply zoom_getitem).
  simpl truthy_opt. rewrite Htruthy.
  destruct (decide (lock_hash (Msg.lock tr) ∈ hashes self c)) as [Hin|Hout].
  2:{ erewrite bind_raises; [done|]. erewrite bind_raises; [done|].
      unfold zoom. simpl rd. by rewrite root_with_exclude_absent. }
  apply list_elem_of_split_l in Hin as (pre & post & Hsplit & Hpre).
  assert (Hpost : lock_hash (Msg.lock tr) ∉ post).
  { rewrite Hsplit in Hnodup. apply NoDup_app in Hnodup as (_ & _ & Hnodup).
    by apply NoDup_cons in Hnodup as [? _]. }
  assert (Hzoom :
    zoom (attr_ref (state_ref self) ChannelEndState.locked_ref)
      (LockedTransfers.root_with None (Some (Msg.lock tr))) c
    = (wr (locked_ref self)
         (LockedTransfers.set_hashes
            (pre ++ post ++ [lock_hash (Msg.lock tr)])
            (ChannelEndState.locked (state self c))) c,
       inr (merkleroot (pre ++ post)))).
  { unfold zoom. simpl rd.
    by rewrite (root_with_exclude_split _ _ pre post). }
  destruct (bool_decide (Some (merkleroot (pre ++ post)) ≠ Some locksroot))
    eqn:Hroot.
  { erewrite bind_raises; [done|].
    erewrite bind_returns by exact Hzoom. by rewrite Hroot. }
  erewrite (bind_returns (bind _ _)).
  2:{ erewrite bind_returns by exact Hzoom. by rewrite Hroot. }
  apply bool_decide_eq_false in Hroot.
  intros (c2 & [] & Hcredit & Hremove)%bind_returned.
  revert Hcredit. unfold zoom at 1, modify. simpl rd. intros [= <-].
  revert Hremove. unfold zoom. simpl rd. rewrite locked_after_credit.
  unfold LockedTransfers.remove, bind, LockedTransfers.getitem.
  destruct self, c as [[] [] ? ? ? ? ? ? ?]; unfold hashes in *; simpl in *;
    rewrite Htr; simpl;
    rewrite app_assoc, list_remove_last
      by (intros [?|?]%elem_of_app; done);
    intros [= <-]; destruct partner; simpl;
    (split_and!; [|done|apply contains_false; apply lookup_delete_eq]);
    apply dec_stable; intros Hne; apply Hroot; congruence.
Qed.

(** X11.  After an accepted direct transfer that reveals a secret and
    states a (non-empty) locksroot, on a recipient whose hash list has no
    repetitions, the recipient's locks root is the locksroot of the
    message and the lock the secret opens is no longer filed with the
    recipient. *)
Theorem accepted_claim_moves_the_root_on (c c' : Channel.t)
    (d : Msg.DirectTransfer) (secret : bytes) (from_state to_state : Side) :
  Msg.secret d = Some secret →
  truthy secret = true →
  truthy (Msg.locksroot (Msg.direct_header d)) = true →
  NoDup (hashes to_state c) →
  register_transfer_from_to (Msg.Direct d) from_state to_state c
  = (c', inr tt) →
  (LockedTransfers.root (ChannelEndState.locked (state to_state c'))).2
  = inr (Msg.locksroot (Msg.direct_header d))
  ∧ LockedTransfers.contains (sha3 secret)
      (ChannelEndState.locked (state to_state c')) = false.
Proof.
  intros Hsecret Htruthy Hlocksroot Hnodup. unfold register_transfer_from_to.
  intros (c1 & ad & Hcommon & Hrest)%bind_returned.
  apply check_common_returned in Hcommon as (_ & -> & _).
  rewrite bind_ret in Hrest. revert Hrest. unfold apply_transfer.
  rewrite bind_ret, Hsecret. unfold when. rewrite Htruthy.
  intros (c2 & [] & Hclaim & Hclose)%bind_returned.
  apply end_claim_checked in Hclaim as (Hroot & Hcache & Hgone); [|done..].
  rewrite (closing_steps_exact c2 (Msg.Direct d)) in Hclose.
  injection Hclose as <-.
  revert Hroot Hcache Hgone.
  unfold with_root_read, registered_sender, hashes, LockedTransfers.contains.
  rewrite !root_exact. unfold root_value.
  destruct c2 as [[] [] ? ? ? ? ? ? ?].
  destruct from_state, to_state; simpl; intros Hroot Hcache Hgone;
    rewrite Hcache; simpl; by rewrite Hroot.
Qed.

End Claim.

(** ** The journal of a channel *)

(** Splits a goal about the accounts along the computation. *)
Ltac steady_steps :=
  repeat
    (cbv beta zeta;
     first
       [ apply steady_bind; [|intros ?]
       | apply steady_get
       | apply steady_raise_if
       | apply steady_ret
       | apply steady_block_number
       | apply steady_zoom_locked, root_shuffles
       | apply steady_zoom_locked, root_with_include_shuffles ]).

Section Journal.
Context `{Imports}.
Import Channel Trace.

Lemma keeps_journal_locked {A} x (m : M LockedTransfers.t A) :
  keeps journal (zoom (locked_ref x) m).
Proof. intros c. unfold zoom. destruct (m _) as [s r]. by destruct x. Qed.

Lemma keeps_journal_attr {A} x (m : M LockedTransfers.t A) :
  keeps journal (zoom (attr_ref (state_ref x) ChannelEndState.locked_ref) m).
Proof. apply keeps_journal_locked. Qed.

Lemma keeps_journal_state {A} x (m : M ChannelEndState.t A) :
  keeps journal (zoom (state_ref x) m).
Proof. intros c. unfold zoom. destruct (m _) as [s r]. by destruct x. Qed.

Lemma keeps_journal_external {A} (m : M ChannelExternalState.t A) :
  keeps journal (zoom external_ref m).
Proof. intros c. unfold zoom. by destruct (m _) as [s r]. Qed.

(** Splits a goal about the journal along the computation. *)
Ltac keeps_journal :=
  repeat first
    [ apply keeps_journal_locked
    | apply keeps_journal_attr
    | apply keeps_journal_state
    | apply keeps_journal_external
    | keeps_step ].

Lemma keeps_journal_end_claim self partner secret locksroot :
  keeps journal
    (ChannelEndState.claim_locked (state_ref self) (state_ref partner)
       secret locksroot).
Proof. unfold ChannelEndState.claim_locked. keeps_journal. Qed.

Lemma keeps_journal_register_from_to transfer from_state to_state :
  keeps journal (register_transfer_from_to transfer from_state to_state).
Proof.
  unfold register_transfer_from_to, check_common, check_locked,
    apply_transfer.
  repeat first [apply keeps_journal_end_claim | progress keeps_journal].
Qed.

Lemma keeps_journal_create_lockedtransfer amount expiration hashlock :
  keeps journal (create_lockedtransfer amount expiration hashlock).
Proof. unfold create_lockedtransfer. keeps_journal. Qed.

Lemma reads_only_intro {A} (m : M Channel.t A) :
  steady m → keeps journal m → reads_only m.
Proof. intros Hs Hk c. split; [apply Hs|apply Hk]. Qed.

Lemma steady_create_lockedtransfer amount expiration hashlock :
  steady (create_lockedtransfer amount expiration hashlock).
Proof.
  unfold create_lockedtransfer. steady_steps.
Qed.

(** X12.  No constructor touches the journal of the channel or the
    accounts of its ends: [create_directtransfer], [create_lockedtransfer],
    [create_mediatedtransfer], [create_refundtransfer_for] and
    [create_timeouttransfer_for] leave the sent and received transfers, the
    callbacks, both nonces, both transfered amounts, both deposits and both
    lock mappings as they are, whether they return a message or raise; at
    most they fill a root cache or reorder lock hashes. *)
Theorem constructors_only_read (amount expiration : Z)
    (secret : option bytes) (hashlock : bytes)
    (transfer : Msg.LockedTransfer) :
  reads_only (create_directtransfer amount secret)
  ∧ reads_only (create_lockedtransfer amount expiration hashlock)
  ∧ reads_only (create_mediatedtransfer amount expiration hashlock)
  ∧ reads_only (create_refundtransfer_for transfer)
  ∧ reads_only (create_timeouttransfer_for transfer).
Proof.
  split_and!; apply reads_only_intro.
  - unfold create_directtransfer. steady_steps.
  - unfold create_directtransfer. keeps_journal.
  - apply steady_create_lockedtransfer.
  - apply keeps_journal_create_lockedtransfer.
  - apply steady_create_lockedtransfer.
  - apply keeps_journal_create_lockedtransfer.
  - unfold create_refundtransfer_for. steady_steps.
  - unfold create_refundtransfer_for.
    repeat first [apply keeps_journal_create_lockedtransfer | keeps_step].
  - unfold create_timeouttransfer_for. steady_steps.
  - unfold create_timeouttransfer_for. keeps_journal.
Qed.

(** What [register_transfer] leaves, by the way it went. *)
Lemma register_transfer_outcome c transfer cb :
  let recipient := Msg.recipient (Msg.header transfer) in
  let r := register_transfer transfer cb c in
  (recipient = ChannelEndState.address (partner_state c) →
   ∃ c1 res,
     register_transfer_from_to transfer Our Partner c = (c1, res)
     ∧ match res with
       | inl e => r = (c1, inl e)
       | inr _ =>
           r.2 = inr tt
           ∧ nonces r.1 = nonces c1
           ∧ sent_transfers r.1 = sent_transfers c ++ [transfer]
           ∧ received_transfers r.1 = received_transfers c
           ∧ transfer_callbacks r.1
             = transfer_callbacks c
               ++ match cb with Some n => [(transfer, n)] | None => [] end
       end)
  ∧ (recipient ≠ ChannelEndState.address (partner_state c) →
     recipient = ChannelEndState.address (our_state c) →
     ∃ c1 res,
       register_transfer_from_to transfer Partner Our c = (c1, res)
       ∧ match res with
         | inl e => r = (c1, inl e)
         | inr _ =>
             r.2 = inr tt
             ∧ nonces r.1 = nonces c1
             ∧ sent_transfers r.1 = sent_transfers c
             ∧ received_transfers r.1 = received_transfers c ++ [transfer]
             ∧ transfer_callbacks r.1 = transfer_callbacks c
         end)
  ∧ (recipient ≠ ChannelEndState.address (partner_state c) →
     recipient ≠ ChannelEndState.address (our_state c) →
     r = (c, inl (ValueError "Invalid address"))).
Proof.
  intros recipient r. subst r recipient.
  unfold register_transfer. rewrite bind_get.
  split_and!.
  - intros Hr. rewrite bool_decide_eq_true_2 by done.
    pose proof (keeps_journal_register_from_to transfer Our Partner c) as Hj.
    destruct (register_transfer_from_to transfer Our Partner c)
      as [c1 [e|[]]] eqn:Hreg; eexists _, _; (split; [done|]).
    + by erewrite bind_raises.
    + erewrite bind_returns by done. simpl in Hj.
      unfold journal in Hj. injection Hj as Hs Hrc Hcb.
      unfold bind, modify, ret. destruct cb; simpl;
        rewrite ?Hs, ?Hrc, ?Hcb, ?app_nil_r; done.
  - intros Hne Hr. rewrite bool_decide_eq_false_2 by done.
    rewrite bool_decide_eq_true_2 by done.
    pose proof (keeps_journal_register_from_to transfer Partner Our c) as Hj.
    destruct (register_transfer_from_to transfer Partner Our c)
      as [c1 [e|[]]] eqn:Hreg; eexists _, _; (split; [done|]).
    + by erewrite bind_raises.
    + erewrite bind_returns by done. simpl in Hj.
      unfold journal in Hj. injection Hj as Hs Hrc Hcb.
      unfold bind, modify, ret. simpl. by rewrite ?Hs, ?Hrc, ?Hcb.
  - intros Hne Hne'. by rewrite !bool_decide_eq_false_2.
Qed.

(** X13.  [register_transfer] journals a transfer exactly when its
    registration returns: a transfer addressed to the partner is then
    appended to the sent transfers, with its callback if one was given, a
    transfer addressed to us (and not to the partner) to the received
    transfers; when the registration raises, and when the recipient is
    neither address (a [ValueError]), the sent and received transfers and
    the callbacks are what they were. *)
Theorem register_transfer_journals_accepted (c : Channel.t)
    (transfer : Msg.Transfer) (cb : option nat) :
  let recipient := Msg.recipient (Msg.header transfer) in
  let r := register_transfer transfer cb c in
  match r.2 with
  | inl e =>
      journal r.1 = journal c
      ∧ (recipient ≠ ChannelEndState.address (partner_state c) →
         recipient ≠ ChannelEndState.address (our_state c) →
         r = (c, inl (ValueError "Invalid address")))
  | inr _ =>
      if bool_decide (recipient = ChannelEndState.address (partner_state c))
      then journal r.1
           = (sent_transfers c ++ [transfer], received_transfers c,
              transfer_callbacks c
              ++ match cb with Some n => [(transfer, n)] | None => [] end)
      else recipient = ChannelEndState.address (our_state c)
           ∧ journal r.1
             = (sent_transfers c, received_transfers c ++ [transfer],
                transfer_callbacks c)
  end.
Proof.
  intros recipient r.
  destruct (register_transfer_outcome c transfer cb)
    as (Hout & Hin & Hnone).
  fold recipient r in Hout, Hin, Hnone.
  destruct (decide (recipient = ChannelEndState.address (partner_state c)))
    as [Hp|Hp];
    [|destruct (decide (recipient = ChannelEndState.address (our_state c)))
        as [Ho|Ho]].
  - destruct (Hout Hp) as (c1 & [e|[]] & Hreg & Hr).
    + rewrite Hr. simpl. split; [|done].
      pose proof (keeps_journal_register_from_to transfer Our Partner c) as Hj.
      by rewrite Hreg in Hj.
    + destruct Hr as (-> & _ & Hs & Hrc & Hcb).
      rewrite bool_decide_eq_true_2 by done.
      unfold journal. by rewrite Hs, Hrc, Hcb.
  - destruct (Hin Hp Ho) as (c1 & [e|[]] & Hreg & Hr).
    + rewrite Hr. simpl. split; [|done].
      pose proof (keeps_journal_register_from_to transfer Partner Our c) as Hj.
      by rewrite Hreg in Hj.
    + destruct Hr as (-> & _ & Hs & Hrc & Hcb).
      rewrite bool_decide_eq_false_2 by done. split; [done|].
      unfold journal. by rewrite Hs, Hrc, Hcb.
  - rewrite (Hnone Hp Ho). simpl. done.
Qed.

(** An operation that registers nothing leaves the two lists of
    transfers alone. *)
Lemma run_keeps_lists o c :
  registration o c = None →
  sent_transfers (run o c).1 = sent_transfers c
  ∧ received_transfers (run o c).1 = received_transfers c.
Proof.
  assert (Hj : ∀ A (m : M Channel.t A),
            keeps journal m →
            sent_transfers (m c).1 = sent_transfers c
            ∧ received_transfers (m c).1 = received_transfers c).
  { intros A m Hm. specialize (Hm c). unfold journal in Hm.
    by injection Hm as -> -> _. }
  intros Hreg.
  destruct o; unfold run; rewrite ?exec_state; simpl in Hreg; try done.
  - destruct (register_transfer_outcome c transfer cb) as (_ & _ & Hnone).
    repeat case_bool_decide; try done. by rewrite Hnone.
  - apply Hj. unfold claim_locked.
    repeat first [apply keeps_journal_end_claim | keeps_step].
  - apply Hj, keeps_journal_end_claim.
  - apply Hj, keeps_journal_state.
  - apply Hj. unfold create_directtransfer. keeps_journal.
  - apply Hj, keeps_journal_create_lockedtransfer.
  - apply Hj, keeps_journal_create_lockedtransfer.
  - apply Hj. unfold create_refundtransfer_for.
    repeat first [apply keeps_journal_create_lockedtransfer | keeps_step].
  - apply Hj. unfold create_timeouttransfer_for. keeps_journal.
  - apply Hj. unfold get_state_for. keeps_journal.
  - apply Hj, keeps_journal_locked.
  - apply Hj, keeps_journal_locked.
  - apply Hj, keeps_journal_locked.
  - apply Hj, keeps_journal_locked.
Qed.

Lemma run_counts o c :
  through_register_transfer o = true →
  nonces_count_journal c → nonces_count_journal (run o c).1.
Proof.
  intros Ho [Hours Hpartners]. unfold nonces_count_journal.
  pose proof (run_nonces o c) as Hn.
  destruct (registration o c) as [[[transfer from_state] to_state]|] eqn:Hreg.
  - destruct o; try done. simpl in Hreg.
    unfold run in *. rewrite exec_state in *.
    destruct (register_transfer_outcome c transfer0 cb) as (Hout & Hin & _).
    pose proof (register_transfer_from_to_bumps transfer from_state
                  to_state c) as Hb.
    pose proof (keeps_journal_register_from_to transfer from_state
                  to_state c) as Hj.
    unfold bumps in Hb. rewrite <- Hn in Hb. clear Hn.
    unfold journal in Hj. injection Hj as Hjs Hjr _.
    case_bool_decide as Hp; [|case_bool_decide as Hu; [|done]];
      simplify_eq.
    + destruct (Hout Hp) as (c1 & res & Hrtft & Hr).
      rewrite Hrtft in Hb, Hjs, Hjr. simpl in Hb, Hjs, Hjr.
      unfold nonces in Hb. destruct res as [e|[]].
      * rewrite Hr in *. simpl in *. rewrite Hjs, Hjr.
        injection Hb as -> ->. done.
      * destruct Hr as (_ & _ & -> & -> & _).
        rewrite length_app. simpl in *. injection Hb as -> ->. lia.
    + destruct (Hin Hp Hu) as (c1 & res & Hrtft & Hr).
      rewrite Hrtft in Hb, Hjs, Hjr. simpl in Hb, Hjs, Hjr.
      unfold nonces in Hb. destruct res as [e|[]].
      * rewrite Hr in *. simpl in *. rewrite Hjs, Hjr.
        injection Hb as -> ->. done.
      * destruct Hr as (_ & _ & -> & -> & _).
        rewrite length_app. simpl in *. injection Hb as -> ->. lia.
  - destruct (run_keeps_lists o c Hreg) as [-> ->].
    unfold nonces in Hn. by injection Hn as -> ->.
Qed.

(** X14.  Along any history of a channel built from fresh end states in
    which transfers are registered through [register_transfer] only, our
    nonce is one more than the number of sent transfers and the partner's
    nonce one more than the number of received transfers. *)
Theorem nonces_count_the_journal (os : list op)
    (our_address partner_address asset : bytes)
    (our_balance partner_balance reveal settle : Z)
    (external : ChannelExternalState.t) :
  Forall (λ o, through_register_transfer o = true) os →
  nonces_count_journal
    (run_all os
       (Channel.init (ChannelEndState.init our_address our_balance)
          (ChannelEndState.init partner_address partner_balance)
          external asset reveal settle)).
Proof.
  assert (Hfresh :
    nonces_count_journal
      (Channel.init (ChannelEndState.init our_address our_balance)
         (ChannelEndState.init partner_address partner_balance)
         external asset reveal settle)) by done.
  revert Hfresh.
  generalize (Channel.init (ChannelEndState.init our_address our_balance)
                (ChannelEndState.init partner_address partner_balance)
                external asset reveal settle).
  induction os as [|o os IH]; intros c Hc Hos; simpl; [done|].
  apply Forall_cons in Hos as [Ho Hos].
  apply IH; [|done]. by apply run_counts.
Qed.

End Journal.

(** ** What a channel is set up with *)

Section Setup.
Context `{Imports}.
Import Channel Trace.

Lemma keeps_setup_locked {A} x (m : M LockedTransfers.t A) :
  keeps setup (zoom (locked_ref x) m).
Proof. intros c. unfold zoom. destruct (m _) as [s r]. by destruct x. Qed.

Lemma keeps_setup_attr {A} x (m : M LockedTransfers.t A) :
  keeps setup (zoom (attr_ref (state_ref x) ChannelEndState.locked_ref) m).
Proof. apply keeps_setup_locked. Qed.

Lemma keeps_setup_external {A} (m : M ChannelExternalState.t A) :
  keeps setup (zoom external_ref m).
Proof. intros c. unfold zoom. by destruct (m _) as [s r]. Qed.

Lemma keeps_setup_state_modify x
    (f : ChannelEndState.t → ChannelEndState.t) :
  (∀ s, ChannelEndState.address (f s) = ChannelEndState.address s
        ∧ ChannelEndState.contract_balance (f s)
          = ChannelEndState.contract_balance s) →
  keeps setup (zoom (state_ref x) (modify f)).
Proof.
  intros Hf c. unfold zoom, modify, setup.
  destruct x; simpl.
  - by destruct (Hf (our_state c)) as [-> ->].
  - by destruct (Hf (partner_state c)) as [-> ->].
Qed.

Lemma keeps_setup_modify (f : Channel.t → Channel.t) :
  (∀ c, setup (f c) = setup c) → keeps setup (modify f).
Proof. intros Hf c. apply Hf. Qed.

(** Splits a goal about the set-up along the computation. *)
Ltac keeps_setup :=
  repeat first
    [ apply keeps_setup_locked
    | apply keeps_setup_attr
    | apply keeps_setup_external
    | apply keeps_setup_state_modify; done
    | apply keeps_setup_modify; done
    | keeps_step ].

Lemma keeps_setup_end_claim self partner secret locksroot :
  keeps setup
    (ChannelEndState.claim_locked (state_ref self) (state_ref partner)
       secret locksroot).
Proof. unfold ChannelEndState.claim_locked. keeps_setup. Qed.

Lemma keeps_setup_register_from_to transfer from_state to_state :
  keeps setup (register_transfer_from_to transfer from_state to_state).
Proof.
  unfold register_transfer_from_to, check_common, check_locked,
    apply_transfer.
  repeat first [apply keeps_setup_end_claim | progress keeps_setup].
Qed.

Lemma keeps_setup_create_lockedtransfer amount expiration hashlock :
  keeps setup (create_lockedtransfer amount expiration hashlock).
Proof. unfold create_lockedtransfer. keeps_setup. Qed.

(** Only [update_contract_balance] changes the set-up, and only a
    deposit. *)
Lemma run_setup o c :
  setup (run o c).1
  = match o with
    | UpdateContractBalance Our v =>
        ((setup c).1,
         (v, ChannelEndState.contract_balance (partner_state c)))
    | UpdateContractBalance Partner v =>
        ((setup c).1,
         (ChannelEndState.contract_balance (our_state c), v))
    | _ => setup c
    end.
Proof.
  assert (Hk : ∀ A (m : M Channel.t A),
            keeps setup m → setup (m c).1 = setup c) by (intros A m Hm; apply Hm).
  destruct o; unfold run; rewrite ?exec_state; try done.
  - apply Hk. unfold register_transfer.
    repeat first [apply keeps_setup_register_from_to | progress keeps_setup].
  - apply Hk, keeps_setup_register_from_to.
  - apply Hk. unfold claim_locked.
    repeat first [apply keeps_setup_end_claim | progress keeps_setup].
  - apply Hk, keeps_setup_end_claim.
  - by destruct x.
  - apply Hk. unfold create_directtransfer. keeps_setup.
  - apply Hk, keeps_setup_create_lockedtransfer.
  - apply Hk, keeps_setup_create_lockedtransfer.
  - apply Hk. unfold create_refundtransfer_for.
    repeat first [apply keeps_setup_create_lockedtransfer
                 | progress keeps_setup].
  - apply Hk. unfold create_timeouttransfer_for. keeps_setup.
  - apply Hk. unfold get_state_for. keeps_setup.
  - apply Hk, keeps_setup_locked.
  - apply Hk, keeps_setup_locked.
  - apply Hk, keeps_setup_locked.
  - apply Hk, keeps_setup_locked.
Qed.

(** X15.  No method of the channel, of its end states or of their lock
    containers ever changes the addresses of the two parties, the asset
    or the two timeouts: after any history they are what the channel
    started with. *)
Theorem history_keeps_parties_asset_and_timeouts (os : list op)
    (c : Channel.t) :
  (setup (run_all os c)).1 = (setup c).1.
Proof.
  revert c. induction os as [|o os IH]; intros c; cbn [run_all]; [done|].
  rewrite IH, run_setup. by destruct o as [| | | |[]| | | | | | | | | | | |].
Qed.

(** X16.  A deposit changes through [update_contract_balance] only, and
    whatever was transferred or claimed, the balances of the two ends add
    up to the two deposits: along any history without a call of
    [update_contract_balance] both deposits are what they were, and the
    two balances add up to them. *)
Theorem balances_add_up_to_the_deposits (os : list op) (c : Channel.t) :
  Forall (λ o, keeps_deposits o = true) os →
  let c' := run_all os c in
  setup c' = setup c
  ∧ ChannelEndState.balance (our_state c') (partner_state c')
    + ChannelEndState.balance (partner_state c') (our_state c')
    = ChannelEndState.contract_balance (our_state c)
      + ChannelEndState.contract_balance (partner_state c).
Proof.
  intros Hos.
  assert (Hsetup : setup (run_all os c) = setup c).
  { revert c.
    induction Hos as [|o os Ho Hos IH]; intros c; cbn [run_all]; [done|].
    rewrite IH, run_setup. by destruct o. }
  cbv zeta. split; [done|].
  unfold setup in Hsetup. injection Hsetup as _ _ _ _ _ Ho Hp.
  unfold ChannelEndState.balance. lia.
Qed.

End Setup.

(** ** Computations carried along a change of the channel *)

Section Carried.
Context (f : Channel.t → Channel.t).

Lemma carried_bind {A B} c (m m' : M Channel.t A)
    (k k' : A → M Channel.t B) :
  carried f c m m' →
  (∀ a c1, carried f c1 (k a) (k' a)) →
  carried f c (bind m k) (bind m' k').
Proof.
  unfold carried, bind. intros -> Hk.
  destruct (m c) as [c1 [e|a]]; simpl; [done|apply Hk].
Qed.

Lemma carried_get_bind {B} c (k k' : Channel.t → M Channel.t B) :
  carried f c (k c) (k' (f c)) →
  carried f c (bind get k) (bind get k').
Proof. done. Qed.

Lemma carried_ret {A} c (a : A) : carried f c (ret a) (ret a).
Proof. done. Qed.

Lemma carried_raise {A} c e : carried f c (raise (A := A) e) (raise e).
Proof. done. Qed.

Lemma carried_raise_if c b e : carried f c (raise_if b e) (raise_if b e).
Proof. by destruct b. Qed.

Lemma carried_when c b (m m' : M Channel.t unit) :
  carried f c m m' → carried f c (when b m) (when b m').
Proof. by destruct b. Qed.

Lemma carried_if {A} c (b : bool) (m1 m2 m1' m2' : M Channel.t A) :
  carried f c m1 m1' → carried f c m2 m2' →
  carried f c (if b then m1 else m2) (if b then m1' else m2').
Proof. by destruct b. Qed.

End Carried.

(** One step along two computations of the same shape. *)
Ltac carried_step :=
  cbv beta zeta;
  first
    [ apply carried_ret
    | apply carried_raise
    | apply carried_raise_if
    | apply carried_when
    | apply carried_get_bind
    | apply carried_bind; [|intros ? ?]
    | apply carried_if ].

(** ** The two views of a channel *)

Section Mirror.
Context `{Imports}.
Import Channel.

Lemma mirrored_state {A} c x (m : M ChannelEndState.t A) :
  carried mirror c (zoom (state_ref x) m) (zoom (state_ref (other x)) m).
Proof.
  unfold carried, zoom.
  destruct x; simpl; by destruct (m _) as [s r].
Qed.

Lemma mirrored_locked {A} c x (m : M LockedTransfers.t A) :
  carried mirror c (zoom (locked_ref x) m) (zoom (locked_ref (other x)) m).
Proof.
  unfold carried, zoom.
  destruct x; simpl; by destruct (m _) as [s r].
Qed.

Lemma mirrored_external {A} c (m : M ChannelExternalState.t A) :
  carried mirror c (zoom external_ref m) (zoom external_ref m).
Proof. unfold carried, zoom. simpl. by destruct (m _) as [s r]. Qed.

(** One step along two computations that differ in the sides only. *)
Ltac mirrored_step :=
  cbv beta zeta;
  first
    [ apply mirrored_external
    | apply (mirrored_state _ Our)
    | apply (mirrored_state _ Partner)
    | apply (mirrored_locked _ Our)
    | apply (mirrored_locked _ Partner)
    | carried_step ].

Lemma end_claim_mirrored c self partner secret locksroot :
  carried mirror c
    (ChannelEndState.claim_locked (state_ref self) (state_ref partner)
       secret locksroot)
    (ChannelEndState.claim_locked (state_ref (other self))
       (state_ref (other partner)) secret locksroot).
Proof.
  unfold ChannelEndState.claim_locked.
  destruct self, partner; repeat mirrored_step.
Qed.

Lemma check_common_mirrored c transfer from_state to_state :
  carried mirror c (check_common transfer from_state to_state)
    (check_common transfer (other from_state) (other to_state)).
Proof.
  unfold check_common. destruct from_state, to_state; repeat mirrored_step.
Qed.

Lemma check_locked_mirrored c l to_state amount distributable :
  carried mirror c (check_locked l to_state amount distributable)
    (check_locked l (other to_state) amount distributable).
Proof.
  unfold check_locked. destruct to_state; repeat mirrored_step.
Qed.

Lemma apply_transfer_mirrored c transfer from_state to_state :
  carried mirror c (apply_transfer transfer from_state to_state)
    (apply_transfer transfer (other from_state) (other to_state)).
Proof.
  unfold apply_transfer.
  destruct transfer as [d|l]; [destruct (Msg.secret d)|];
    destruct from_state, to_state;
    repeat first [apply end_claim_mirrored | mirrored_step].
Qed.

Lemma register_from_to_mirrored c transfer from_state to_state :
  carried mirror c (register_transfer_from_to transfer from_state to_state)
    (register_transfer_from_to transfer (other from_state)
       (other to_state)).
Proof.
  unfold register_transfer_from_to.
  apply carried_bind; [apply check_common_mirrored|intros ad c1].
  apply carried_bind; [|intros _ c2; apply apply_transfer_mirrored].
  destruct transfer; [apply carried_ret|apply check_locked_mirrored].
Qed.

(** X17.  The channels the two parties keep for each other stay in step:
    when the two addresses differ, registering a transfer in the channel
    of the one party and in the mirrored channel of the other ends the
    same way, returned or raised with the same exception, and leaves the
    two channels mirrored again, what one sent being what the other
    received; so does [register_transfer_from_to] with the two ends
    exchanged, whatever the addresses. *)
Theorem both_views_register_alike (c : Channel.t)
    (transfer : Msg.Transfer) :
  ChannelEndState.address (our_state c)
  ≠ ChannelEndState.address (partner_state c) →
  carried mirror c (register_transfer transfer None)
    (register_transfer transfer None)
  ∧ ∀ from_state to_state,
      carried mirror c
        (register_transfer_from_to transfer from_state to_state)
        (register_transfer_from_to transfer (other from_state)
           (other to_state)).
Proof.
  intros Hne. split; [|intros; apply register_from_to_mirrored].
  unfold register_transfer. apply carried_get_bind.
  change (ChannelEndState.address (partner_state (mirror c)))
    with (ChannelEndState.address (our_state c)).
  change (ChannelEndState.address (our_state (mirror c)))
    with (ChannelEndState.address (partner_state c)).
  destruct (decide (Msg.recipient (Msg.header transfer)
                    = ChannelEndState.address (partner_state c))) as [Hp|Hp];
    [|destruct (decide (Msg.recipient (Msg.header transfer)
                        = ChannelEndState.address (our_state c))) as [Ho|Ho]].
  - rewrite (bool_decide_eq_true_2 _ Hp).
    rewrite bool_decide_eq_false_2 by congruence.
    cbv iota.
    apply carried_bind; [apply (register_from_to_mirrored c)|].
    intros _ c1. done.
  - rewrite (bool_decide_eq_false_2 _ Hp).
    rewrite (bool_decide_eq_true_2 _ Ho).
    cbv iota.
    apply carried_bind; [apply (register_from_to_mirrored c)|].
    intros _ c1. done.
  - by rewrite !bool_decide_eq_false_2.
Qed.

End Mirror.

(** ** Closed channels *)

Section Lifecycle.
Context `{Imports}.
Context (opened closed settled : Z).
Import Channel.

Lemma lifecycle_state {A} c x (m : M ChannelEndState.t A) :
  carried (at_lifecycle opened closed settled) c
    (zoom (state_ref x) m) (zoom (state_ref x) m).
Proof.
  unfold carried, zoom.
  destruct x; simpl; by destruct (m _) as [s r].
Qed.

Lemma lifecycle_locked {A} c x (m : M LockedTransfers.t A) :
  carried (at_lifecycle opened closed settled) c
    (zoom (locked_ref x) m) (zoom (locked_ref x) m).
Proof.
  unfold carried, zoom.
  destruct x; simpl; by destruct (m _) as [s r].
Qed.

Lemma lifecycle_block_number c :
  carried (at_lifecycle opened closed settled) c
    (zoom external_ref ChannelExternalState.get_block_number)
    (zoom external_ref ChannelExternalState.get_block_number).
Proof. done. Qed.

Lemma lifecycle_register_hashlock c hashlock :
  carried (at_lifecycle opened closed settled) c
    (zoom external_ref
       (ChannelExternalState.register_channel_for_hashlock hashlock))
    (zoom external_ref
       (ChannelExternalState.register_channel_for_hashlock hashlock)).
Proof. done. Qed.

(** One step along a computation that does not ask whether the channel
    is open. *)
Ltac lifecycle_step :=
  cbv beta zeta;
  first
    [ apply lifecycle_block_number
    | apply lifecycle_register_hashlock
    | apply lifecycle_state
    | apply lifecycle_locked
    | carried_step ].

Lemma end_claim_lifecycle c self partner secret locksroot :
  carried (at_lifecycle opened closed settled) c
    (ChannelEndState.claim_locked (state_ref self) (state_ref partner)
       secret locksroot)
    (ChannelEndState.claim_locked (state_ref self) (state_ref partner)
       secret locksroot).
Proof.
  unfold ChannelEndState.claim_locked.
  destruct self, partner; repeat lifecycle_step.
Qed.

Lemma register_from_to_lifecycle c transfer from_state to_state :
  carried (at_lifecycle opened closed settled) c
    (register_transfer_from_to transfer from_state to_state)
    (register_transfer_from_to transfer from_state to_state).
Proof.
  unfold register_transfer_from_to, check_common, check_locked,
    apply_transfer.
  destruct transfer as [d|l]; [destruct (Msg.secret d)|];
    destruct from_state, to_state;
    repeat first [apply end_claim_lifecycle | lifecycle_step].
Qed.

Lemma register_lifecycle c transfer cb :
  carried (at_lifecycle opened closed settled) c
    (register_transfer transfer cb) (register_transfer transfer cb).
Proof.
  unfold register_transfer. apply carried_get_bind.
  change (partner_state (at_lifecycle opened closed settled c))
    with (partner_state c).
  change (our_state (at_lifecycle opened closed settled c))
    with (our_state c).
  repeat case_bool_decide; [| |done].
  - apply carried_bind; [apply register_from_to_lifecycle|].
    intros _ c1. by destruct cb.
  - apply carried_bind; [apply register_from_to_lifecycle|].
    intros _ c1. done.
Qed.

Lemma claim_lifecycle c secret locksroot :
  carried (at_lifecycle opened closed settled) c
    (claim_locked secret locksroot) (claim_locked secret locksroot).
Proof.
  unfold claim_locked. apply carried_get_bind.
  change (partner_state (at_lifecycle opened closed settled c))
    with (partner_state c).
  change (our_state (at_lifecycle opened closed settled c))
    with (our_state c).
  repeat case_match; first [apply end_claim_lifecycle | done].
Qed.

End Lifecycle.

Section Closed.
Context `{Imports}.
Import Channel.

(** X18.  Only the constructors ask whether the channel is open.  On a
    channel that is not open, [create_directtransfer],
    [create_lockedtransfer] and [create_mediatedtransfer] raise
    [ValueError] and leave the channel as it is, whatever the amount; but
    [register_transfer], [register_transfer_from_to] and [claim_locked]
    end as they would with any other opening, closing and settlement
    blocks, with the same return or exception and the same channel up to
    those three blocks. *)
Theorem only_constructors_ask_whether_open (c : Channel.t)
    (amount expiration : Z) (secret : option bytes) (hashlock : bytes)
    (transfer : Msg.Transfer) (cb : option nat)
    (from_state to_state : Side)
    (revealed : bytes) (locksroot : option bytes) :
  isopen c = false →
  create_directtransfer amount secret c
  = (c, inl (ValueError "The channel is closed"))
  ∧ create_lockedtransfer amount expiration hashlock c
    = (c, inl (ValueError "The channel is closed"))
  ∧ create_mediatedtransfer amount expiration hashlock c
    = (c, inl (ValueError "The channel is closed"))
  ∧ ∀ opened closed settled,
      carried (at_lifecycle opened closed settled) c
        (register_transfer transfer cb) (register_transfer transfer cb)
      ∧ carried (at_lifecycle opened closed settled) c
          (register_transfer_from_to transfer from_state to_state)
          (register_transfer_from_to transfer from_state to_state)
      ∧ carried (at_lifecycle opened closed settled) c
          (claim_locked revealed locksroot)
          (claim_locked revealed locksroot).
Proof.
  intros Hclosed.
  assert (Hlocked :
    create_lockedtransfer amount expiration hashlock c
    = (c, inl (ValueError "The channel is closed"))).
  { unfold create_lockedtransfer. rewrite bind_get.
    by rewrite bind_raise_if_raises by by rewrite Hclosed. }
  split_and!; [|done|done|].
  - unfold create_directtransfer. rewrite bind_get.
    by rewrite bind_raise_if_raises by by rewrite Hclosed.
  - intros opened closed settled. split_and!.
    + apply register_lifecycle.
    + apply register_from_to_lifecycle.
    + apply claim_lifecycle.
Qed.

End Closed.

(** ** What stays true whatever is registered *)

Section Kept.
Context `{Imports}.
Import Channel Trace.

(** X19.  Along any history of a channel built from fresh end states in
    which [root_with] is never called from outside with both a lock to
    include and a lock to exclude, both lock containers stay well-formed:
    every transfer is filed under the hashlock of its own lock, and the
    hash list holds exactly the hashes of the filed locks, in some
    order. *)
Theorem lock_containers_stay_well_formed (os : list op)
    (our_address partner_address asset : bytes)
    (our_balance partner_balance reveal settle : Z)
    (external : ChannelExternalState.t) :
  Forall (λ o, root_with_both o = false) os →
  all_wf
    (run_all os
       (Channel.init (ChannelEndState.init our_address our_balance)
          (ChannelEndState.init partner_address partner_balance)
          external asset reveal settle)).
Proof. apply history_all_wf. Qed.

(** X20.  A transfer that [register_transfer_from_to] rejects, whatever
    the exception, costs nothing: if the recipient's lock container is
    well-formed, both nonces, both transfered amounts, both deposits, both
    lock mappings, the journal and the chain state are what they were
    before; only the order of the recipient's lock hashes and the root
    caches may differ, so both balances and both distributable amounts
    are unchanged. *)
Theorem rejected_transfer_costs_nothing (c c' : Channel.t)
    (transfer : Msg.Transfer) (from_state to_state : Side) (e : exn) :
  wf (ChannelEndState.locked (state to_state c)) →
  register_transfer_from_to transfer from_state to_state c = (c', inl e) →
  same_accounts c c'
  ∧ ∀ x y,
      ChannelEndState.balance (state x c') (state y c')
      = ChannelEndState.balance (state x c) (state y c)
      ∧ ChannelEndState.distributable (state x c') (state y c')
        = ChannelEndState.distributable (state x c) (state y c).
Proof.
  intros Hwf Hreg.
  pose proof (rejected_transfer_keeps_accounts c transfer from_state
                to_state c' e Hwf Hreg) as Hsame.
  split; [done|]. intros x y.
  pose proof (same_accounts_locked c c' y Hsame) as Hl.
  destruct Hsame as (Ho & Hp & _).
  assert (Hacc : ∀ z, accounts (state z c') = accounts (state z c))
    by (by intros []).
  pose proof (Hacc x) as Hx. pose proof (Hacc y) as Hy.
  unfold accounts in Hx, Hy.
  injection Hx as Hx1 Hx2 _ _ _. injection Hy as Hy1 Hy2 _ _ _.
  unfold ChannelEndState.distributable, ChannelEndState.balance,
    LockedTransfers.outstanding.
  rewrite Hx1, Hx2, Hy2, Hl. done.
Qed.

End Kept.

(** ** The further properties at concrete channels *)

Lemma one_filed_wf : wf (H := Sample.imports) Scenario.one_filed.
Proof.
  split; unfold Scenario.one_filed; simpl.
  - intros h tr [<- <-]%lookup_singleton_Some. reflexivity.
  - by rewrite map_to_list_singleton.
Qed.

(** X1 at the container that holds [locked1], for [locked2]. *)
Lemma add_files_the_transfer_witness :
  ∃ s',
    LockedTransfers.add (H := Sample.imports) Scenario.locked2
      Scenario.one_filed = (s', inr tt)
    ∧ LockedTransfers.contains (lock_hashlock Scenario.lock2) s' = true
    ∧ LockedTransfers.outstanding s'
      = LockedTransfers.outstanding Scenario.one_filed + 5.
Proof.
  destruct (add_files_the_transfer (H := Sample.imports)
              Scenario.one_filed Scenario.locked2)
    as (s' & Hadd & Hin & _ & _ & Hout & _).
  - vm_compute. reflexivity.
  - exists s'. split; [exact Hadd|]. split; [exact Hin|exact Hout].
Defined.

(** X3 at the same container, for the hashlock of [lock1]. *)
Lemma remove_unfiles_the_transfer_witness :
  ∃ s',
    LockedTransfers.remove (H := Sample.imports)
      (lock_hashlock Scenario.lock1) Scenario.one_filed = (s', inr tt)
    ∧ LockedTransfers.contains (lock_hashlock Scenario.lock1) s' = false
    ∧ wf (H := Sample.imports) s'.
Proof.
  destruct (remove_unfiles_the_transfer (H := Sample.imports)
              Scenario.one_filed (lock_hashlock Scenario.lock1)
              Scenario.locked1)
    as (s' & Hremove & Hout & _ & _ & _ & _ & _ & Hwf).
  - exact one_filed_wf.
  - vm_compute. reflexivity.
  - exists s'. split; [exact Hremove|]. split; [exact Hout|exact Hwf].
Defined.

(** X4 at the same container: [locked2] is added and removed again. *)
Lemma add_then_remove_restores_witness :
  ∃ s1,
    LockedTransfers.add (H := Sample.imports) Scenario.locked2
      Scenario.one_filed = (s1, inr tt)
    ∧ LockedTransfers.remove (H := Sample.imports)
        (lock_hashlock Scenario.lock2) s1
      = (Scenario.one_filed, inr tt).
Proof.
  apply (add_then_remove_restores (H := Sample.imports)
           Scenario.one_filed Scenario.locked2).
  - vm_compute. reflexivity.
  - intros Hin. vm_compute in Hin.
    inversion Hin as [|? ? ? Hin']. inversion Hin'.
Defined.

(** X5 at the fresh channel and the registration of [locked1]. *)
Lemma accepted_transfer_passed_the_checks_witness :
  passes_common Scenario.fresh (Msg.locked_header Scenario.locked1)
    Channel.Our Channel.Partner
  ∧ passes_locked (H := Sample.imports) Scenario.fresh Scenario.locked1
      Channel.Our Channel.Partner.
Proof.
  pose proof (accepted_transfer_passed_the_checks (H := Sample.imports)
                Scenario.fresh
                (Channel.register_transfer_from_to (H := Sample.imports)
                   (Msg.Locked Scenario.locked1) Channel.Our Channel.Partner
                   Scenario.fresh).1
                (Msg.Locked Scenario.locked1) Channel.Our Channel.Partner)
    as Hpassed.
  destruct Hpassed as (Hcommon & _ & Hlocked).
  - vm_compute. reflexivity.
  - split; [exact Hcommon|].
    exact (proj1 (Hlocked Scenario.locked1 eq_refl)).
Defined.

(** X6 at the fresh channel: [A] pays 5. *)
Lemma direct_transfer_moves_the_amount_witness :
  ∃ c',
    Channel.register_transfer_from_to (H := Sample.imports)
      (Msg.Direct Scenario.pay5) Channel.Our Channel.Partner Scenario.fresh
    = (c', inr tt)
    ∧ ChannelEndState.balance (Channel.our_state c')
        (Channel.partner_state c') = 95
    ∧ ChannelEndState.balance (Channel.partner_state c')
        (Channel.our_state c') = 105.
Proof.
  destruct (direct_transfer_moves_the_amount (H := Sample.imports)
              Scenario.fresh Scenario.pay5 Channel.Our Channel.Partner)
    as (c' & Hreg & Hfrom & Hto & _).
  - discriminate.
  - repeat split; vm_compute; done.
  - reflexivity.
  - exists c'. split; [exact Hreg|]. split; [exact Hfrom|exact Hto].
Defined.

(** X7 at the fresh channel and [locked1]. *)
Lemma locked_transfer_files_the_lock_witness :
  ∃ c',
    Channel.register_transfer_from_to (H := Sample.imports)
      (Msg.Locked Scenario.locked1) Channel.Our Channel.Partner
      Scenario.fresh
    = (c', inr tt)
    ∧ hashes Channel.Partner c'
      = [lock_hash (H := Sample.imports) Scenario.lock1]
    ∧ ChannelEndState.distributable (Channel.our_state c')
        (Channel.partner_state c') = 90.
Proof.
  destruct (locked_transfer_files_the_lock (H := Sample.imports)
              Scenario.fresh Scenario.locked1 Channel.Our Channel.Partner)
    as (c' & Hreg & _ & Hhashes & _ & _ & Hdist & _).
  - discriminate.
  - repeat split; vm_compute; done.
  - repeat split; vm_compute; done.
  - vm_compute. reflexivity.
  - intros Hin. vm_compute in Hin. inversion Hin.
  - exists c'. split; [exact Hreg|]. split; [exact Hhashes|exact Hdist].
Defined.

(** X8 at the fresh channel: [A] builds a direct transfer of 5, signs and
    registers it. *)
Lemma built_direct_transfer_registers_witness :
  ∃ c1 d c2,
    Channel.create_directtransfer (H := Sample.imports) 5 None
      Scenario.fresh = (c1, inr d)
    ∧ Channel.register_transfer (H := Sample.imports)
        (Msg.sign "A" (Msg.Direct d)) None c1
      = (c2, inr tt)
    ∧ ChannelEndState.nonce (Channel.our_state c2) = 2
    ∧ ChannelEndState.transfered_amount (Channel.our_state c2) = 5.
Proof.
  destruct (built_direct_transfer_registers (H := Sample.imports)
              Scenario.fresh 5 None None)
    as (c1 & d & c2 & Hbuilt & Hreg & Hnonce & Hamount & _).
  - reflexivity.
  - vm_compute. split; [reflexivity|discriminate].
  - reflexivity.
  - vm_compute. discriminate.
  - exists c1, d, c2.
    split; [exact Hbuilt|]. split; [exact Hreg|].
    split; [exact Hnonce|exact Hamount].
Defined.

(** X9 at the fresh channel: [A] builds the locked transfer for [lock1],
    signs and registers it. *)
Lemma built_locked_transfer_registers_witness :
  ∃ l c2,
    Channel.create_lockedtransfer (H := Sample.imports) 10 20
      (Sample.sha3 "s1") Scenario.fresh
    = (Scenario.fresh, inr l)
    ∧ Channel.register_transfer (H := Sample.imports)
        (Msg.sign "A" (Msg.Locked l)) None Scenario.fresh
      = (c2, inr tt)
    ∧ Channel.distributable c2 = Channel.distributable Scenario.fresh - 10.
Proof.
  destruct (built_locked_transfer_registers (H := Sample.imports)
              Scenario.fresh 10 20 (Sample.sha3 "s1") None)
    as (l & c2 & Hbuilt & Hreg & _ & _ & _ & Hdist & _).
  - reflexivity.
  - vm_compute. reflexivity.
  - vm_compute. reflexivity.
  - vm_compute. split; [reflexivity|discriminate].
  - vm_compute. discriminate.
  - vm_compute. reflexivity.
  - intros Hin. vm_compute in Hin. inversion Hin.
  - exists l, c2. split; [exact Hbuilt|]. split; [exact Hreg|exact Hdist].
Defined.

(** X10 at the channel that registered [locked1]: the secret of [lock1]
    is claimed. *)
Lemma claim_credits_the_lock_witness :
  ∃ self tr,
    LockedTransfers.locked
      (ChannelEndState.locked (Channel.state self Scenario.one_lock))
    !! Sample.sha3 "s1" = Some tr
    ∧ LockedTransfers.contains (Sample.sha3 "s1")
        (ChannelEndState.locked
           (Channel.state self
              (Channel.claim_locked (H := Sample.imports) "s1" None
                 Scenario.one_lock).1)) = false.
Proof.
  destruct (claim_credits_the_lock (H := Sample.imports)
              Scenario.one_lock
              (Channel.claim_locked (H := Sample.imports) "s1" None
                 Scenario.one_lock).1 "s1" None)
    as (self & tr & Hfiled & _ & Hgone & _).
  - vm_compute. reflexivity.
  - exists self, tr. split; [exact Hfiled|exact Hgone].
Defined.

(** X11 at the channel that registered both locks, and the direct
    transfer that reveals the secret of [lock1]. *)
Lemma accepted_claim_moves_the_root_on_witness :
  let c' :=
    (Channel.register_transfer_from_to (H := Sample.imports)
       (Msg.Direct Scenario.good_claim) Channel.Our Channel.Partner
       Scenario.two_locks).1 in
  (LockedTransfers.root (H := Sample.imports)
     (ChannelEndState.locked (Channel.partner_state c'))).2
  = inr (Sample.merkleroot [lock_hash (H := Sample.imports) Scenario.lock2])
  ∧ LockedTransfers.contains (Sample.sha3 "s1")
      (ChannelEndState.locked (Channel.partner_state c')) = false.
Proof.
  apply (accepted_claim_moves_the_root_on (H := Sample.imports)
           Scenario.two_locks _ Scenario.good_claim "s1"
           Channel.Our Channel.Partner).
  - reflexivity.
  - reflexivity.
  - vm_compute. reflexivity.
  - apply (bool_decide_unpack
             (NoDup (hashes Channel.Partner Scenario.two_locks))).
    vm_compute. exact I.
  - vm_compute. reflexivity.
Defined.

(** X14 at the channel that registered both locks. *)
Lemma nonces_count_the_journal_witness :
  nonces_count_journal Scenario.two_locks.
Proof.
  apply (nonces_count_the_journal (H := Sample.imports)
           [Trace.RegisterTransfer (Msg.Locked Scenario.locked1) None;
            Trace.RegisterTransfer (Msg.Locked Scenario.locked2) None]
           "A" "B" "asset" 100 100 3 20
           (ChannelExternalState.mk 10 1 0 0 [])).
  repeat constructor.
Defined.

(** X16 at the same channel. *)
Lemma balances_add_up_to_the_deposits_witness :
  ChannelEndState.balance (Channel.our_state Scenario.two_locks)
    (Channel.partner_state Scenario.two_locks)
  + ChannelEndState.balance (Channel.partner_state Scenario.two_locks)
      (Channel.our_state Scenario.two_locks)
  = 100 + 100.
Proof.
  apply (balances_add_up_to_the_deposits (H := Sample.imports)
           [Trace.RegisterTransfer (Msg.Locked Scenario.locked1) None;
            Trace.RegisterTransfer (Msg.Locked Scenario.locked2) None]
           Scenario.fresh).
  repeat constructor.
Defined.

(** X17 at the fresh channel and [locked1]: [A] registers it as sent, [B]
    as received. *)
Lemma both_views_register_alike_witness :
  carried mirror Scenario.fresh
    (Channel.register_transfer (H := Sample.imports)
       (Msg.Locked Scenario.locked1) None)
    (Channel.register_transfer (H := Sample.imports)
       (Msg.Locked Scenario.locked1) None).
Proof.
  apply (both_views_register_alike (H := Sample.imports) Scenario.fresh
           (Msg.Locked Scenario.locked1)).
  vm_compute. discriminate.
Defined.

(** X18 at the closed channel. *)
Lemma only_constructors_ask_whether_open_witness :
  Channel.create_lockedtransfer (H := Sample.imports) 10 20
    (Sample.sha3 "s1") Scenario.closed
  = (Scenario.closed, inl (ValueError "The channel is closed"))
  ∧ carried (at_lifecycle 1 0 0) Scenario.closed
      (Channel.register_transfer (H := Sample.imports)
         (Msg.Locked Scenario.locked1) None)
      (Channel.register_transfer (H := Sample.imports)
         (Msg.Locked Scenario.locked1) None).
Proof.
  destruct (only_constructors_ask_whether_open (H := Sample.imports)
              Scenario.closed 10 20 None (Sample.sha3 "s1")
              (Msg.Locked Scenario.locked1) None Channel.Our
              Channel.Partner "s1" None)
    as (_ & Hlocked & _ & Hcarried).
  - vm_compute. reflexivity.
  - split; [exact Hlocked|]. exact (proj1 (Hcarried 1 0 0)).
Defined.

(** X19 at the channel that registered both locks. *)
Lemma lock_containers_stay_well_formed_witness :
  all_wf (H := Sample.imports) Scenario.two_locks.
Proof.
  apply (lock_containers_stay_well_formed (H := Sample.imports)
           [Trace.RegisterTransfer (Msg.Locked Scenario.locked1) None;
            Trace.RegisterTransfer (Msg.Locked Scenario.locked2) None]
           "A" "B" "asset" 100 100 3 20
           (ChannelExternalState.mk 10 1 0 0 [])).
  repeat constructor.
Defined.

(** X20 at the fresh channel and a transfer of another asset. *)
Lemma rejected_transfer_costs_nothing_witness :
  same_accounts Scenario.fresh
    (Channel.register_transfer_from_to (H := Sample.imports)
       Scenario.wrong_asset Channel.Our Channel.Partner Scenario.fresh).1.
Proof.
  refine (proj1 (rejected_transfer_costs_nothing (H := Sample.imports)
                   Scenario.fresh _ Scenario.wrong_asset Channel.Our
                   Channel.Partner (ValueError "Asset address mismatch")
                   _ _)).
  - apply wf_init.
  - vm_compute. reflexivity.
Defined.
